(** * System File Sync (AmberELEC [usr/bin/system_sync.py])

    A shallow embedding of the comparison-and-sync engine of
    [SystemSyncUI]: [file_hash], [compare_files], [check_system_folder],
    [get_file_diff], [sync_file], [sync_selected_files] and the key
    handling of [handle_input].

    The Python runtime the script calls into (the filesystem, [hashlib.md5],
    [pathlib], [os.walk], [shutil.copy2], text-mode [open] and
    [difflib.unified_diff]) is modelled first; the methods of the class
    follow, written in an exception-and-state monad over the [world].

    The draw methods and the loop of [run] come after them. They hand on
    the display, a record of the calls made on [self.screen]; what pygame
    renders from these calls is outside the model. *)

From Stdlib Require Import ZArith Ascii String DecimalString.
From Stdlib.Strings Require Import Byte.
From Stdlib Require Import Lia.
From stdpp Require Import base option list strings gmap sorting.

Local Open Scope string_scope.
Local Open Scope list_scope.
Local Open Scope nat_scope.

(** ** hashlib.md5 (RFC 1321), on 32-bit words carried in [Z] *)

Module MD5.
Local Open Scope Z_scope.

Definition mask32 (x : Z) : Z := Z.land x 0xFFFFFFFF.
Definition add32 (x y : Z) : Z := mask32 (x + y).
Definition not32 (x : Z) : Z := Z.lxor x 0xFFFFFFFF.
Definition rotl32 (x c : Z) : Z :=
  mask32 (Z.lor (Z.shiftl x c) (Z.shiftr x (32 - c))).

Definition shifts : list Z :=
  [7; 12; 17; 22; 7; 12; 17; 22; 7; 12; 17; 22; 7; 12; 17; 22;
   5; 9; 14; 20; 5; 9; 14; 20; 5; 9; 14; 20; 5; 9; 14; 20;
   4; 11; 16; 23; 4; 11; 16; 23; 4; 11; 16; 23; 4; 11; 16; 23;
   6; 10; 15; 21; 6; 10; 15; 21; 6; 10; 15; 21; 6; 10; 15; 21].

Definition sines : list Z :=
  [0xd76aa478; 0xe8c7b756; 0x242070db; 0xc1bdceee;
   0xf57c0faf; 0x4787c62a; 0xa8304613; 0xfd469501;
   0x698098d8; 0x8b44f7af; 0xffff5bb1; 0x895cd7be;
   0x6b901122; 0xfd987193; 0xa679438e; 0x49b40821;
   0xf61e2562; 0xc040b340; 0x265e5a51; 0xe9b6c7aa;
   0xd62f105d; 0x02441453; 0xd8a1e681; 0xe7d3fbc8;
   0x21e1cde6; 0xc33707d6; 0xf4d50d87; 0x455a14ed;
   0xa9e3e905; 0xfcefa3f8; 0x676f02d9; 0x8d2a4c8a;
   0xfffa3942; 0x8771f681; 0x6d9d6122; 0xfde5380c;
   0xa4beea44; 0x4bdecfa9; 0xf6bb4b60; 0xbebfbc70;
   0x289b7ec6; 0xeaa127fa; 0xd4ef3085; 0x04881d05;
   0xd9d4d039; 0xe6db99e5; 0x1fa27cf8; 0xc4ac5665;
   0xf4292244; 0x432aff97; 0xab9423a7; 0xfc93a039;
   0x655b59c3; 0x8f0ccc92; 0xffeff47d; 0x85845dd1;
   0x6fa87e4f; 0xfe2ce6e0; 0xa3014314; 0x4e0811a1;
   0xf7537e82; 0xbd3af235; 0x2ad7d2bb; 0xeb86d391].

(** [n] little-endian bytes of [x], and back. *)
Definition le_bytes (n : nat) (x : Z) : list Z :=
  (fun i => Z.land (Z.shiftr x (8 * Z.of_nat i)) 0xFF) <$> seq 0 n.

Fixpoint le_word (bs : list Z) : Z :=
  match bs with
  | [] => 0
  | b :: r => Z.lor b (Z.shiftl (le_word r) 8)
  end.

Definition pad (msg : list Z) : list Z :=
  let len := Z.of_nat (length msg) in
  msg ++ [0x80] ++ replicate (Z.to_nat ((55 - len) mod 64)) 0
      ++ le_bytes 8 (Z.land (8 * len) 0xFFFFFFFFFFFFFFFF).

Definition regs : Type := Z * Z * Z * Z.

Definition step (M : list Z) (st : regs) (i : nat) : regs :=
  let '(A, B, C, D) := st in
  let zi := Z.of_nat i in
  let '(F, g) :=
    if zi <? 16 then (Z.lor (Z.land B C) (Z.land (not32 B) D), zi)
    else if zi <? 32 then (Z.lor (Z.land D B) (Z.land (not32 D) C), (5 * zi + 1) mod 16)
    else if zi <? 48 then (Z.lxor (Z.lxor B C) D, (3 * zi + 5) mod 16)
    else (Z.lxor C (Z.lor B (not32 D)), (7 * zi) mod 16) in
  let F' := add32 (add32 (add32 F A) (sines !!! i)) (M !!! Z.to_nat g) in
  (D, add32 B (rotl32 F' (shifts !!! i)), B, C).

Definition block (st : regs) (blk : list Z) : regs :=
  let M := (fun k => le_word (take 4 (drop (4 * k) blk))) <$> seq 0 16 in
  let '(a0, b0, c0, d0) := st in
  let '(A, B, C, D) := foldl (step M) st (seq 0 64) in
  (add32 a0 A, add32 b0 B, add32 c0 C, add32 d0 D).

Fixpoint blocks (n : nat) (st : regs) (bs : list Z) : regs :=
  match n with
  | O => st
  | S k => blocks k (block st (take 64 bs)) (drop 64 bs)
  end.

Definition hex_digit (x : Z) : ascii :=
  default "0"%char (list_ascii_of_string "0123456789abcdef" !! Z.to_nat x).

Definition hex_byte (b : Z) : string :=
  String (hex_digit (Z.shiftr b 4)) (String (hex_digit (Z.land b 0xF)) EmptyString).

(** The lower-case hexadecimal digest of a byte string. *)
Definition hexdigest_of (msg : list byte) : string :=
  let bs := pad ((fun b => Z.of_N (Byte.to_N b)) <$> msg) in
  let '(a, b, c, d) :=
    blocks (length bs / 64)%nat (0x67452301, 0xefcdab89, 0x98badcfe, 0x10325476) bs in
  String.concat "" (hex_byte <$> (le_bytes 4 a ++ le_bytes 4 b ++ le_bytes 4 c ++ le_bytes 4 d)).

(** The hash object: [hashlib.md5()] starts empty, [update] feeds bytes,
    [hexdigest] digests everything fed so far. *)
Record t := Hasher { fed : list byte }.
Definition md5 : t := Hasher [].
Definition update (h : t) (chunk : list byte) : t := Hasher (fed h ++ chunk).
Definition hexdigest (h : t) : string := hexdigest_of (fed h).

End MD5.

(** Byte-string literals. *)
Definition bytes_of (s : string) : list byte := list_byte_of_string s.
Definition CR : string := String "013"%char EmptyString.
Definition LF : string := String "010"%char EmptyString.

(** ** pathlib: absolute POSIX paths as lists of components *)

Definition path : Type := list string.

(** [str(p)] *)
Definition str_path (p : path) : string :=
  match p with
  | [] => "/"
  | _ => String.concat "" ((fun c => "/" +:+ c) <$> p)
  end.

(** [p.parent]; the root is its own parent. *)
Definition parent (p : path) : path := removelast p.

(** [p.name]; empty for the root. *)
Definition name (p : path) : string := default "" (last p).

(** [p / q] for a relative [q]. *)
Definition joinpath (p q : path) : path := p ++ q.

(** [p.relative_to(base)]: [None] stands for Python's [ValueError]. *)
Fixpoint strip_prefix (base p : path) : option path :=
  match base, p with
  | [], _ => Some p
  | b :: base', c :: p' => if String.eqb b c then strip_prefix base' p' else None
  | _ :: _, [] => None
  end.

(** ** The filesystem

    A tree of regular files and directories. There are no symbolic links.
    [readable] and [writable] say whether opening the node for reading,
    and for writing (for a directory: creating an entry in it), is
    permitted. Search permission on directories is not kept apart:
    [resolve] finds a path as soon as its components exist, and a
    statement that needs [os.stat] to get through assumes [can_stat],
    which asks every directory on the way to be readable. *)

(** What the script can observe of a file's metadata: whether it may be
    read, whether it may be written, and its modification time. *)
Record meta := Meta { readable : bool; writable : bool; mtime : Z }.

Definition fresh_meta : meta := Meta true true 0.

#[local] Unset Elimination Schemes.
Inductive node :=
| File (m : meta) (data : list byte)
| Dir (m : meta) (entries : list (string * node)).
#[local] Set Elimination Schemes.

Definition node_meta (n : node) : meta :=
  match n with File m _ => m | Dir m _ => m end.

Definition is_dir_node (n : node) : bool :=
  match n with Dir _ _ => true | File _ _ => false end.

(** The entry called [c] of a directory listing (the first one). *)
Fixpoint entry (c : string) (es : list (string * node)) : option node :=
  match es with
  | [] => None
  | (n, x) :: r => if String.eqb n c then Some x else entry c r
  end.

Fixpoint set_entry (c : string) (x : node) (es : list (string * node))
  : list (string * node) :=
  match es with
  | [] => [(c, x)]
  | (n, y) :: r => if String.eqb n c then (n, x) :: r else (n, y) :: set_entry c x r
  end.

(** Path resolution from the root directory [n]. *)
Fixpoint resolve (n : node) (p : path) : option node :=
  match p with
  | [] => Some n
  | c :: q =>
      match n with
      | Dir _ es => match entry c es with Some x => resolve x q | None => None end
      | File _ _ => None
      end
  end.

(** Put [x] at path [p]; the parent of [p] must be an existing directory,
    otherwise nothing changes. *)
Fixpoint place (n : node) (p : path) (x : node) : node :=
  match p with
  | [] => x
  | c :: q =>
      match n with
      | Dir m es =>
          match entry c es with
          | Some y => Dir m (set_entry c (place y q x) es)
          | None => match q with [] => Dir m (set_entry c x es) | _ :: _ => n end
          end
      | File _ _ => n
      end
  end.

(** ** Python [str]

    A [str] is carried as bytes: a text as its UTF-8 encoding, a file name
    as the bytes [os.fsdecode] read it from. A character is a well-formed
    UTF-8 sequence (Unicode table 3-7), or one byte that belongs to none
    (which [os.fsdecode] escapes to a lone surrogate, one character of the
    [str]). *)

Definition byte_in (lo hi : N) (b : byte) : bool :=
  (lo <=? Byte.to_N b)%N && (Byte.to_N b <=? hi)%N.

Definition is_cont : byte -> bool := byte_in 0x80 0xBF.

Definition second_of3 (b0 : byte) : byte -> bool :=
  if byte_in 0xE0 0xE0 b0 then byte_in 0xA0 0xBF
  else if byte_in 0xED 0xED b0 then byte_in 0x80 0x9F
  else is_cont.

Definition second_of4 (b0 : byte) : byte -> bool :=
  if byte_in 0xF0 0xF0 b0 then byte_in 0x90 0xBF
  else if byte_in 0xF4 0xF4 b0 then byte_in 0x80 0x8F
  else is_cont.


Module Str.

(** The number of bytes of the first character of [bs]. *)
Definition width (bs : list byte) : nat :=
  match bs with
  | [] => 0
  | b0 :: t0 =>
      if byte_in 0xC2 0xDF b0 then
        match t0 with
        | b1 :: _ => if is_cont b1 then 2 else 1
        | [] => 1
        end
      else if byte_in 0xE0 0xEF b0 then
        match t0 with
        | b1 :: b2 :: _ => if second_of3 b0 b1 && is_cont b2 then 3 else 1
        | _ => 1
        end
      else if byte_in 0xF0 0xF4 b0 then
        match t0 with
        | b1 :: b2 :: b3 :: _ =>
            if second_of4 b0 b1 && is_cont b2 && is_cont b3 then 4 else 1
        | _ => 1
        end
      else 1
  end.

(** The characters of [bs], each with its bytes; [turns] bounds their
    number. *)
Fixpoint split (turns : nat) (bs : list byte) : list (list byte) :=
  match turns, bs with
  | S turns', _ :: _ => take (width bs) bs :: split turns' (drop (width bs) bs)
  | _, _ => []
  end.

Definition chars (s : string) : list (list byte) :=
  split (String.length s) (list_byte_of_string s).

(** [len(s)] *)
Definition len (s : string) : nat := length (chars s).

(** [s[:n]] *)
Definition upto (n : nat) (s : string) : string :=
  string_of_list_byte (concat (take n (chars s))).

(** [s.startswith(p)] *)
Definition startswith (s p : string) : bool := String.prefix p s.

End Str.

(** ** Exceptions *)

Inductive exn :=
| FileNotFoundError (p : path)
| NotADirectoryError (p : path)
| IsADirectoryError (p : path)
| PermissionError (p : path)
| FileExistsError (p : path)
| SameFileError (src dst : string)
| ValueError (msg : string)
| IndexError (msg : string).

(** [isinstance(e, OSError)] *)
Definition is_OSError (e : exn) : bool :=
  match e with ValueError _ | IndexError _ => false | _ => true end.

(** [repr(s)] of a [str]: in single quotes, or in double quotes when [s]
    holds a single quote and no double quote. The backslash, the quote in
    use and the control characters are escaped, and so is the lone
    surrogate of a byte that belongs to no character. Every other
    character above U+007F is taken to be printable, which [repr] leaves
    as it is. *)
Definition backslash : ascii := "092"%char.
Definition single_quote : ascii := "039"%char.
Definition double_quote : ascii := "034"%char.

Fixpoint holds (c : ascii) (s : string) : bool :=
  match s with
  | EmptyString => false
  | String d r => Ascii.eqb c d || holds c r
  end.

Definition repr_char (quote : ascii) (ch : list byte) : string :=
  match ch with
  | [b] =>
      let c := ascii_of_byte b in
      let n := Byte.to_N b in
      if Ascii.eqb c backslash then String backslash (String backslash EmptyString)
      else if Ascii.eqb c quote then String backslash (String quote EmptyString)
      else if (n =? 9)%N then String backslash "t"
      else if (n =? 10)%N then String backslash "n"
      else if (n =? 13)%N then String backslash "r"
      else if (n <? 32)%N || (n =? 127)%N
           then String backslash ("x" +:+ MD5.hex_byte (Z.of_N n))
      else if (128 <=? n)%N
           then String backslash ("udc" +:+ MD5.hex_byte (Z.of_N n))
      else String c EmptyString
  | _ => string_of_list_byte ch
  end.

Definition repr (s : string) : string :=
  let quote :=
    if holds single_quote s && negb (holds double_quote s) then double_quote
    else single_quote in
  String quote
    (String.concat "" (repr_char quote <$> Str.chars s) +:+ String quote EmptyString).

(** [repr(p)] of a [Path]. *)
Definition repr_Path (p : path) : string := "PosixPath(" +:+ repr (str_path p) +:+ ")".

(** [str(e)]. An [OSError] shows the [repr] of its file name;
    [shutil.SameFileError] carries the [repr] of the two arguments of
    [copyfile]. *)
Definition str_exn (e : exn) : string :=
  let q p := repr (str_path p) in
  match e with
  | FileNotFoundError p => "[Errno 2] No such file or directory: " +:+ q p
  | NotADirectoryError p => "[Errno 20] Not a directory: " +:+ q p
  | IsADirectoryError p => "[Errno 21] Is a directory: " +:+ q p
  | PermissionError p => "[Errno 13] Permission denied: " +:+ q p
  | FileExistsError p => "[Errno 17] File exists: " +:+ q p
  | SameFileError a b => a +:+ " and " +:+ b +:+ " are the same file"
  | ValueError msg => msg
  | IndexError msg => msg
  end.

(** Why [p] does not resolve: a missing component ([ENOENT]) or a regular
    file used as a directory ([ENOTDIR]). *)
Fixpoint resolve_error (n : node) (p full : path) : exn :=
  match p with
  | [] => FileNotFoundError full
  | c :: q =>
      match n with
      | Dir _ es =>
          match entry c es with
          | Some x => resolve_error x q full
          | None => FileNotFoundError full
          end
      | File _ _ => NotADirectoryError full
      end
  end.

(** ** The world and the monad of the script

    A run of a method is a function of the [world]: the filesystem, what
    was printed, the log of [open] calls, and the fields of [self]. It
    ends with a value or with a raised exception; effects made before a
    raise persist. *)

(** One entry of [self.files_to_sync] (a dict in the source). *)
Record file_info := FileInfo {
  src : path;
  dest : path;
  rel_path : string;
  status : string;
  selected : bool
}.

Inductive ui_state := St_scan | St_list | St_confirm | St_diff | St_syncing | St_done.

(** The fields of [SystemSyncUI] the engine and the key handling use (the
    display surface, fonts and clock are left out). *)
Record SystemSyncUI := UI {
  roms_path : path;
  system_path : path;
  root_path : path;
  files_to_sync : list file_info;
  selected_index : nat;
  scroll_offset : nat;
  max_visible_items : nat;
  state : ui_state;
  diff_lines : list string;
  diff_scroll : nat;
  running : bool
}.

Record world := World {
  fs : node;
  stdout : list string;
  open_log : list (path * string);
  self : SystemSyncUI
}.

Inductive result (A : Type) :=
| Ok (a : A)
| Raise (e : exn).
Arguments Ok {A} a.
Arguments Raise {A} e.

Definition M (A : Type) : Type := world -> result A * world.

#[global] Instance M_ret : MRet M := fun A a w => (Ok a, w).
#[global] Instance M_bind : MBind M := fun A B f m w =>
  match m w with
  | (Ok a, w') => f a w'
  | (Raise e, w') => (Raise e, w')
  end.

Definition raise {A} (e : exn) : M A := fun w => (Raise e, w).

(** [try: m  except <filter> as e: h e] *)
Definition try_except {A} (m : M A) (catches : exn -> bool) (h : exn -> M A) : M A :=
  fun w =>
    match m w with
    | (Ok a, w') => (Ok a, w')
    | (Raise e, w') => if catches e then h e w' else (Raise e, w')
    end.

(** [except Exception] catches every exception of the model. *)
Definition Exception (e : exn) : bool := true.

Definition get_fs : M node := fun w => (Ok (fs w), w).
Definition put_fs (n : node) : M unit :=
  fun w => (Ok tt, World n (stdout w) (open_log w) (self w)).
Definition get_self : M SystemSyncUI := fun w => (Ok (self w), w).
Definition put_self (u : SystemSyncUI) : M unit :=
  fun w => (Ok tt, World (fs w) (stdout w) (open_log w) u).
(** [print(line)]. Standard output is taken to write every line, as it
    does with the [surrogateescape] handler Python gives it under the C
    locale; with the strict handler a line that holds an undecodable file
    name is refused. *)
Definition print (line : string) : M unit :=
  fun w => (Ok tt, World (fs w) (stdout w ++ [line]) (open_log w) (self w)).
Definition log_open (p : path) (mode : string) : M unit :=
  fun w => (Ok tt, World (fs w) (stdout w) (open_log w ++ [(p, mode)]) (self w)).

(** [for x in l: body x] *)
Fixpoint for_each {A} (l : list A) (body : A -> M unit) : M unit :=
  match l with
  | [] => mret tt
  | x :: r => body x ;; for_each r body
  end.

(** ** System calls *)

(** [p.exists()], where [os.stat(p)] succeeds or fails with "not found"
    (a missing component, or a regular file used as a directory).
    [Path.exists] re-raises any other error of [os.stat]: a name longer
    than the system allows, a directory that may not be searched. The
    statements that depend on the answer for a path that does not exist
    assume [can_stat] of it. *)
Definition path_exists (p : path) : M bool :=
  n ← get_fs; mret (bool_decide (is_Some (resolve n p))).

(** [os.path.isdir(p)], [p.is_dir()] *)
Definition path_is_dir (p : path) : M bool :=
  n ← get_fs;
  mret (match resolve n p with Some x => is_dir_node x | None => false end).

(** [open(p, 'rb')] and [open(p, 'r', ...)]: the bytes of a readable regular
    file. The file object is the bytes not yet read. *)
Definition open_read (p : path) (mode : string) : M (list byte) :=
  log_open p mode;;
  n ← get_fs;
  match resolve n p with
  | Some (File m data) => if readable m then mret data else raise (PermissionError p)
  | Some (Dir _ _) => raise (IsADirectoryError p)
  | None => raise (resolve_error n p p)
  end.

(** [open(p, 'wb')] followed by writing [data]: truncates a writable
    regular file, or creates the file in a writable directory. Once the
    file is open the write is taken to complete: a device that fills up
    half-way is outside the tree. *)
Definition open_write (p : path) (data : list byte) : M unit :=
  log_open p "wb";;
  n ← get_fs;
  match resolve n p with
  | Some (File m _) =>
      if writable m then put_fs (place n p (File m data)) else raise (PermissionError p)
  | Some (Dir _ _) => raise (IsADirectoryError p)
  | None =>
      match p with
      | [] => raise (IsADirectoryError p)
      | _ :: _ =>
          match resolve n (parent p) with
          | Some (Dir m _) =>
              if writable m then put_fs (place n p (File fresh_meta data))
              else raise (PermissionError p)
          | Some (File _ _) => raise (NotADirectoryError p)
          | None => raise (resolve_error n (parent p) p)
          end
      end
  end.

(** [os.mkdir(p)] *)
Definition os_mkdir (p : path) : M unit :=
  n ← get_fs;
  match resolve n p with
  | Some _ => raise (FileExistsError p)
  | None =>
      match resolve n (parent p) with
      | Some (Dir m _) =>
          if writable m then put_fs (place n p (Dir fresh_meta []))
          else raise (PermissionError p)
      | Some (File _ _) => raise (NotADirectoryError p)
      | None => raise (resolve_error n (parent p) p)
      end
  end.

(** [Path.mkdir(parents=True, exist_ok=True)]. The recursion of pathlib is
    on the parent; [rp] is the path in reverse, so that the parent is its
    tail. *)
Definition is_FileNotFoundError (e : exn) : bool :=
  match e with FileNotFoundError _ => true | _ => false end.

(** [p.mkdir(parents=False, exist_ok=True)] *)
Definition mkdir_exist_ok (p : path) : M unit :=
  try_except (os_mkdir p) is_OSError (fun e =>
    if is_FileNotFoundError e then raise e
    else d ← path_is_dir p; if (d : bool) then mret tt else raise e).

Fixpoint mkdir_parents_rev (rp : list string) : M unit :=
  let p := reverse rp in
  try_except (os_mkdir p) is_OSError (fun e =>
    if is_FileNotFoundError e then
      match rp with
      | [] => raise e
      | _ :: rparent => mkdir_parents_rev rparent;; mkdir_exist_ok p
      end
    else
      d ← path_is_dir p; if (d : bool) then mret tt else raise e).

Definition mkdir_parents (p : path) : M unit := mkdir_parents_rev (reverse p).

(** [shutil.copystat(src, dst)]: the metadata of [dst] becomes that of
    [src]. The tree has no owners: the refusal of [os.utime] or [os.chmod]
    on a file of another user is outside it. *)
Definition with_meta (m : meta) (n : node) : node :=
  match n with File _ d => File m d | Dir _ es => Dir m es end.

Definition copystat (s d : path) : M unit :=
  n ← get_fs;
  match resolve n s, resolve n d with
  | Some x, Some y => put_fs (place n d (with_meta (node_meta x) y))
  | None, _ => raise (resolve_error n s s)
  | _, None => raise (resolve_error n d d)
  end.

(** [shutil.copyfile(src, dst)], [src] a [Path] and [dst] a [Path], or the
    [str] that [copy2] joined. *)
Definition copyfile (s d : path) (dst_is_str : bool) : M unit :=
  n ← get_fs;
  if bool_decide (s = d) && bool_decide (is_Some (resolve n s))
  then raise (SameFileError (repr_Path s)
                (if dst_is_str then repr (str_path d) else repr_Path d))
  else data ← open_read s "rb"; open_write d data.

(** [shutil.copy2(src, dst)]: into [dst] when it is a directory. *)
Definition copy2 (s d : path) : M unit :=
  isd ← path_is_dir d;
  let d' := if (isd : bool) then joinpath d [name s] else d in
  copyfile s d' isd;;
  copystat s d'.

(** [os.walk(top)], top-down, errors of listing ignored: one triple
    [(root, dirs, files)] per readable directory. The loop body of the
    script never changes the tree it walks, so the generator is listed
    at once. *)
Definition dirnames (es : list (string * node)) : list string :=
  (fun e => e.1) <$> filter (fun e => is_dir_node e.2 = true) es.
Definition filenames (es : list (string * node)) : list string :=
  (fun e => e.1) <$> filter (fun e => is_dir_node e.2 = false) es.

Fixpoint walk (root : path) (n : node) : list (path * list string * list string) :=
  match n with
  | File _ _ => []
  | Dir m es =>
      if readable m then
        (root, dirnames es, filenames es) ::
        (fix subdirs (l : list (string * node)) :=
           match l with
           | [] => []
           | (c, x) :: r =>
               (if is_dir_node x then walk (joinpath root [c]) x else []) ++ subdirs r
           end) es
      else []
  end.

Definition os_walk (top : path) : M (list (path * list string * list string)) :=
  n ← get_fs;
  mret (match resolve n top with Some x => walk top x | None => [] end).

(** ** Text-mode reading: [open(p, 'r', encoding='utf-8', errors='ignore')]

    A decoded text is carried as its UTF-8 bytes in a [string]: decoding
    with [errors='ignore'] drops every byte that is not part of a
    well-formed sequence (Unicode table 3-7), universal newlines turn
    CR LF and CR into LF, and [readlines] cuts after each LF. *)

Fixpoint utf8_ignore (bs : list byte) : list byte :=
  match bs with
  | [] => []
  | b0 :: t0 =>
      if byte_in 0x00 0x7F b0 then b0 :: utf8_ignore t0
      else if byte_in 0xC2 0xDF b0 then
        match t0 with
        | b1 :: t1 =>
            if is_cont b1 then b0 :: b1 :: utf8_ignore t1 else utf8_ignore t0
        | [] => []
        end
      else if byte_in 0xE0 0xEF b0 then
        match t0 with
        | b1 :: t1 =>
            if second_of3 b0 b1 then
              match t1 with
              | b2 :: t2 =>
                  if is_cont b2 then b0 :: b1 :: b2 :: utf8_ignore t2
                  else utf8_ignore t1
              | [] => []
              end
            else utf8_ignore t0
        | [] => []
        end
      else if byte_in 0xF0 0xF4 b0 then
        match t0 with
        | b1 :: t1 =>
            if second_of4 b0 b1 then
              match t1 with
              | b2 :: t2 =>
                  if is_cont b2 then
                    match t2 with
                    | b3 :: t3 =>
                        if is_cont b3 then b0 :: b1 :: b2 :: b3 :: utf8_ignore t3
                        else utf8_ignore t2
                    | [] => []
                    end
                  else utf8_ignore t1
              | [] => []
              end
            else utf8_ignore t0
        | [] => []
        end
      else utf8_ignore t0
  end.

(** A byte string is decodable text when strict decoding would accept it. *)
Definition decodable (bs : list byte) : Prop := utf8_ignore bs = bs.

Definition is_char (c : ascii) (s : string) : bool :=
  match s with String d EmptyString => Ascii.eqb c d | _ => false end.

Fixpoint universal_newlines (s : string) : string :=
  match s with
  | EmptyString => EmptyString
  | String c r =>
      if is_char c CR then
        match r with
        | String d r' =>
            if is_char d LF then LF +:+ universal_newlines r'
            else LF +:+ universal_newlines r
        | EmptyString => LF
        end
      else String c (universal_newlines r)
  end.

(** [str.splitlines(keepends=True)] restricted to LF, which is what
    [readlines] does in text mode. *)
Fixpoint lines_keepends (s : string) : list string :=
  match s with
  | EmptyString => []
  | String c r =>
      if is_char c LF then LF :: lines_keepends r
      else
        match lines_keepends r with
        | [] => [String c EmptyString]
        | l :: ls => String c l :: ls
        end
  end.

Definition decode_lines (data : list byte) : list string :=
  lines_keepends (universal_newlines (string_of_list_byte (utf8_ignore data))).

(** [with open(p, 'r', encoding='utf-8', errors='ignore') as f: f.readlines()] *)
Definition readlines (p : path) : M (list string) :=
  data ← open_read p "r"; mret (decode_lines data).

(** ** difflib: [SequenceMatcher(None, a, b)] and [unified_diff]

    No junk predicate is given, so the junk set is empty and the two
    junk-extending loops of [find_longest_match] never run; the automatic
    purge of popular elements (sequences of 200 elements or more) is kept. *)

Module difflib.

Inductive tag := Replace | Delete | Insert | Equal.

Definition opcode : Type := tag * nat * nat * nat * nat.
Definition block : Type := nat * nat * nat.

Definition is_equal (t : tag) : bool :=
  match t with Equal => true | _ => false end.

(** [__chain_b]: for each element of [b] the ascending list of its indices,
    popular elements purged. *)
Definition chain_b (b : list string) : gmap string (list nat) :=
  let b2j :=
    foldl (fun (m : gmap string (list nat)) (ie : nat * string) =>
             <[ie.2 := default [] (m !! ie.2) ++ [ie.1]]> m) ∅ (imap pair b) in
  let n := length b in
  if bool_decide (200 ≤ n) then
    let ntest := n / 100 + 1 in
    filter (fun kv : string * list nat => length kv.2 ≤ ntest) b2j
  else b2j.

(** [a[x] == b[y]] for indices in range. *)
Definition same_at (a b : list string) (x y : nat) : bool :=
  match a !! x, b !! y with
  | Some u, Some v => String.eqb u v
  | _, _ => false
  end.

(** The loop over [b2j.get(a[i], nothing)] inside [find_longest_match]. *)
Fixpoint scan_js (js : list nat) (blo bhi i : nat) (j2len newj2len : gmap nat nat)
    (best : block) : gmap nat nat * block :=
  match js with
  | [] => (newj2len, best)
  | j :: r =>
      if j <? blo then scan_js r blo bhi i j2len newj2len best
      else if bhi <=? j then (newj2len, best)
      else
        let k := match j with O => 0 | S j' => default 0 (j2len !! j') end + 1 in
        let best' := if best.2 <? k then (i + 1 - k, j + 1 - k, k) else best in
        scan_js r blo bhi i j2len (<[j := k]> newj2len) best'
  end.

(** [while besti > alo and bestj > blo and a[besti-1] == b[bestj-1]] *)
Fixpoint extend_back (a b : list string) (alo blo besti bestj bestsize : nat) : block :=
  match besti, bestj with
  | S i', S j' =>
      if (alo <? besti) && (blo <? bestj) && same_at a b i' j'
      then extend_back a b alo blo i' j' (S bestsize)
      else (besti, bestj, bestsize)
  | _, _ => (besti, bestj, bestsize)
  end.

(** [while besti+bestsize < ahi and bestj+bestsize < bhi and
     a[besti+bestsize] == b[bestj+bestsize]]; [room] is
    [ahi - (besti+bestsize)]. *)
Fixpoint extend_forward (a b : list string) (bhi besti bestj bestsize room : nat) : nat :=
  match room with
  | O => bestsize
  | S room' =>
      if (bestj + bestsize <? bhi) && same_at a b (besti + bestsize) (bestj + bestsize)
      then extend_forward a b bhi besti bestj (S bestsize) room'
      else bestsize
  end.

Definition find_longest_match (a b : list string) (b2j : gmap string (list nat))
    (alo ahi blo bhi : nat) : block :=
  let '(_, best) :=
    foldl (fun (st : gmap nat nat * block) (i : nat) =>
             let js := default [] (a !! i ≫= fun e => b2j !! e) in
             scan_js js blo bhi i st.1 ∅ st.2)
          (∅, (alo, blo, 0)) (seq alo (ahi - alo)) in
  let '(besti, bestj, bestsize) := best in
  let '(besti, bestj, bestsize) := extend_back a b alo blo besti bestj bestsize in
  (besti, bestj,
   extend_forward a b bhi besti bestj bestsize (ahi - (besti + bestsize))).

(** The work-list loop of [get_matching_blocks]; the list is a stack, its
    head is what [queue.pop()] returns. Each turn removes a region and
    adds at most two strictly smaller ones, so [2 * len(a) + 1] turns
    empty it. *)
Fixpoint match_loop (turns : nat) (a b : list string) (b2j : gmap string (list nat))
    (queue : list (nat * nat * nat * nat)) (found : list block) : list block :=
  match turns, queue with
  | S turns', (alo, ahi, blo, bhi) :: queue' =>
      let '(i, j, k) := find_longest_match a b b2j alo ahi blo bhi in
      if k is O then match_loop turns' a b b2j queue' found
      else
        let q1 := if (alo <? i) && (blo <? j) then [(alo, i, blo, j)] else [] in
        let q2 := if (i + k <? ahi) && (j + k <? bhi) then [(i + k, ahi, j + k, bhi)] else [] in
        match_loop turns' a b b2j (q2 ++ q1 ++ queue') (found ++ [(i, j, k)])
  | _, _ => found
  end.

(** Tuple order, and [list.sort()] by insertion. *)
Definition block_leb (x y : block) : bool :=
  let '(i1, j1, k1) := x in
  let '(i2, j2, k2) := y in
  (i1 <? i2) || ((i1 =? i2) && ((j1 <? j2) || ((j1 =? j2) && (k1 <=? k2)))).

Fixpoint insert_block (x : block) (l : list block) : list block :=
  match l with
  | [] => [x]
  | y :: r => if block_leb x y then x :: l else y :: insert_block x r
  end.

Definition sort_blocks (l : list block) : list block := foldr insert_block [] l.

(** Merging of adjacent blocks, with the running block [(i1, j1, k1)]. *)
Fixpoint collapse (l : list block) (i1 j1 k1 : nat) : list block :=
  match l with
  | [] => if k1 is O then [] else [(i1, j1, k1)]
  | (i2, j2, k2) :: r =>
      if (i1 + k1 =? i2) && (j1 + k1 =? j2) then collapse r i1 j1 (k1 + k2)
      else (if k1 is O then [] else [(i1, j1, k1)]) ++ collapse r i2 j2 k2
  end.

Definition get_matching_blocks (a b : list string) : list block :=
  let la := length a in
  let lb := length b in
  let found := match_loop (2 * la + 1) a b (chain_b b) [(0, la, 0, lb)] [] in
  collapse (sort_blocks found) 0 0 0 ++ [(la, lb, 0)].

Fixpoint opcodes_from (blocks : list block) (i j : nat) : list opcode :=
  match blocks with
  | [] => []
  | (ai, bj, size) :: r =>
      let changed :=
        if (i <? ai) && (j <? bj) then [(Replace, i, ai, j, bj)]
        else if i <? ai then [(Delete, i, ai, j, bj)]
        else if j <? bj then [(Insert, i, ai, j, bj)]
        else [] in
      let same := if size is O then [] else [(Equal, ai, ai + size, bj, bj + size)] in
      changed ++ same ++ opcodes_from r (ai + size) (bj + size)
  end.

Definition get_opcodes (a b : list string) : list opcode :=
  opcodes_from (get_matching_blocks a b) 0 0.

(** [get_grouped_opcodes(n)] *)
Definition trim_first (n : nat) (codes : list opcode) : list opcode :=
  match codes with
  | (Equal, i1, i2, j1, j2) :: r => (Equal, i1 `max` (i2 - n), i2, j1 `max` (j2 - n), j2) :: r
  | _ => codes
  end.

Fixpoint trim_last (n : nat) (codes : list opcode) : list opcode :=
  match codes with
  | [] => []
  | [(Equal, i1, i2, j1, j2)] => [(Equal, i1, i2 `min` (i1 + n), j1, j2 `min` (j1 + n))]
  | c :: r => c :: trim_last n r
  end.

Fixpoint group_loop (n : nat) (codes : list opcode) (group : list opcode)
  : list (list opcode) :=
  match codes with
  | [] =>
      match group with
      | [] => []
      | [(Equal, _, _, _, _)] => []
      | _ => [group]
      end
  | (t, i1, i2, j1, j2) :: r =>
      if is_equal t && (n + n <? i2 - i1) then
        (group ++ [(t, i1, i2 `min` (i1 + n), j1, j2 `min` (j1 + n))])
          :: group_loop n r [(t, i1 `max` (i2 - n), i2, j1 `max` (j2 - n), j2)]
      else group_loop n r (group ++ [(t, i1, i2, j1, j2)])
  end.

Definition get_grouped_opcodes (a b : list string) (n : nat) : list (list opcode) :=
  let codes := match get_opcodes a b with [] => [(Equal, 0, 1, 0, 1)] | c => c end in
  group_loop n (trim_last n (trim_first n codes)) [].

(** [str(n)] *)
Definition str_nat (n : nat) : string := NilZero.string_of_uint (Nat.to_uint n).

Definition format_range_unified (start stop : nat) : string :=
  let length := stop - start in
  if length =? 1 then str_nat (start + 1)
  else str_nat (if length =? 0 then start else start + 1) +:+ "," +:+ str_nat length.

(** [a[i:j]] *)
Definition slice (a : list string) (i j : nat) : list string := take (j - i) (drop i a).

Definition opcode_lines (a b : list string) (c : opcode) : list string :=
  let '(t, i1, i2, j1, j2) := c in
  match t with
  | Equal => (fun l => " " +:+ l) <$> slice a i1 i2
  | Replace => ((fun l => "-" +:+ l) <$> slice a i1 i2) ++ ((fun l => "+" +:+ l) <$> slice b j1 j2)
  | Delete => (fun l => "-" +:+ l) <$> slice a i1 i2
  | Insert => (fun l => "+" +:+ l) <$> slice b j1 j2
  end.

Definition hunk (a b : list string) (lineterm : string) (group : list opcode) : list string :=
  match group, last group with
  | (_, f1, _, f3, _) :: _, Some (_, _, l2, _, l4) =>
      ("@@ -" +:+ format_range_unified f1 l2 +:+ " +" +:+ format_range_unified f3 l4
         +:+ " @@" +:+ lineterm)
        :: mjoin (opcode_lines a b <$> group)
  | _, _ => []
  end.

(** [unified_diff(a, b, fromfile, tofile, lineterm=lineterm)] with the
    default three lines of context and no file dates. *)
Definition unified_diff (a b : list string) (fromfile tofile lineterm : string)
  : list string :=
  match get_grouped_opcodes a b 3 with
  | [] => []
  | groups =>
      ("--- " +:+ fromfile +:+ lineterm) :: ("+++ " +:+ tofile +:+ lineterm)
        :: mjoin (hunk a b lineterm <$> groups)
  end.

End difflib.

(** ** The methods of [SystemSyncUI] *)

Inductive key := K_ESCAPE | K_UP | K_DOWN | K_SPACE | K_d | K_RETURN | K_other.
Inductive event := QUIT | KEYDOWN (k : key) | OtherEvent.

(** Field assignments [self.x = v]. *)
Definition set_files_to_sync (l : list file_info) (u : SystemSyncUI) : SystemSyncUI :=
  UI (roms_path u) (system_path u) (root_path u) l (selected_index u) (scroll_offset u)
     (max_visible_items u) (state u) (diff_lines u) (diff_scroll u) (running u).
Definition set_selected_index (i : nat) (u : SystemSyncUI) : SystemSyncUI :=
  UI (roms_path u) (system_path u) (root_path u) (files_to_sync u) i (scroll_offset u)
     (max_visible_items u) (state u) (diff_lines u) (diff_scroll u) (running u).
Definition set_scroll_offset (i : nat) (u : SystemSyncUI) : SystemSyncUI :=
  UI (roms_path u) (system_path u) (root_path u) (files_to_sync u) (selected_index u) i
     (max_visible_items u) (state u) (diff_lines u) (diff_scroll u) (running u).
Definition set_state (st : ui_state) (u : SystemSyncUI) : SystemSyncUI :=
  UI (roms_path u) (system_path u) (root_path u) (files_to_sync u) (selected_index u)
     (scroll_offset u) (max_visible_items u) st (diff_lines u) (diff_scroll u) (running u).
Definition set_diff_lines (l : list string) (u : SystemSyncUI) : SystemSyncUI :=
  UI (roms_path u) (system_path u) (root_path u) (files_to_sync u) (selected_index u)
     (scroll_offset u) (max_visible_items u) (state u) l (diff_scroll u) (running u).
Definition set_diff_scroll (i : nat) (u : SystemSyncUI) : SystemSyncUI :=
  UI (roms_path u) (system_path u) (root_path u) (files_to_sync u) (selected_index u)
     (scroll_offset u) (max_visible_items u) (state u) (diff_lines u) i (running u).
Definition set_running (b : bool) (u : SystemSyncUI) : SystemSyncUI :=
  UI (roms_path u) (system_path u) (root_path u) (files_to_sync u) (selected_index u)
     (scroll_offset u) (max_visible_items u) (state u) (diff_lines u) (diff_scroll u) b.

Definition modify_self (f : SystemSyncUI -> SystemSyncUI) : M unit :=
  u ← get_self; put_self (f u).

(** [file_info['selected'] = b] *)
Definition set_selected (b : bool) (fi : file_info) : file_info :=
  FileInfo (src fi) (dest fi) (rel_path fi) (status fi) b.

(** [__init__], without the display. *)
Definition init (roms root : path) : SystemSyncUI :=
  UI roms (joinpath roms ["System"]) root [] 0 0 12 St_scan [] 0 true.

(** [for chunk in iter(lambda: f.read(4096), b""): hash_md5.update(chunk)];
    a file of [n] bytes is read in at most [n + 1] turns. *)
Definition chunk_size : nat := 4096.

Fixpoint read_loop (turns : nat) (f : list byte) (hash_md5 : MD5.t) : MD5.t :=
  match turns with
  | O => hash_md5
  | S turns' =>
      match take chunk_size f with
      | [] => hash_md5
      | chunk => read_loop turns' (drop chunk_size f) (MD5.update hash_md5 chunk)
      end
  end.

Definition file_hash (filepath : path) : M (option string) :=
  let hash_md5 := MD5.md5 in
  try_except
    (f ← open_read filepath "rb";
     let hash_md5 := read_loop (S (length f)) f hash_md5 in
     mret (Some (MD5.hexdigest hash_md5)))
    Exception
    (fun _ => mret None).

(** The body of the [try] of [compare_files]. *)
Definition compare_hashes (src dest : path) : M string :=
  src_hash ← file_hash src;
  dest_hash ← file_hash dest;
  if bool_decide (src_hash = dest_hash) then mret "identical" else mret "modified".

Definition compare_files (src dest : path) : M string :=
  ex ← path_exists dest;
  if negb ex then mret "new"
  else try_except (compare_hashes src dest) Exception
         (fun e => mret ("error: " +:+ str_exn e)).

(** [src_file.relative_to(self.system_path)] *)
Definition relative_to (p base : path) : M path :=
  match strip_prefix base p with
  | Some r => mret r
  | None =>
      raise (ValueError ("'" +:+ str_path p +:+ "' is not in the subpath of '"
                           +:+ str_path base +:+ "'"))
  end.

(** [str(rel_path)] of a relative path. *)
Definition str_rel (p : path) : string :=
  match p with [] => "." | _ => String.concat "/" p end.

Definition scan_file (root : path) (filename : string) : M unit :=
  u ← get_self;
  let src_file := joinpath root [filename] in
  rel_path ← relative_to src_file (system_path u);
  let dest_file := joinpath (root_path u) rel_path in
  status ← compare_files src_file dest_file;
  if negb (String.eqb status "identical") then
    modify_self (fun u =>
      set_files_to_sync
        (files_to_sync u ++ [FileInfo src_file dest_file (str_rel rel_path) status true]) u)
  else mret tt.

Definition check_system_folder : M bool :=
  u ← get_self;
  ex ← path_exists (system_path u);
  if negb ex then mret false
  else
    modify_self (set_files_to_sync []);;
    triples ← os_walk (system_path u);
    for_each triples (fun t : path * list string * list string =>
      let '(root, dirs, files) := t in
      for_each files (scan_file root));;
    mret true.

Definition get_file_diff (src dest : path) : M (list string) :=
  try_except
    (ex ← path_exists dest;
     if negb ex then mret ["New file: " +:+ name src]
     else
       src_lines ← readlines src;
       dest_lines ← readlines dest;
       mret (difflib.unified_diff dest_lines src_lines (str_path dest) (str_path src) ""))
    Exception
    (fun e => mret ["Cannot generate diff: " +:+ str_exn e]).

Definition sync_file (fi : file_info) : M bool :=
  try_except
    (mkdir_parents (parent (dest fi));;
     copy2 (src fi) (dest fi);;
     mret true)
    Exception
    (fun e =>
       print ("Error syncing " +:+ rel_path fi +:+ ": " +:+ str_exn e);;
       mret false).

(** The loop of [sync_selected_files] with its two counters. *)
Fixpoint sync_loop (l : list file_info) (success_count fail_count : nat) : M (nat * nat) :=
  match l with
  | [] => mret (success_count, fail_count)
  | fi :: r =>
      if selected fi then
        ok ← sync_file fi;
        if (ok : bool) then sync_loop r (success_count + 1) fail_count
        else sync_loop r success_count (fail_count + 1)
      else sync_loop r success_count fail_count
  end.

Definition sync_selected_files : M (nat * nat) :=
  u ← get_self; sync_loop (files_to_sync u) 0 0.

(** [self.files_to_sync[i]]; Python raises [IndexError] out of range. *)
Definition file_at (i : nat) : M file_info :=
  u ← get_self;
  match files_to_sync u !! i with
  | Some fi => mret fi
  | None => raise (IndexError "list index out of range")
  end.

(** The body of the loop of [handle_input] for one event. *)
Definition handle_event (ev : event) : M unit :=
  match ev with
  | QUIT => modify_self (set_running false)
  | OtherEvent => mret tt
  | KEYDOWN k =>
      u ← get_self;
      match state u, k with
      | St_scan, K_ESCAPE => modify_self (set_running false)
      | St_list, K_ESCAPE => modify_self (set_running false)
      | St_list, K_UP =>
          if 0 <? selected_index u then
            let i := selected_index u - 1 in
            modify_self (set_selected_index i);;
            if i <? scroll_offset u then modify_self (set_scroll_offset i) else mret tt
          else mret tt
      | St_list, K_DOWN =>
          if selected_index u + 1 <? length (files_to_sync u) then
            let i := selected_index u + 1 in
            modify_self (set_selected_index i);;
            if scroll_offset u + max_visible_items u <=? i
            then modify_self (set_scroll_offset (i + 1 - max_visible_items u))
            else mret tt
          else mret tt
      | St_list, K_SPACE =>
          fi ← file_at (selected_index u);
          modify_self (fun u' =>
            set_files_to_sync
              (<[selected_index u := set_selected (negb (selected fi)) fi]> (files_to_sync u')) u')
      | St_list, K_d =>
          fi ← file_at (selected_index u);
          lines ← get_file_diff (src fi) (dest fi);
          modify_self (set_diff_lines lines);;
          modify_self (set_diff_scroll 0);;
          modify_self (set_state St_diff)
      | St_list, K_RETURN =>
          if existsb selected (files_to_sync u) then modify_self (set_state St_confirm)
          else mret tt
      | St_diff, K_ESCAPE => modify_self (set_state St_list)
      | St_diff, K_UP =>
          if 0 <? diff_scroll u then modify_self (set_diff_scroll (diff_scroll u - 1))
          else mret tt
      | St_diff, K_DOWN =>
          let max_scroll := length (diff_lines u) - 16 in
          if diff_scroll u <? max_scroll then modify_self (set_diff_scroll (diff_scroll u + 1))
          else mret tt
      | St_confirm, K_ESCAPE => modify_self (set_state St_list)
      | St_confirm, K_RETURN => modify_self (set_state St_syncing)
      | St_done, _ => modify_self (set_running false)
      | _, _ => mret tt
      end
  end.

Definition handle_input (events : list event) : M unit := for_each events handle_event.

(** ** The display

    What the script asks pygame to draw. Rendering itself (fonts, pixels)
    is pygame's; the model records the calls made on [self.screen] since
    the last [fill], which repaints the whole surface, and the surface
    shown at each [pygame.display.flip()]. The clock is left out. *)

Module Color.
Inductive t := BLACK | WHITE | GRAY | LIGHT_GRAY | DARK_GRAY | GREEN | RED | BLUE | YELLOW.
End Color.

Inductive font := font_large | font_medium | font_small.

Inductive draw_cmd :=
| Fill (color : Color.t)
| Blit (text : string) (f : font) (color : Color.t) (x y : Z) (center : bool)
| Rect (color : Color.t) (x y w h : Z) (width : Z)
| Line (color : Color.t) (x1 y1 x2 y2 : Z) (width : Z).

Record display := Display {
  surface : list draw_cmd;
  flipped : list (list draw_cmd)
}.

(** [self.screen.fill(color)] *)
Definition screen_fill (color : Color.t) (d : display) : display :=
  Display [Fill color] (flipped d).

Definition paint (c : draw_cmd) (d : display) : display :=
  Display (surface d ++ [c]) (flipped d).

(** [pygame.draw.rect(self.screen, color, (x, y, w, h), width)] *)
Definition draw_rect (color : Color.t) (x y w h width : Z) : display -> display :=
  paint (Rect color x y w h width).

(** [pygame.draw.line(self.screen, color, (x1, y1), (x2, y2), width)] *)
Definition draw_line (color : Color.t) (x1 y1 x2 y2 width : Z) : display -> display :=
  paint (Line color x1 y1 x2 y2 width).

(** [pygame.display.flip()] *)
Definition display_flip (d : display) : display :=
  Display (surface d) (flipped d ++ [surface d]).

(** [draw_text]: the text is rendered and blitted. [font.render] is taken
    to succeed; pygame refuses a text that holds a NUL character. *)
Definition draw_text (text : string) (x y : Z) (f : font) (color : Color.t) (center : bool)
  : display -> display :=
  paint (Blit text f color x y center).

(** [for i in range(lo, hi): body], the display being handed on. *)
Fixpoint for_range (l : list nat) (body : nat -> display -> M display) (d : display)
  : M display :=
  match l with
  | [] => mret d
  | i :: r => d' ← body i d; for_range r body d'
  end.

Definition range (lo hi : nat) : list nat := seq lo (hi - lo).

Definition draw_scan_screen (d : display) : M display :=
  u ← get_self;
  let d := screen_fill Color.BLACK d in
  let d := draw_text "System File Sync" 320 100 font_large Color.WHITE true d in
  let d := draw_text "Scanning for files..." 320 240 font_medium Color.LIGHT_GRAY true d in
  ex ← path_exists (system_path u);
  if negb ex then
    let d := draw_text "System folder not found!" 320 280 font_medium Color.RED true d in
    let d := draw_text ("Expected: " +:+ str_path (system_path u)) 320 310
               font_small Color.GRAY true d in
    let d := draw_text "Press ESC to exit" 320 400 font_small Color.GRAY true d in
    mret d
  else mret d.

(** One turn of the loop over the visible rows of [draw_list_screen]. *)
Definition draw_list_row (visible_start : nat) (i : nat) (d : display) : M display :=
  u ← get_self;
  file_info ← file_at i;
  let y_offset := 100%Z in
  let line_height := 28%Z in
  let y := (y_offset + (Z.of_nat i - Z.of_nat visible_start) * line_height)%Z in
  let d :=
    if i =? selected_index u
    then draw_rect Color.DARK_GRAY 10 (y - 2) 620 line_height 0 d else d in
  let checkbox_x := 20%Z in
  let checkbox_size := 16%Z in
  let checkbox_color := if selected file_info then Color.GREEN else Color.GRAY in
  let d := draw_rect checkbox_color checkbox_x (y + 4) checkbox_size checkbox_size 2 d in
  let d :=
    if selected file_info then
      let d := draw_line checkbox_color (checkbox_x + 3) (y + 10) (checkbox_x + 7) (y + 14) 2 d in
      draw_line checkbox_color (checkbox_x + 7) (y + 14) (checkbox_x + 13) (y + 6) 2 d
    else d in
  let status_color :=
    if String.eqb (status file_info) "new" then Color.YELLOW else Color.BLUE in
  let status_text := if String.eqb (status file_info) "new" then "NEW" else "MOD" in
  let d := draw_text status_text 50 (y + 2) font_small status_color false d in
  let filename := rel_path file_info in
  let filename :=
    if 60 <? Str.len filename then Str.upto 57 filename +:+ "..." else filename in
  mret (draw_text filename 100 (y + 2) font_small Color.WHITE false d).

Definition draw_list_screen (d : display) : M display :=
  u ← get_self;
  let d := screen_fill Color.BLACK d in
  let d := draw_text "Files to Sync" 20 20 font_large Color.WHITE false d in
  let d :=
    draw_text (difflib.str_nat (length (filter (fun f => selected f = true) (files_to_sync u)))
                 +:+ " of " +:+ difflib.str_nat (length (files_to_sync u)) +:+ " selected")
      620 30 font_small Color.LIGHT_GRAY true d in
  let y_offset := 60%Z in
  let d :=
    draw_text "UP/DOWN: Navigate  SPACE: Toggle  D: View Diff  ENTER: Sync  ESC: Exit"
      20 y_offset font_small Color.GRAY false d in
  let visible_start := scroll_offset u in
  let visible_end :=
    Nat.min (visible_start + max_visible_items u) (length (files_to_sync u)) in
  d ← for_range (range visible_start visible_end) (draw_list_row visible_start) d;
  if max_visible_items u <? length (files_to_sync u) then
    let scrollbar_height := 300%Z in
    let scrollbar_y := 100%Z in
    let thumb_height :=
      Z.max 20 (scrollbar_height * Z.of_nat (max_visible_items u)
                  / Z.of_nat (length (files_to_sync u))) in
    let thumb_y :=
      (scrollbar_y + (scrollbar_height - thumb_height) * Z.of_nat (scroll_offset u)
                     / (Z.of_nat (length (files_to_sync u)) - Z.of_nat (max_visible_items u)))%Z in
    let d := draw_rect Color.DARK_GRAY 625 scrollbar_y 5 scrollbar_height 0 d in
    mret (draw_rect Color.LIGHT_GRAY 625 thumb_y 5 thumb_height 0 d)
  else mret d.

(** [self.diff_lines[i]] *)
Definition diff_line_at (i : nat) : M string :=
  u ← get_self;
  match diff_lines u !! i with
  | Some l => mret l
  | None => raise (IndexError "list index out of range")
  end.

(** One turn of the loop over the visible lines of [draw_diff_screen]. *)
Definition draw_diff_row (visible_start : nat) (i : nat) (d : display) : M display :=
  line ← diff_line_at i;
  let y_offset := 120%Z in
  let line_height := 20%Z in
  let y := (y_offset + (Z.of_nat i - Z.of_nat visible_start) * line_height)%Z in
  let color :=
    if Str.startswith line "+" then Color.GREEN
    else if Str.startswith line "-" then Color.RED
    else if Str.startswith line "@@" then Color.YELLOW
    else Color.WHITE in
  let display_line := if 80 <? Str.len line then Str.upto 80 line else line in
  mret (draw_text display_line 20 y font_small color false d).

Definition draw_diff_screen (d : display) : M display :=
  u ← get_self;
  let d := screen_fill Color.BLACK d in
  file_info ← file_at (selected_index u);
  let d := draw_text "File Diff" 20 20 font_large Color.WHITE false d in
  let d := draw_text (rel_path file_info) 20 55 font_small Color.LIGHT_GRAY false d in
  let d := draw_text "UP/DOWN: Scroll  ESC: Back" 20 85 font_small Color.GRAY false d in
  let max_lines := 16 in
  let visible_start := diff_scroll u in
  let visible_end := Nat.min (visible_start + max_lines) (length (diff_lines u)) in
  for_range (range visible_start visible_end) (draw_diff_row visible_start) d.

Definition draw_confirm_screen (d : display) : M display :=
  u ← get_self;
  let d := screen_fill Color.BLACK d in
  let selected_count := length (filter (fun f => selected f = true) (files_to_sync u)) in
  let d := draw_text "Confirm Sync" 320 150 font_large Color.WHITE true d in
  let d :=
    draw_text ("Sync " +:+ difflib.str_nat selected_count +:+ " file(s) to root partition?")
      320 220 font_medium Color.LIGHT_GRAY true d in
  let d := draw_text "This will overwrite existing files!" 320 260
             font_small Color.YELLOW true d in
  mret (draw_text "ENTER: Confirm    ESC: Cancel" 320 350 font_medium Color.GRAY true d).

Definition draw_syncing_screen (success fail : nat) (d : display) : M display :=
  let d := screen_fill Color.BLACK d in
  let d := draw_text "Syncing Files..." 320 200 font_large Color.WHITE true d in
  mret (draw_text ("Success: " +:+ difflib.str_nat success +:+ "  Failed: "
                     +:+ difflib.str_nat fail)
          320 260 font_medium Color.LIGHT_GRAY true d).

Definition draw_done_screen (success fail : nat) (d : display) : M display :=
  let d := screen_fill Color.BLACK d in
  let d := draw_text "Sync Complete" 320 150 font_large Color.GREEN true d in
  let d := draw_text ("Successfully synced: " +:+ difflib.str_nat success)
             320 220 font_medium Color.WHITE true d in
  let d :=
    if 0 <? fail
    then draw_text ("Failed: " +:+ difflib.str_nat fail) 320 260 font_medium Color.RED true d
    else d in
  mret (draw_text "Press any key to exit" 320 350 font_small Color.GRAY true d).

(** ** The application loop

    [pygame.event.get()] is given by [frames]: the events waiting at each
    turn of the loop. A run is followed for as long as there are frames;
    it ends earlier when [self.running] becomes false. *)

Module App.

(** The loop of [run] when there is no System folder. *)
Fixpoint scan_loop (frames : list (list event)) (d : display) : M display :=
  match frames with
  | [] => mret d
  | events :: rest =>
      u ← get_self;
      if running u then
        handle_input events;;
        d ← draw_scan_screen d;
        scan_loop rest (display_flip d)
      else mret d
  end.

(** The main loop of [run], with its two local counters. *)
Fixpoint main_loop (frames : list (list event)) (success fail : nat) (d : display)
  : M display :=
  match frames with
  | [] => mret d
  | events :: rest =>
      u ← get_self;
      if running u then
        handle_input events;;
        u ← get_self;
        match state u with
        | St_scan =>
            d ← draw_scan_screen d; main_loop rest success fail (display_flip d)
        | St_list =>
            d ← draw_list_screen d; main_loop rest success fail (display_flip d)
        | St_diff =>
            d ← draw_diff_screen d; main_loop rest success fail (display_flip d)
        | St_confirm =>
            d ← draw_confirm_screen d; main_loop rest success fail (display_flip d)
        | St_syncing =>
            d ← draw_syncing_screen success fail d;
            let d := display_flip d in
            counts ← sync_selected_files;
            modify_self (set_state St_done);;
            main_loop rest counts.1 counts.2 (display_flip d)
        | St_done =>
            d ← draw_done_screen success fail d; main_loop rest success fail (display_flip d)
        end
      else mret d
  end.

Definition run (frames : list (list event)) (d : display) : M display :=
  found ← check_system_folder;
  if negb found then scan_loop frames d
  else
    u ← get_self;
    (match files_to_sync u with
     | [] => modify_self (set_state St_done)
     | _ :: _ => modify_self (set_state St_list)
     end);;
    main_loop frames 0 0 d.

(** The window [__init__] opens: nothing drawn, nothing shown. *)
Definition blank : display := Display [] [].

End App.

(** ** Derived notions used in the statements *)

(** What opening [p] for reading gives on a filesystem: the bytes of a
    readable regular file, or the exception raised. *)
Definition read_of (n : node) (p : path) : result (list byte) :=
  match resolve n p with
  | Some (File m data) => if readable m then Ok data else Raise (PermissionError p)
  | Some (Dir _ _) => Raise (IsADirectoryError p)
  | None => Raise (resolve_error n p p)
  end.

(** What [file_hash] computes on a filesystem. *)
Definition hash_of (n : node) (p : path) : option string :=
  match read_of n p with
  | Ok data => Some (MD5.hexdigest_of data)
  | Raise _ => None
  end.

(** The world [w] after the [open] calls [l]. *)
Definition logged (w : world) (l : list (path * string)) : world :=
  World (fs w) (stdout w) (open_log w ++ l) (self w).

(** What [compare_files] answers on a filesystem. *)
Definition compare_result (n : node) (s d : path) : string :=
  match resolve n d with
  | None => "new"
  | Some _ => if bool_decide (hash_of n s = hash_of n d) then "identical" else "modified"
  end.

(** A candidate as the scan records it on the filesystem [n]. *)
Definition recorded (n : node) (fi : file_info) : Prop :=
  status fi = compare_result n (src fi) (dest fi) /\ status fi <> "identical".

(** What holds all along a scan of the filesystem [n]: the tree and the two
    roots stay as they were, and every candidate so far is a recorded one. *)
Definition scan_inv (n : node) (sp rp : path) (w : world) : Prop :=
  fs w = n /\ system_path (self w) = sp /\ root_path (self w) = rp /\
  Forall (recorded n) (files_to_sync (self w)).

(** The run [m] leaves every field of [self] as it found it. *)
Definition keeps_self {A} (m : M A) : Prop := forall w, self (m w).2 = self w.

(** The copy step of one candidate: the body of the [try] of [sync_file]
    before its [return True]. *)
Definition copy_step (fi : file_info) : M unit :=
  mkdir_parents (parent (dest fi));; copy2 (src fi) (dest fi).

(** The world [w] after the line that reports the failure [e] of the copy
    step of [fi]. *)
Definition reported (fi : file_info) (e : exn) (w : world) : world :=
  World (fs w) (stdout w ++ ["Error syncing " +:+ rel_path fi +:+ ": " +:+ str_exn e])
        (open_log w) (self w).

(** A batch in which no failure stops anything: the copy step of every
    candidate of [l] is run, in order, each in the world the earlier ones
    left, and a copy step that raised leaves its report. The result is what
    each copy step answered, and the world at the end. *)
Fixpoint copy_steps (l : list file_info) (w : world)
  : list (file_info * result unit) * world :=
  match l with
  | [] => ([], w)
  | fi :: r =>
      let step := copy_step fi w in
      let w1 := match step.1 with Ok _ => step.2 | Raise e => reported fi e step.2 end in
      ((fi, step.1) :: (copy_steps r w1).1, (copy_steps r w1).2)
  end.

Definition is_Raise {A} (r : result A) : bool :=
  match r with Ok _ => false | Raise _ => true end.

(** How many copy steps went through, and how many raised. *)
Definition copied (steps : list (file_info * result unit)) : nat :=
  length (filter (fun st => is_Raise st.2 = false) steps).
Definition raised (steps : list (file_info * result unit)) : nat :=
  length (filter (fun st => is_Raise st.2 = true) steps).

(** A line of a diff after its two header lines: a hunk header, a context
    or removed line of the "from" side [a], or an added line of the "to"
    side [b]. *)
Definition body_line (a b : list string) (l : string) : Prop :=
  (exists r, l = "@@ -" +:+ r) \/
  (exists x, x ∈ a /\ (l = " " +:+ x \/ l = "-" +:+ x)) \/
  (exists y, y ∈ b /\ l = "+" +:+ y).

(** The block [(i, j, k)] matches: [a[i+t] == b[j+t]] for all [t < k]. *)
Definition matches (a b : list string) (blk : difflib.block) : Prop :=
  forall t, t < blk.2 -> difflib.same_at a b (blk.1.1 + t) (blk.1.2 + t) = true.

(** The lengths recorded for the row before [i]: [v] at [j] stands for a
    match of length [v] ending at [a[i-1]], [b[j]]. *)
Definition row_before (a b : list string) (i : nat) (m : gmap nat nat) : Prop :=
  forall j v, m !! j = Some v ->
    1 <= v /\ v <= i /\ v <= j + 1 /\
    forall t, t < v -> difflib.same_at a b (i - 1 - t) (j - t) = true.

(** What [b2j] holds before the purge: for each element its indices in
    ascending order, all of them. *)
Definition indexed (b : list string) (m : gmap string (list nat)) : Prop :=
  forall e,
    match m !! e with
    | Some js => StronglySorted lt js /\ forall j, j ∈ js <-> b !! j = Some e
    | None => forall j, b !! j <> Some e
    end.

(** The candidate positions [b2j.get(a[i], nothing)] when both sequences
    are [a]. *)
Definition keys (a : list string) (i : nat) : list nat :=
  default [] (a !! i ≫= fun e => difflib.chain_b a !! e).

(** The number of consecutive elements ending at [i] that are still indexed
    after the purge: the length the matcher finds on the diagonal. *)
Fixpoint run (a : list string) (i : nat) : nat :=
  match keys a i with
  | [] => 0
  | _ => S (match i with O => 0 | S i' => run a i' end)
  end.

(** The run ending just before [i], and the length recorded just before
    [j] in a row: [j2len.get(j - 1, 0)]. *)
Definition prev_run (a : list string) (i : nat) : nat :=
  match i with O => 0 | S i' => run a i' end.

Definition prevlen (m : gmap nat nat) (j : nat) : nat :=
  match j with O => 0 | S j' => default 0 (m !! j') end.

(** The state of the matcher before row [i]: the lengths recorded for
    row [i - 1], and the best block so far, which lies on the diagonal. *)
Definition row_diag (a : list string) (i : nat) (m : gmap nat nat) : Prop :=
  (forall j, prevlen m j <= prev_run a i /\ prevlen m j <= prev_run a j) /\
  prevlen m i = prev_run a i.

Definition best_diag (a : list string) (i : nat) (best : difflib.block) : Prop :=
  exists x s, best = (x, x, s) /\ x + s <= i /\ forall j, j < i -> run a j <= s.

(** The block lies inside the region it was searched in. *)
Definition inside (alo ahi blo bhi : nat) (blk : difflib.block) : Prop :=
  alo <= blk.1.1 /\ blk.1.1 + blk.2 <= ahi /\ blo <= blk.1.2 /\ blk.1.2 + blk.2 <= bhi.

(** The lengths recorded for the row before [i] fit in the region. *)
Definition row_inside (alo blo bhi i : nat) (m : gmap nat nat) : Prop :=
  forall j v, m !! j = Some v -> 1 <= v /\ v + alo <= i /\ v + blo <= j + 1 /\ j < bhi.

(** A region of the work list, and the number of turns the work list can
    still take: a region of [n] rows weighs [2 * n + 1]. *)
Definition region_ok (r : nat * nat * nat * nat) : Prop :=
  r.1.1.1 <= r.1.1.2 /\ r.1.2 <= r.2.

Definition weight (queue : list (nat * nat * nat * nat)) : nat :=
  sum_list_with (fun r : nat * nat * nat * nat => 2 * (r.1.1.2 - r.1.1.1) + 1) queue.

(** Where [os.stat(p)] cannot fail other than by "not found": no name of
    [p] is longer than NAME_MAX bytes, [p] is shorter than PATH_MAX, and
    every directory on the way to [p] may be searched. The tree keeps one
    permission for reading a directory: a directory that may not be read
    is not counted on to be searchable. [Path.exists] re-raises every
    other error of [os.stat] (ENAMETOOLONG, EACCES); [path_exists] stands
    for it on the paths that [can_stat] accepts. *)
Definition NAME_MAX : nat := 255.
Definition PATH_MAX : nat := 4096.

Fixpoint searchable (n : node) (p : path) : bool :=
  match p with
  | [] => true
  | c :: q =>
      match n with
      | Dir m es =>
          readable m &&
          match entry c es with Some y => searchable y q | None => true end
      | File _ _ => true
      end
  end.

Definition can_stat (n : node) (p : path) : bool :=
  forallb (fun c => String.length c <=? NAME_MAX) p &&
  (String.length (str_path p) <? PATH_MAX) && searchable n p.

(** ** A sample installation *)

Module Sample.

Definition file (s : string) : node := File fresh_meta (bytes_of s).
Definition dir (es : list (string * node)) : node := Dir fresh_meta es.
Definition unreadable (n : node) : node := with_meta (Meta false true 0) n.
Definition read_only (n : node) : node := with_meta (Meta true false 0) n.

Definition overlay : node :=
  dir [("etc",
        dir [("foo.conf", file "A");
             ("bar.conf", file "new");
             ("same.conf", file "S");
             ("secret", file "x");
             ("locked", unreadable (file "p"));
             ("site", file "s");
             ("crlf.txt", file ("a" +:+ CR +:+ LF));
             ("sub", dir [("x", file "1")])])].

Definition target_etc : node :=
  dir [("foo.conf", file "B");
       ("same.conf", file "S");
       ("secret", unreadable (file "y"));
       ("locked", unreadable (file "q"));
       ("site", dir []);
       ("crlf.txt", file ("a" +:+ LF));
       ("sub", read_only (dir []))].

Definition roms : path := ["storage"; "roms"].
Definition System : path := ["storage"; "roms"; "System"].

Definition tree : node :=
  dir [("storage", dir [("roms", dir [("System", overlay)])]); ("etc", target_etc)].

Definition w0 : world := World tree [] [] (init roms []).

(** The same machine without a System folder, and with an empty one. *)
Definition w_missing : world :=
  World (dir [("storage", dir [("roms", dir [])]); ("etc", target_etc)]) [] [] (init roms []).
Definition w_empty : world :=
  World (dir [("storage", dir [("roms", dir [("System", dir [])])]); ("etc", target_etc)])
        [] [] (init roms []).

(** The world after the initial scan of [w0]. *)
Definition scanned : world := (check_system_folder w0).2.

Definition over (p : path) : path := System ++ p.

End Sample.

(** ** Derived notions: the scan *)

(** The candidate the scan records for the file [filename] of the walked
    directory [root], if any. *)
Definition candidate_of (n : node) (sp rp root : path) (filename : string)
  : list file_info :=
  match strip_prefix sp (joinpath root [filename]) with
  | Some rel =>
      let st := compare_result n (joinpath root [filename]) (joinpath rp rel) in
      if String.eqb st "identical" then []
      else [FileInfo (joinpath root [filename]) (joinpath rp rel) (str_rel rel) st true]
  | None => []
  end.

(** The candidates of a whole scan, in the order of the walk. *)
Definition candidates (n : node) (sp rp : path) : list file_info :=
  match resolve n sp with
  | Some x =>
      t ← walk sp x;
      filename ← t.2;
      candidate_of n sp rp t.1.1 filename
  | None => []
  end.

(** Every directory from [x] down to the one at [rel] can be listed. *)
Fixpoint listable (x : node) (rel : path) : bool :=
  match x with
  | Dir m es =>
      readable m &&
      match rel with
      | [] => true
      | c :: r => match entry c es with Some y => listable y r | None => false end
      end
  | File _ _ => false
  end.

(** The world [w] in the middle of a scan started in [w0], with the
    candidates [acc] found so far. *)
Definition scanning (w0 : world) (acc : list file_info) (w : world) : Prop :=
  fs w = fs w0 /\ stdout w = stdout w0 /\ self w = set_files_to_sync acc (self w0).

(** ** Derived notions: what a sync leaves of the tree *)

(** The tree [n'] is [n] with, at most, directories added along [p]:
    regular files are as they were, directories keep their metadata, and a
    path that did not resolve still does not, unless it is one of the fresh
    directories on the way to [p]. *)
Definition grown (p : path) (n n' : node) : Prop :=
  forall q,
    match resolve n q with
    | Some (File m d) => resolve n' q = Some (File m d)
    | Some (Dir m _) => exists es', resolve n' q = Some (Dir m es')
    | None =>
        resolve n' q = None \/
        (q `prefix_of` p /\ exists es', resolve n' q = Some (Dir fresh_meta es'))
    end.

(** Where [copy2] writes: into [d] when it is a directory. *)
Definition copy_target (n : node) (s d : path) : path :=
  match resolve n d with
  | Some (Dir _ _) => joinpath d [name s]
  | _ => d
  end.

(** The same regular file, or none, is at [q] in both trees. *)
Definition same_file_at (n n' : node) (q : path) : Prop :=
  forall m d, resolve n q = Some (File m d) <-> resolve n' q = Some (File m d).

(** What one level of [mkdir] does, whatever is done when a parent is
    missing. *)
Definition makes_dir (p : path) (m : M unit) : Prop :=
  forall w, exists r w', m w = (r, w') /\ stdout w' = stdout w /\
    grown p (fs w) (fs w') /\
    (r = Ok tt -> exists m es, resolve (fs w') p = Some (Dir m es)).

(** ** Derived notions: the cursor *)

(** The cursor invariant of the list and diff screens: outside the scan
    and done states the cursor is on a candidate; the cursor is inside the
    window of visible rows; the window does not run past the end of the
    list; the diff is not scrolled past its last page. *)
Definition cursor_ok (u : SystemSyncUI) : Prop :=
  (state u = St_scan \/ state u = St_done \/ selected_index u < length (files_to_sync u)) /\
  scroll_offset u <= selected_index u /\
  selected_index u < scroll_offset u + max_visible_items u /\
  (scroll_offset u = 0 \/ scroll_offset u + max_visible_items u <= length (files_to_sync u)) /\
  diff_scroll u <= length (diff_lines u) - 16.

(** What the key handling leaves alone: the tree, the output, the three
    paths, the number of candidates and the height of the window. *)
Definition input_frame (w w' : world) : Prop :=
  fs w' = fs w /\ stdout w' = stdout w /\
  roms_path (self w') = roms_path (self w) /\
  system_path (self w') = system_path (self w) /\
  root_path (self w') = root_path (self w) /\
  length (files_to_sync (self w')) = length (files_to_sync (self w)) /\
  max_visible_items (self w') = max_visible_items (self w).

(** ** Derived notions: what the screens show *)

(** The call draws inside the 640 x 480 surface: a text is anchored in
    it, a rectangle or a line lies in it. *)
Definition on_screen (c : draw_cmd) : Prop :=
  match c with
  | Fill _ => True
  | Blit _ _ _ x y _ => (0 <= x < 640 /\ 0 <= y < 480)%Z
  | Rect _ x y w h _ =>
      (0 <= x /\ 0 <= y /\ 0 <= w /\ 0 <= h /\ x + w <= 640 /\ y + h <= 480)%Z
  | Line _ x1 y1 x2 y2 _ =>
      (0 <= x1 < 640 /\ 0 <= y1 < 480 /\ 0 <= x2 < 640 /\ 0 <= y2 < 480)%Z
  end.

(** A text of the file-name column of the list holds at most 60
    characters; a text of the body of the diff screen at most 80. *)
Definition name_fits (c : draw_cmd) : Prop :=
  match c with
  | Blit text _ _ x _ _ => x = 100%Z -> Str.len text <= 60
  | _ => True
  end.

Definition line_fits (c : draw_cmd) : Prop :=
  match c with
  | Blit text _ _ _ y _ => (120 <= y)%Z -> Str.len text <= 80
  | _ => True
  end.

(** The thumb of the scrollbar, the only light gray rectangle, lies in
    the track, which spans y = 100 .. 400. *)
Definition thumb_in_track (c : draw_cmd) : Prop :=
  match c with
  | Rect Color.LIGHT_GRAY _ y _ h _ => (100 <= y /\ 20 <= h /\ y + h <= 400)%Z
  | _ => True
  end.

(** The display [d'] is [d] with the calls [cmds] made after it. *)
Definition painted (d : display) (cmds : list draw_cmd) : display :=
  Display (surface d ++ cmds) (flipped d).

(** Where every call of the list screen is: inside the surface, the names
    cut to length, the thumb in its track. *)
Definition list_cmd_ok (c : draw_cmd) : Prop :=
  on_screen c /\ name_fits c /\ thumb_in_track c.

(** The highlight of the row of the cursor. *)
Definition highlight (u : SystemSyncUI) : draw_cmd :=
  Rect Color.DARK_GRAY 10
    (100 + (Z.of_nat (selected_index u) - Z.of_nat (scroll_offset u)) * 28 - 2) 620 28 0.

Definition diff_cmd_ok (c : draw_cmd) : Prop := on_screen c /\ line_fits c.

(** Everything drawn now and everything shown so far is inside the
    surface. *)
Definition shown_ok (d : display) : Prop :=
  Forall on_screen (surface d) /\ Forall (Forall on_screen) (flipped d).

(** The RETURN presses among the events. *)
Definition is_return (ev : event) : bool :=
  match ev with KEYDOWN K_RETURN => true | _ => false end.

Definition confirmations (events : list event) : nat :=
  length (filter (fun ev => is_return ev = true) events).

(** The RETURN presses still needed before the files are copied. *)
Definition steps_to_sync (st : ui_state) : nat :=
  match st with St_syncing => 0 | St_confirm => 1 | _ => 2 end.

(** What holds of [self] all along a run. *)
Definition ui_ok (u : SystemSyncUI) : Prop := cursor_ok u /\ max_visible_items u <= 12.

(** The notice of the scan screen when there is no System folder. *)
Definition not_found_notice : draw_cmd :=
  Blit "System folder not found!" font_medium Color.RED 320 280 true.

(** ** The sample installation: further cases *)

Module Cases.

(** Candidates of the sample installation: a new file, a file whose target
    directory is read-only, and a file whose target is a directory. *)
Definition bar : file_info :=
  FileInfo (Sample.over ["etc"; "bar.conf"]) ["etc"; "bar.conf"] "etc/bar.conf" "new" true.

(** An installation whose scan gives three new files; the target directory
    of the second may not be written to. *)
Definition batch_tree : node :=
  Sample.dir
    [("storage",
      Sample.dir [("roms",
        Sample.dir [("System",
          Sample.dir [("a.conf", Sample.file "1");
                      ("etc", Sample.dir [("x", Sample.file "2")]);
                      ("opt", Sample.dir [("y", Sample.file "3")])])])]);
     ("etc", Sample.read_only (Sample.dir []))].

Definition batch : world :=
  (check_system_folder (World batch_tree [] [] (init Sample.roms []))).2.

Definition etc_x : file_info :=
  FileInfo (Sample.over ["etc"; "x"]) ["etc"; "x"] "etc/x" "new" true.

End Cases.

Module Screens.

(** The sample installation on the list screen after its scan, and on the
    diff screen of its second candidate. *)
Definition listing : world :=
  World (fs Sample.scanned) (stdout Sample.scanned) (open_log Sample.scanned)
        (set_state St_list (self Sample.scanned)).


End Screens.

(** * Proofs *)

(** ** What the methods compute: run equations *)

#[local] Arguments MD5.hexdigest_of : simpl never.
#[local] Arguments difflib.unified_diff : simpl never.
#[local] Arguments decode_lines : simpl never.

Ltac unfold_monad :=
  unfold mbind, M_bind, mret, M_ret, try_except, raise, get_fs, put_fs, get_self,
    put_self, modify_self, print, log_open, Exception in *.

Lemma chunk_size_pos : 0 < chunk_size.
Proof. unfold chunk_size. lia. Qed.

#[local] Opaque chunk_size.

Lemma read_loop_all turns f h :
  length f < turns -> read_loop turns f h = MD5.update h f.
Proof.
  pose proof chunk_size_pos as Hpos.
  revert f h. induction turns as [|t IH]; intros f h Hlt; [lia|].
  simpl. destruct (take chunk_size f) as [|b c] eqn:Htake.
  - destruct f as [|x f].
    + destruct h; unfold MD5.update; simpl. by rewrite app_nil_r.
    + destruct chunk_size; [lia | discriminate].
  - rewrite <- Htake. rewrite IH.
    + unfold MD5.update; simpl. by rewrite <- app_assoc, take_drop.
    + rewrite length_drop. destruct f; [by rewrite take_nil in Htake|]. simpl in *. lia.
Qed.

#[local] Arguments read_loop : simpl never.

Lemma open_read_run p mode w :
  open_read p mode w = (read_of (fs w) p, logged w [(p, mode)]).
Proof.
  unfold open_read, read_of, logged. unfold_monad. simpl.
  destruct (resolve (fs w) p) as [[m data|m es]|]; simpl; try reflexivity.
  by destruct (readable m).
Qed.

Lemma file_hash_run p w :
  file_hash p w = (Ok (hash_of (fs w) p), logged w [(p, "rb")]).
Proof.
  unfold file_hash, hash_of. unfold_monad. rewrite open_read_run.
  destruct (read_of (fs w) p) as [data|e]; simpl; [|reflexivity].
  rewrite read_loop_all by lia. reflexivity.
Qed.

Lemma compare_hashes_run s d w :
  compare_hashes s d w =
    (Ok (if bool_decide (hash_of (fs w) s = hash_of (fs w) d) then "identical" else "modified"),
     logged w [(s, "rb"); (d, "rb")]).
Proof.
  unfold compare_hashes. unfold_monad. rewrite !file_hash_run. simpl.
  unfold logged; simpl. rewrite <- app_assoc. simpl.
  by destruct (bool_decide _).
Qed.

Lemma compare_files_run s d w :
  compare_files s d w =
    (Ok (compare_result (fs w) s d),
     if bool_decide (is_Some (resolve (fs w) d)) then logged w [(s, "rb"); (d, "rb")] else w).
Proof.
  unfold compare_files, compare_result, path_exists. unfold_monad. simpl.
  destruct (resolve (fs w) d) as [x|] eqn:Hd.
  - rewrite bool_decide_eq_true_2 by eauto. simpl. by rewrite compare_hashes_run.
  - rewrite bool_decide_eq_false_2 by (intros [? ?]; discriminate). reflexivity.
Qed.

Lemma node_ind' (P : node -> Prop) :
  (forall m d, P (File m d)) ->
  (forall m es, Forall (fun e => P e.2) es -> P (Dir m es)) ->
  forall n, P n.
Proof.
  intros HF HD. fix IH 1. intros [m d|m es]; [apply HF|].
  apply HD. revert es. fix IHes 1. intros [|[c x] r]; constructor.
  - apply IH.
  - apply IHes.
Qed.

Lemma strip_prefix_app base r : strip_prefix base (base ++ r) = Some r.
Proof.
  induction base as [|b base IH]; simpl; [by destruct r|].
  by rewrite String.eqb_refl.
Qed.

Lemma walk_roots n : forall top,
  Forall (fun t : path * list string * list string => exists r, t.1.1 = top ++ r) (walk top n).
Proof.
  induction n as [m d|m es IH] using node_ind'; intros top; simpl; [constructor|].
  destruct (readable m); [|constructor].
  constructor; [exists []; by rewrite app_nil_r|].
  induction es as [|[c x] r IHr]; [constructor|].
  inversion IH as [|? ? Hx Hr]; subst. apply Forall_app. split.
  - destruct (is_dir_node x); [|constructor].
    eapply Forall_impl; [apply Hx|]. intros t [q Hq]. exists ([c] ++ q).
    rewrite Hq. unfold joinpath. by rewrite <- app_assoc.
  - by apply IHr.
Qed.

Lemma for_each_inv {A} (I : world -> Prop) (Q : A -> Prop) (body : A -> M unit) l :
  (forall x w, Q x -> I w -> exists w', body x w = (Ok tt, w') /\ I w') ->
  Forall Q l -> forall w, I w -> exists w', for_each l body w = (Ok tt, w') /\ I w'.
Proof.
  intros Hbody HQ. induction HQ as [|x r Hx Hr IH]; intros w HI; simpl.
  - exists w. by split.
  - unfold_monad. destruct (Hbody x w Hx HI) as (w1 & -> & HI1). by apply IH.
Qed.

Lemma scan_file_inv n sp rp root filename w :
  (exists r, root = sp ++ r) -> scan_inv n sp rp w ->
  exists w', scan_file root filename w = (Ok tt, w') /\ scan_inv n sp rp w'.
Proof.
  intros [r ->] (Hfs & Hsp & Hrp & Hall).
  unfold scan_file, relative_to, joinpath. unfold_monad.
  rewrite Hsp, <- app_assoc, strip_prefix_app, compare_files_run. 
  set (st := compare_result _ _ _).
  set (w1 := if bool_decide _ then _ else w).
  assert (Hw1 : fs w1 = fs w /\ self w1 = self w) by (subst w1; by destruct (bool_decide _)).
  destruct Hw1 as [Hfs1 Hself1].
  destruct (String.eqb st "identical") eqn:Heq; simpl.
  - eexists; split; [reflexivity|]. unfold scan_inv. by rewrite Hfs1, Hself1.
  - eexists; split; [reflexivity|]. unfold scan_inv; simpl.
    rewrite Hfs1, Hself1. repeat split; try done.
    apply Forall_app; split; [done|]. constructor; [|constructor].
    split; simpl.
    + subst st. by rewrite Hfs, Hrp.
    + intros E. rewrite E in Heq. discriminate.
Qed.

Lemma check_system_folder_found w x :
  resolve (fs w) (system_path (self w)) = Some x ->
  exists w', check_system_folder w = (Ok true, w') /\
    scan_inv (fs w) (system_path (self w)) (root_path (self w)) w'.
Proof.
  intros Hx. unfold check_system_folder, path_exists, os_walk. unfold_monad. simpl.
  rewrite Hx. rewrite bool_decide_eq_true_2 by eauto. simpl.
  set (w0 := World _ _ _ _).
  destruct (for_each_inv (scan_inv (fs w) (system_path (self w)) (root_path (self w)))
              (fun t : path * list string * list string =>
                 exists r, t.1.1 = system_path (self w) ++ r)
              (fun t : path * list string * list string =>
                 let '(root, _, files) := t in for_each files (scan_file root))
              (walk (system_path (self w)) x)) with w0 as (w' & Hrun & Hinv).
  - intros [[root dirs] files] w1 Hroot Hinv; simpl in Hroot.
    apply (for_each_inv _ (fun _ => True)); [|by apply Forall_true|done].
    intros filename w2 _ Hinv2. by apply scan_file_inv.
  - apply walk_roots.
  - subst w0. repeat split; simpl; constructor.
  - rewrite Hx, Hrun. eauto.
Qed.

Lemma check_system_folder_missing w :
  resolve (fs w) (system_path (self w)) = None ->
  check_system_folder w = (Ok false, w).
Proof.
  intros Hx. unfold check_system_folder, path_exists. unfold_monad. simpl.
  rewrite Hx. rewrite bool_decide_eq_false_2 by (intros [? ?]; discriminate). reflexivity.
Qed.

Lemma readlines_run p w :
  readlines p w =
    (match read_of (fs w) p with Ok data => Ok (decode_lines data) | Raise e => Raise e end,
     logged w [(p, "r")]).
Proof.
  unfold readlines. unfold_monad. rewrite open_read_run.
  by destruct (read_of (fs w) p).
Qed.

Lemma get_file_diff_run s d w :
  get_file_diff s d w =
    match resolve (fs w) d with
    | None => (Ok ["New file: " +:+ name s], w)
    | Some _ =>
        match read_of (fs w) s with
        | Raise e => (Ok ["Cannot generate diff: " +:+ str_exn e], logged w [(s, "r")])
        | Ok sdata =>
            match read_of (fs w) d with
            | Raise e =>
                (Ok ["Cannot generate diff: " +:+ str_exn e], logged w [(s, "r"); (d, "r")])
            | Ok ddata =>
                (Ok (difflib.unified_diff (decode_lines ddata) (decode_lines sdata)
                       (str_path d) (str_path s) ""),
                 logged w [(s, "r"); (d, "r")])
            end
        end
    end.
Proof.
  unfold get_file_diff, path_exists. unfold_monad. simpl.
  destruct (resolve (fs w) d) as [x|] eqn:Hd.
  - rewrite bool_decide_eq_true_2 by eauto. simpl. rewrite readlines_run.
    destruct (read_of (fs w) s) as [sdata|e]; simpl; [|reflexivity].
    rewrite readlines_run. simpl.
    assert (Hl : logged (logged w [(s, "r")]) [(d, "r")] = logged w [(s, "r"); (d, "r")]).
    { unfold logged; simpl. by rewrite <- app_assoc. }
    rewrite Hl. by destruct (read_of (fs w) d).
  - rewrite bool_decide_eq_false_2 by (intros [? ?]; discriminate). reflexivity.
Qed.

(** ** Frame: what a run leaves of [self] *)

Lemma keeps_ret {A} (a : A) : keeps_self (mret a).
Proof. by intros w. Qed.

Lemma keeps_raise {A} e : keeps_self (@raise A e).
Proof. by intros w. Qed.

Lemma keeps_bind {A B} (m : M A) (f : A -> M B) :
  keeps_self m -> (forall a, keeps_self (f a)) -> keeps_self (m ≫= f).
Proof.
  intros Hm Hf w. unfold mbind, M_bind. specialize (Hm w).
  destruct (m w) as [[a|e] w1]; simpl in *; [|done].
  by rewrite Hf.
Qed.

Lemma keeps_try {A} (m : M A) c h :
  keeps_self m -> (forall e, keeps_self (h e)) -> keeps_self (try_except m c h).
Proof.
  intros Hm Hh w. unfold try_except. specialize (Hm w).
  destruct (m w) as [[a|e] w1]; simpl in *; [done|].
  destruct (c e); [|done]. by rewrite Hh.
Qed.

Lemma keeps_get_fs : keeps_self get_fs.
Proof. by intros w. Qed.
Lemma keeps_put_fs n : keeps_self (put_fs n).
Proof. by intros w. Qed.
Lemma keeps_get_self : keeps_self get_self.
Proof. by intros w. Qed.
Lemma keeps_print l : keeps_self (print l).
Proof. by intros w. Qed.
Lemma keeps_log_open p mode : keeps_self (log_open p mode).
Proof. by intros w. Qed.

Create HintDb keeps.
#[local] Hint Resolve keeps_ret keeps_raise keeps_get_fs keeps_put_fs keeps_get_self
  keeps_print keeps_log_open : keeps.

Ltac keeps_step :=
  match goal with
  | |- keeps_self (_ ≫= _) => apply keeps_bind; [|intros ?]
  | |- keeps_self (try_except _ _ _) => apply keeps_try; [|intros ?]
  | |- keeps_self (match ?x with _ => _ end) => destruct x
  | |- keeps_self (let '_ := ?x in _) => destruct x
  | |- keeps_self _ => solve [auto with keeps]
  end.
Ltac keeps := repeat keeps_step.

Lemma keeps_path_exists p : keeps_self (path_exists p).
Proof. unfold path_exists. keeps. Qed.
Lemma keeps_path_is_dir p : keeps_self (path_is_dir p).
Proof. unfold path_is_dir. keeps. Qed.
Lemma keeps_open_read p mode : keeps_self (open_read p mode).
Proof. unfold open_read. keeps. Qed.
Lemma keeps_open_write p data : keeps_self (open_write p data).
Proof. unfold open_write. keeps. Qed.
Lemma keeps_os_mkdir p : keeps_self (os_mkdir p).
Proof. unfold os_mkdir. keeps. Qed.
#[local] Hint Resolve keeps_path_exists keeps_path_is_dir keeps_open_read keeps_open_write
  keeps_os_mkdir : keeps.

Lemma keeps_mkdir_exist_ok p : keeps_self (mkdir_exist_ok p).
Proof. unfold mkdir_exist_ok. keeps. Qed.
#[local] Hint Resolve keeps_mkdir_exist_ok : keeps.

Lemma keeps_mkdir_parents p : keeps_self (mkdir_parents p).
Proof.
  unfold mkdir_parents. induction (reverse p) as [|c rp IH]; simpl; keeps.
Qed.

Lemma keeps_copystat s d : keeps_self (copystat s d).
Proof. unfold copystat. keeps. Qed.
Lemma keeps_copyfile s d isd : keeps_self (copyfile s d isd).
Proof. unfold copyfile. keeps. Qed.
#[local] Hint Resolve keeps_mkdir_parents keeps_copystat keeps_copyfile : keeps.

Lemma keeps_copy2 s d : keeps_self (copy2 s d).
Proof. unfold copy2. keeps. Qed.
#[local] Hint Resolve keeps_copy2 : keeps.

Lemma keeps_sync_file fi : keeps_self (sync_file fi).
Proof. unfold sync_file. keeps. Qed.
#[local] Hint Resolve keeps_sync_file : keeps.

Lemma keeps_sync_loop l : forall s f, keeps_self (sync_loop l s f).
Proof. induction l as [|fi r IH]; intros s f; simpl; keeps. Qed.

Lemma keeps_get_file_diff s d : keeps_self (get_file_diff s d).
Proof. intros w. rewrite get_file_diff_run. by repeat case_match. Qed.

(** ** The sync loop *)

(** [sync_file] by the outcome of its copy step: whatever the copy step
    raises is caught, reported and answered [False]. *)
Lemma sync_file_run fi w :
  sync_file fi w =
    match copy_step fi w with
    | (Ok _, w1) => (Ok true, w1)
    | (Raise e, w1) => (Ok false, reported fi e w1)
    end.
Proof.
  unfold sync_file, copy_step, try_except, Exception, print, reported. unfold_monad.
  destruct (mkdir_parents (parent (dest fi)) w) as [[[]|e1] w1]; [|done].
  by destruct (copy2 (src fi) (dest fi) w1) as [[[]|e2] w2].
Qed.

Lemma sync_loop_steps l : forall s f w,
  let chosen := filter (fun fi => selected fi = true) l in
  sync_loop l s f w =
    (Ok (s + copied (copy_steps chosen w).1, f + raised (copy_steps chosen w).1),
     (copy_steps chosen w).2).
Proof.
  induction l as [|fi r IH]; intros s f w; cbn zeta.
  - simpl. unfold copied, raised. simpl. by rewrite !Nat.add_0_r.
  - cbn [sync_loop]. destruct (selected fi) eqn:Hsel.
    + rewrite filter_cons_True by done. cbn [copy_steps].
      unfold mbind, M_bind. rewrite sync_file_run.
      destruct (copy_step fi w) as [[[]|e] w1]; cbn [fst snd].
      * rewrite IH. unfold copied, raised.
        rewrite (filter_cons_True (fun st => is_Raise st.2 = false)) by done.
        rewrite (filter_cons_False (fun st => is_Raise st.2 = true)) by done.
        cbn [length]. do 2 f_equal. f_equal; lia.
      * rewrite IH. unfold copied, raised.
        rewrite (filter_cons_False (fun st => is_Raise st.2 = false)) by done.
        rewrite (filter_cons_True (fun st => is_Raise st.2 = true)) by done.
        cbn [length]. do 2 f_equal. f_equal; lia.
    + rewrite filter_cons_False by (rewrite Hsel; done). apply IH.
Qed.

Lemma copy_steps_candidates l : forall w, (copy_steps l w).1.*1 = l.
Proof. induction l as [|fi r IH]; intros w; [done|]. cbn. by rewrite IH. Qed.

Lemma steps_split (steps : list (file_info * result unit)) :
  copied steps + raised steps = length steps.
Proof.
  unfold copied, raised. induction steps as [|[fi [[]|e]] r IH]; [done| |].
  - rewrite (filter_cons_True (fun st => is_Raise st.2 = false)) by done.
    rewrite (filter_cons_False (fun st => is_Raise st.2 = true)) by done.
    cbn [length]. lia.
  - rewrite (filter_cons_False (fun st => is_Raise st.2 = false)) by done.
    rewrite (filter_cons_True (fun st => is_Raise st.2 = true)) by done.
    cbn [length]. lia.
Qed.

(** C9: [sync_selected_files] and [sync_file] leave [self], and so every
    candidate with all its fields, as they found it. Of the events handled
    by [handle_input] only the space key in the list state changes the
    candidates, and it flips the [selected] flag of the candidate under
    the cursor and nothing else. *)
Theorem apply_never_mutates_candidates :
  (forall w, self (sync_selected_files w).2 = self w) /\
  (forall fi w, self (sync_file fi w).2 = self w) /\
  (forall ev w,
     let w' := (handle_event ev w).2 in
     let i := selected_index (self w) in
     files_to_sync (self w') = files_to_sync (self w) \/
     (ev = KEYDOWN K_SPACE /\ state (self w) = St_list /\
      exists fi, files_to_sync (self w) !! i = Some fi /\
        files_to_sync (self w') =
          <[i := set_selected (negb (selected fi)) fi]> (files_to_sync (self w)))).
Proof.
  split; [|split].
  - intros w. unfold sync_selected_files.
    apply keeps_bind; [apply keeps_get_self|]. intros u. apply keeps_sync_loop.
  - intros fi w. apply keeps_sync_file.
  - intros ev w. destruct ev as [|k|]; [by left| |by left].
    cbn zeta. unfold handle_event, file_at. unfold_monad.
    destruct (state (self w)) eqn:Hst; destruct k; simpl; try (by left);
      try (repeat (case_match; simpl); by left).
    + destruct (files_to_sync (self w) !! selected_index (self w)) as [fi|] eqn:Hfi;
        simpl; [|by left].
      right. repeat split. by exists fi.
    + destruct (files_to_sync (self w) !! selected_index (self w)) as [fi|] eqn:Hfi;
        simpl; [|by left].
      left. pose proof (keeps_get_file_diff (src fi) (dest fi) w) as Hk.
      destruct (get_file_diff (src fi) (dest fi) w) as [[lines|e] w1]; simpl in *;
        by rewrite Hk.
Qed.

(** ** The shape of a unified diff *)

Lemma append_empty_r (s : string) : s +:+ "" = s.
Proof.
  induction s as [|c s IH]; [done|].
  change (String c (s +:+ "") = String c s). by rewrite IH.
Qed.

Lemma slice_subseteq (a : list string) i j : difflib.slice a i j ⊆ a.
Proof.
  unfold difflib.slice. etrans; [apply subseteq_take | apply subseteq_drop].
Qed.

Lemma opcode_lines_shape a b c : Forall (body_line a b) (difflib.opcode_lines a b c).
Proof.
  destruct c as [[[[t i1] i2] j1] j2]. unfold difflib.opcode_lines.
  assert (Hkeep : Forall (body_line a b) ((fun l => " " +:+ l) <$> difflib.slice a i1 i2)).
  { apply Forall_fmap, Forall_forall. intros x Hx. right; left. exists x.
    split; [by apply (slice_subseteq a i1 i2) | by left]. }
  assert (Hdel : Forall (body_line a b) ((fun l => "-" +:+ l) <$> difflib.slice a i1 i2)).
  { apply Forall_fmap, Forall_forall. intros x Hx. right; left. exists x.
    split; [by apply (slice_subseteq a i1 i2) | by right]. }
  assert (Hadd : Forall (body_line a b) ((fun l => "+" +:+ l) <$> difflib.slice b j1 j2)).
  { apply Forall_fmap, Forall_forall. intros y Hy. right; right. exists y.
    split; [by apply (slice_subseteq b j1 j2) | done]. }
  destruct t; try done. by apply Forall_app.
Qed.

Lemma mjoin_shape {A} (P : string -> Prop) (f : A -> list string) (l : list A) :
  (forall x, Forall P (f x)) -> Forall P (mjoin (f <$> l)).
Proof.
  intros Hf. induction l as [|x l IH]; simpl; [constructor|].
  apply Forall_app. by split.
Qed.

Lemma hunk_shape a b group : Forall (body_line a b) (difflib.hunk a b "" group).
Proof.
  unfold difflib.hunk. destruct group as [|[[[[t f1] f2] f3] f4] r]; [constructor|].
  case_match; [|constructor]. repeat case_match.
  constructor; [left; eauto|].
  apply mjoin_shape. apply opcode_lines_shape.
Qed.

Lemma unified_diff_shape a b fromfile tofile :
  let lines := difflib.unified_diff a b fromfile tofile "" in
  lines = [] \/
  exists body, lines = ("--- " +:+ fromfile) :: ("+++ " +:+ tofile) :: body /\
               Forall (body_line a b) body.
Proof.
  unfold difflib.unified_diff. destruct (difflib.get_grouped_opcodes a b 3) as [|g gs];
    [by left|right].
  rewrite !append_empty_r. eexists; split; [reflexivity|].
  apply mjoin_shape. apply hunk_shape.
Qed.

(** ** The sample installation, run *)

Example md5_of_empty : MD5.hexdigest MD5.md5 = "d41d8cd98f00b204e9800998ecf8427e".
Proof. vm_compute. reflexivity. Qed.

Example md5_of_abc :
  MD5.hexdigest (MD5.update MD5.md5 (bytes_of "abc")) = "900150983cd24fb0d6963f7d28e17f72".
Proof. vm_compute. reflexivity. Qed.

Example unified_diff_of_an_insertion :
  difflib.unified_diff ["a"; "b"; "c"; "d"; "e"] ["a"; "b"; "x"; "c"; "d"; "e"] "old" "new" "" =
  ["--- old"; "+++ new"; "@@ -1,5 +1,6 @@"; " a"; " b"; "+x"; " c"; " d"; " e"].
Proof. vm_compute. reflexivity. Qed.

Example sample_scan :
  (fun fi => (rel_path fi, status fi)) <$> files_to_sync (self Sample.scanned) =
  [("etc/foo.conf", "modified"); ("etc/bar.conf", "new"); ("etc/secret", "modified");
   ("etc/site", "modified"); ("etc/crlf.txt", "modified"); ("etc/sub/x", "new")].
Proof. vm_compute. reflexivity. Qed.

Example sample_sync :
  (sync_selected_files Sample.scanned).1 = Ok (5, 1) /\
  stdout (sync_selected_files Sample.scanned).2 =
    ["Error syncing etc/sub/x: [Errno 13] Permission denied: '/etc/sub/x'"].
Proof. vm_compute. by split. Qed.

Example sample_diff :
  (get_file_diff (Sample.over ["etc"; "foo.conf"]) ["etc"; "foo.conf"] Sample.w0).1 =
  Ok ["--- /etc/foo.conf"; "+++ /storage/roms/System/etc/foo.conf"; "@@ -1 +1 @@"; "-B"; "+A"].
Proof. vm_compute. reflexivity. Qed.

Example sample_rescan :
  let after := (sync_selected_files Sample.scanned).2 in
  (fun fi => (rel_path fi, status fi)) <$> files_to_sync (self (check_system_folder after).2) =
  [("etc/site", "modified"); ("etc/sub/x", "new")].
Proof. vm_compute. reflexivity. Qed.

(** ** Writing to the tree *)

Lemma entry_set_entry_eq c x es : entry c (set_entry c x es) = Some x.
Proof.
  induction es as [|[n y] r IH]; simpl.
  - by rewrite String.eqb_refl.
  - destruct (String.eqb n c) eqn:E; simpl; rewrite E; [done | apply IH].
Qed.

Lemma entry_set_entry_ne c c' x es :
  c <> c' -> entry c' (set_entry c x es) = entry c' es.
Proof.
  intros Hne. induction es as [|[n y] r IH]; simpl.
  - destruct (String.eqb_spec c c'); [done | done].
  - destruct (String.eqb_spec n c) as [->|Hn]; simpl.
    + destruct (String.eqb_spec c c'); [done | done].
    + destruct (String.eqb_spec n c'); [done | apply IH].
Qed.

Lemma resolve_place_eq p : forall n x y,
  resolve n p = Some y -> resolve (place n p x) p = Some x.
Proof.
  induction p as [|c q IH]; intros n x y Hy; simpl in *; [done|].
  destruct n as [m d|m es]; [done|].
  destruct (entry c es) as [z|] eqn:Hz; [|done]. simpl.
  rewrite entry_set_entry_eq. by eapply IH.
Qed.

(** Overwriting one regular file leaves every other regular file as it is. *)
Lemma resolve_place_other p : forall n q x m d f,
  resolve n p = Some (File m d) -> resolve n q = Some f -> is_dir_node f = false ->
  p <> q -> resolve (place n p x) q = Some f.
Proof.
  induction p as [|c p' IH]; intros n q x m d f Hp Hq Hf Hne; simpl in *.
  - simplify_eq. destruct q; [done | discriminate].
  - destruct n as [m0 d0|m0 es]; [done|].
    destruct (entry c es) as [z|] eqn:Hz; [|done]. simpl.
    destruct q as [|c' q']; simpl in *; [by simplify_eq|].
    destruct (decide (c = c')) as [<-|Hc].
    + rewrite entry_set_entry_eq. rewrite Hz in Hq.
      eapply IH; eauto. congruence.
    + by rewrite entry_set_entry_ne.
Qed.

Lemma resolve_parent p : forall n y,
  p <> [] -> resolve n p = Some y -> exists m es, resolve n (parent p) = Some (Dir m es).
Proof.
  unfold parent. induction p as [|c q IH]; intros n y Hne Hy; [done|].
  destruct n as [m d|m es]; [done|]. 
  destruct q as [|c' q']; [simpl; eauto|].
  change (removelast (c :: c' :: q')) with (c :: removelast (c' :: q')).
  simpl in Hy |- *. destruct (entry c es) as [z|]; [|done].
  eapply IH; [done | exact Hy].
Qed.

Lemma mkdir_parents_rev_unfold rp :
  mkdir_parents_rev rp =
    try_except (os_mkdir (reverse rp)) is_OSError (fun e =>
      if is_FileNotFoundError e then
        match rp with
        | [] => raise e
        | _ :: rparent => mkdir_parents_rev rparent;; mkdir_exist_ok (reverse rp)
        end
      else
        d ← path_is_dir (reverse rp); if (d : bool) then mret tt else raise e).
Proof. by destruct rp. Qed.

Lemma mkdir_parents_existing p w m es :
  resolve (fs w) p = Some (Dir m es) -> mkdir_parents p w = (Ok tt, w).
Proof.
  intros Hp. unfold mkdir_parents. rewrite mkdir_parents_rev_unfold, reverse_involutive.
  unfold os_mkdir, path_is_dir. unfold_monad. simpl. rewrite Hp. simpl. by rewrite Hp.
Qed.

Lemma mkdir_parents_root_file w m d :
  fs w = File m d -> mkdir_parents [] w = (Raise (FileExistsError []), w).
Proof.
  intros Hfs. unfold mkdir_parents. rewrite mkdir_parents_rev_unfold.
  change (reverse (reverse [])) with (@nil string).
  unfold os_mkdir, path_is_dir. unfold_monad. simpl. by rewrite Hfs.
Qed.

(** What a successful [sync_file] onto a regular file leaves behind. *)
Lemma sync_file_onto_regular fi w md dd :
  resolve (fs w) (dest fi) = Some (File md dd) ->
  (sync_file fi w).1 = Ok true ->
  exists ms data,
    resolve (fs w) (src fi) = Some (File ms data) /\ readable ms = true /\
    resolve (fs (sync_file fi w).2) (src fi) = Some (File ms data) /\
    resolve (fs (sync_file fi w).2) (dest fi) = Some (File ms data).
Proof.
  intros Hd. destruct (sync_file fi w) as [r w'] eqn:Hrun. simpl. intros ->.
  revert Hrun. unfold sync_file. unfold try_except at 1.
  destruct (dest fi) as [|c q] eqn:Edest.
  { simpl in Hd. injection Hd as Hfs.
    unfold mbind at 1, M_bind at 1. change (parent []) with (@nil string).
    rewrite (mkdir_parents_root_file _ _ _ Hfs). simpl. discriminate. }
  rewrite <- Edest in *.
  destruct (resolve_parent (dest fi) (fs w) _ ltac:(by rewrite Edest) Hd) as (pm & pes & Hpar).
  unfold mbind at 1, M_bind at 1. rewrite (mkdir_parents_existing _ _ _ _ Hpar).
  unfold copy2, path_is_dir, copyfile. unfold_monad. simpl. rewrite Hd. simpl.
  destruct (decide (src fi = dest fi)) as [Heq|Hne].
  { rewrite Heq, bool_decide_eq_true_2 by done. rewrite Hd.
    rewrite bool_decide_eq_true_2 by eauto. simpl. discriminate. }
  rewrite (bool_decide_eq_false_2 (src fi = dest fi)) by done. simpl.
  rewrite open_read_run. unfold read_of.
  destruct (resolve (fs w) (src fi)) as [[ms data|ms es]|] eqn:Hs; simpl; try discriminate.
  destruct (readable ms) eqn:Hrs; simpl; [|discriminate].
  unfold open_write. unfold_monad. simpl. rewrite Hd.
  destruct (writable md); simpl; [|discriminate].
  unfold copystat. unfold_monad. simpl.
  set (n1 := place (fs w) (dest fi) (File md data)).
  assert (Hs1 : resolve n1 (src fi) = Some (File ms data)).
  { eapply resolve_place_other; eauto. }
  assert (Hd1 : resolve n1 (dest fi) = Some (File md data)).
  { eapply resolve_place_eq; eauto. }
  rewrite Hs1, Hd1. simpl. intros [= <-]. simpl. exists ms, data. repeat split; try done.
  - eapply resolve_place_other; eauto.
  - eapply resolve_place_eq; eauto.
Qed.

(** The round trip holds whenever the target is a regular file: after a
    successful [sync_file], [compare_files] answers "identical". *)
Lemma resync_of_regular_target_is_identical fi w md dd :
  resolve (fs w) (dest fi) = Some (File md dd) ->
  (sync_file fi w).1 = Ok true ->
  (compare_files (src fi) (dest fi) (sync_file fi w).2).1 = Ok "identical".
Proof.
  intros Hd Hok.
  destruct (sync_file_onto_regular fi w md dd Hd Hok) as (ms & data & _ & Hr & Hs & Hd').
  rewrite compare_files_run. simpl. unfold compare_result, hash_of, read_of.
  rewrite Hs, Hd', Hr. by rewrite bool_decide_eq_true_2.
Qed.

(** ** Soundness of the matcher: every matching block is a real match *)

Lemma same_at_refl a b x y e :
  a !! x = Some e -> b !! y = Some e -> difflib.same_at a b x y = true.
Proof. intros Ha Hb. unfold difflib.same_at. rewrite Ha, Hb. apply String.eqb_refl. Qed.

Lemma chain_b_sound b e js j :
  difflib.chain_b b !! e = Some js -> j ∈ js -> b !! j = Some e.
Proof.
  unfold difflib.chain_b.
  set (step := fun (m : gmap string (list nat)) (ie : nat * string) =>
                 <[ie.2 := default [] (m !! ie.2) ++ [ie.1]]> m).
  assert (Hfold : forall l (m : gmap string (list nat)),
    Forall (fun ie : nat * string => b !! ie.1 = Some ie.2) l ->
    (forall e js j, m !! e = Some js -> j ∈ js -> b !! j = Some e) ->
    forall e js j, foldl step m l !! e = Some js -> j ∈ js -> b !! j = Some e).
  { induction l as [|[i x] l IH]; intros m Hl Hm; simpl; [done|].
    inversion Hl as [|? ? Hix Hl']; subst. apply IH; [done|].
    intros e' js' j' Hlook Hj. unfold step in Hlook. simpl in *.
    apply lookup_insert_Some in Hlook as [[<- <-]|[Hne Hlook]]; [|by eapply Hm].
    apply elem_of_app in Hj as [Hj|Hj].
    - destruct (m !! x) as [old|] eqn:Hold; simpl in Hj; [by eapply Hm|].
      by apply elem_of_nil in Hj.
    - apply list_elem_of_singleton in Hj. by subst. }
  assert (Hall : forall e js j,
    foldl step ∅ (imap pair b) !! e = Some js -> j ∈ js -> b !! j = Some e).
  { apply Hfold; [|intros ? ? ? Hl; by rewrite lookup_empty in Hl].
    apply Forall_forall. intros [i x] Hin.
    apply elem_of_lookup_imap in Hin as (i' & x' & [= -> ->] & Hx). done. }
  case_bool_decide; [|apply Hall].
  intros Hlook. apply map_lookup_filter_Some in Hlook as [Hlook _]. by eapply Hall.
Qed.

Lemma scan_js_sound a b e js blo bhi i :
  a !! i = Some e ->
  forall j2len newj2len best,
  Forall (fun j => b !! j = Some e) js ->
  row_before a b i j2len -> row_before a b (S i) newj2len -> matches a b best ->
  row_before a b (S i) (difflib.scan_js js blo bhi i j2len newj2len best).1 /\
  matches a b (difflib.scan_js js blo bhi i j2len newj2len best).2.
Proof.
  intros Ha. induction js as [|j r IH]; intros j2len newj2len best Hjs Hprev Hnew Hbest;
    simpl; [done|].
  inversion Hjs as [|? ? Hj Hr]; subst.
  destruct (j <? blo); [by apply IH|].
  destruct (bhi <=? j); [done|].
  set (k := match j with O => 0 | S j' => default 0 (j2len !! j') end + 1).
  assert (Hk : 1 <= k /\ k <= S i /\ k <= j + 1 /\
               forall t, t < k -> difflib.same_at a b (i - t) (j - t) = true).
  { subst k. destruct j as [|j'].
    - simpl. repeat split; try lia. intros t Ht. assert (t = 0) as -> by lia.
      rewrite !Nat.sub_0_r. by eapply same_at_refl.
    - destruct (j2len !! j') as [v|] eqn:Hv; simpl.
      + destruct (Hprev j' v Hv) as (H1 & H2 & H3 & H4). repeat split; try lia.
        intros [|t] Ht.
        * rewrite !Nat.sub_0_r. by eapply same_at_refl.
        * replace (i - S t) with (i - 1 - t) by lia.
          replace (S j' - S t) with (j' - t) by lia. apply H4. lia.
      + repeat split; try lia. intros t Ht. assert (t = 0) as -> by lia.
        rewrite !Nat.sub_0_r. by eapply same_at_refl. }
  destruct Hk as (Hk1 & Hk2 & Hk3 & Hk4).
  apply IH; [done|done| |].
  - intros j0 v Hlook. apply lookup_insert_Some in Hlook as [[<- <-]|[Hne Hlook]].
    + repeat split; try lia. intros t Ht. replace (S i - 1 - t) with (i - t) by lia.
      by apply Hk4.
    + by apply Hnew.
  - destruct (best.2 <? k); [|done].
    intros t Ht. simpl in *.
    replace (i + 1 - k + t) with (i - (k - 1 - t)) by lia.
    replace (j + 1 - k + t) with (j - (k - 1 - t)) by lia.
    apply Hk4. lia.
Qed.

Lemma rows_sound a b blo bhi : forall n alo st,
  row_before a b alo st.1 -> matches a b st.2 ->
  matches a b
    (foldl (fun (st : gmap nat nat * difflib.block) (i : nat) =>
              let js := default [] (a !! i ≫= fun e => difflib.chain_b b !! e) in
              difflib.scan_js js blo bhi i st.1 ∅ st.2)
           st (seq alo n)).2.
Proof.
  induction n as [|n IH]; intros alo st Hrow Hbest; simpl; [done|].
  assert (Hempty : row_before a b (S alo) ∅).
  { intros j v Hl. by rewrite lookup_empty in Hl. }
  destruct (a !! alo) as [e|] eqn:Ha; simpl.
  - destruct (difflib.chain_b b !! e) as [js|] eqn:Hjs; simpl.
    + destruct (scan_js_sound a b e js blo bhi alo Ha st.1 ∅ st.2) as [H1 H2]; try done.
      { apply Forall_forall. intros j Hj. by eapply chain_b_sound. }
      by apply IH.
    + by apply IH.
  - by apply IH.
Qed.

Lemma extend_back_sound a b alo blo : forall besti bestj bestsize,
  matches a b (besti, bestj, bestsize) ->
  matches a b (difflib.extend_back a b alo blo besti bestj bestsize).
Proof.
  induction besti as [|i' IH]; intros bestj bestsize Hm; simpl; [done|].
  destruct bestj as [|j']; [done|].
  destruct (_ && _) eqn:Hc; [|done].
  apply andb_prop in Hc as [_ Hsame]. apply IH.
  intros [|t] Ht; simpl in *.
  - by rewrite !Nat.add_0_r.
  - replace (i' + S t) with (S i' + t) by lia. replace (j' + S t) with (S j' + t) by lia.
    apply Hm. simpl. lia.
Qed.

Lemma extend_forward_sound a b bhi besti bestj : forall room bestsize,
  matches a b (besti, bestj, bestsize) ->
  matches a b (besti, bestj, difflib.extend_forward a b bhi besti bestj bestsize room).
Proof.
  induction room as [|room IH]; intros bestsize Hm; simpl; [done|].
  destruct (_ && _) eqn:Hc; [|done].
  apply andb_prop in Hc as [_ Hsame]. apply IH.
  intros t Ht; simpl in *. destruct (decide (t = bestsize)) as [->|Hne]; [done|].
  apply Hm. simpl. lia.
Qed.

Lemma find_longest_match_sound a b alo ahi blo bhi :
  matches a b (difflib.find_longest_match a b (difflib.chain_b b) alo ahi blo bhi).
Proof.
  unfold difflib.find_longest_match.
  pose proof (rows_sound a b blo bhi (ahi - alo) alo (∅, (alo, blo, 0))) as Hrows.
  destruct (foldl _ _ _) as [m [[bi bj] bs]]. simpl in Hrows.
  assert (Hm : matches a b (bi, bj, bs)).
  { apply Hrows; [intros j v Hl; by rewrite lookup_empty in Hl | intros t Ht; simpl in *; lia]. }
  apply (extend_back_sound a b alo blo) in Hm.
  destruct (difflib.extend_back a b alo blo bi bj bs) as [[bi' bj'] bs'].
  by apply extend_forward_sound.
Qed.

Lemma match_loop_sound a b : forall turns queue found,
  Forall (matches a b) found ->
  Forall (matches a b) (difflib.match_loop turns a b (difflib.chain_b b) queue found).
Proof.
  induction turns as [|turns IH]; intros queue found Hf; simpl; [done|].
  destruct queue as [|[[[alo ahi] blo] bhi] queue']; [done|].
  pose proof (find_longest_match_sound a b alo ahi blo bhi) as Hm.
  destruct (difflib.find_longest_match _ _ _ _ _ _ _) as [[i j] k].
  destruct k as [|k]; [by apply IH|].
  apply IH. apply Forall_app. split; [done|]. by constructor.
Qed.

Lemma sort_blocks_sound (P : difflib.block -> Prop) l :
  Forall P l -> Forall P (difflib.sort_blocks l).
Proof.
  unfold difflib.sort_blocks. induction 1 as [|x l Hx Hl IH]; simpl; [constructor|].
  revert IH. generalize (foldr difflib.insert_block [] l). intros s Hs.
  induction Hs as [|y s Hy Hs IHs]; simpl; [by repeat constructor|].
  destruct (difflib.block_leb x y); by repeat constructor.
Qed.

(** Collapsing keeps real matches, and only emits non-empty blocks. *)
Lemma collapse_sound a b : forall l i1 j1 k1,
  Forall (matches a b) l -> matches a b (i1, j1, k1) ->
  Forall (fun blk => matches a b blk /\ blk.2 <> 0) (difflib.collapse l i1 j1 k1).
Proof.
  induction l as [|[[i2 j2] k2] r IH]; intros i1 j1 k1 Hl Hm; simpl.
  - destruct k1; [constructor|]. by repeat constructor.
  - inversion Hl as [|? ? H2 Hr]; subst.
    destruct (_ && _) eqn:Hadj.
    + apply andb_prop in Hadj as [Hi Hj].
      apply Nat.eqb_eq in Hi, Hj. apply IH; [done|].
      intros t Ht; simpl in *. destruct (decide (t < k1)) as [Hlt|Hge]; [by apply Hm|].
      replace (i1 + t) with (i2 + (t - k1)) by lia.
      replace (j1 + t) with (j2 + (t - k1)) by lia. apply H2. simpl. lia.
    + apply Forall_app. split; [|by apply IH].
      destruct k1; [constructor|]. by repeat constructor.
Qed.

Lemma matching_blocks_sound a b :
  exists real,
    difflib.get_matching_blocks a b = real ++ [(length a, length b, 0)] /\
    Forall (fun blk => matches a b blk /\ blk.2 <> 0) real.
Proof.
  unfold difflib.get_matching_blocks. eexists; split; [reflexivity|].
  apply collapse_sound; [|intros t Ht; simpl in *; lia].
  apply sort_blocks_sound, match_loop_sound. constructor.
Qed.

(** ** An empty diff means equal sequences *)

Lemma group_loop_nil n : forall codes group,
  difflib.group_loop n codes group = [] ->
  group ++ codes = [] \/ exists i1 i2 j1 j2, group ++ codes = [(difflib.Equal, i1, i2, j1, j2)].
Proof.
  induction codes as [|[[[[t i1] i2] j1] j2] r IH]; intros group Hnil; simpl in Hnil.
  - rewrite app_nil_r. destruct group as [|[[[[t i1] i2] j1] j2] [|c g]]; [by left| |].
    + destruct t; try done. right. eauto.
    + by destruct t.
  - destruct (_ && _); [done|].
    apply IH in Hnil. by rewrite <- app_assoc in Hnil.
Qed.

Lemma trim_first_length n codes :
  length (difflib.trim_first n codes) = length codes.
Proof. destruct codes as [|[[[[[] ?] ?] ?] ?] r]; done. Qed.

Lemma trim_last_length n codes :
  length (difflib.trim_last n codes) = length codes.
Proof.
  induction codes as [|[[[[t ?] ?] ?] ?] r IH]; [done|].
  destruct t, r; simpl in *; by rewrite ?IH.
Qed.

Lemma trim_first_single n codes i1 i2 j1 j2 :
  difflib.trim_first n codes = [(difflib.Equal, i1, i2, j1, j2)] ->
  exists i1' j1', codes = [(difflib.Equal, i1', i2, j1', j2)].
Proof.
  intros H. pose proof (trim_first_length n codes) as Hlen. rewrite H in Hlen.
  destruct codes as [|[[[[t a1] a2] b1] b2] [|c r]]; try done.
  destruct t; simpl in H; simplify_eq; eauto.
Qed.

Lemma trim_last_single n codes i1 i2 j1 j2 :
  difflib.trim_last n codes = [(difflib.Equal, i1, i2, j1, j2)] ->
  exists i2' j2', codes = [(difflib.Equal, i1, i2', j1, j2')].
Proof.
  intros H. pose proof (trim_last_length n codes) as Hlen. rewrite H in Hlen.
  destruct codes as [|[[[[t a1] a2] b1] b2] [|c r]]; try done.
  destruct t; simpl in H; simplify_eq; eauto.
Qed.

Lemma trim_last_nil n codes : difflib.trim_last n codes = [] -> codes = [].
Proof.
  intros H. pose proof (trim_last_length n codes) as Hlen. rewrite H in Hlen.
  by destruct codes.
Qed.

Lemma trim_first_nil n codes : difflib.trim_first n codes = [] -> codes = [].
Proof.
  intros H. pose proof (trim_first_length n codes) as Hlen. rewrite H in Hlen.
  by destruct codes.
Qed.

Lemma grouped_nil a b n :
  difflib.get_grouped_opcodes a b n = [] ->
  difflib.get_opcodes a b = [] \/
  exists i1 i2 j1 j2, difflib.get_opcodes a b = [(difflib.Equal, i1, i2, j1, j2)].
Proof.
  unfold difflib.get_grouped_opcodes. intros Hnil.
  apply group_loop_nil in Hnil. simpl in Hnil.
  destruct Hnil as [Hnil|(i1 & i2 & j1 & j2 & Hone)].
  - apply trim_last_nil, trim_first_nil in Hnil. by destruct (difflib.get_opcodes a b).
  - apply trim_last_single in Hone as (i2' & j2' & Hone).
    apply trim_first_single in Hone as (i1' & j1' & Hone).
    destruct (difflib.get_opcodes a b) as [|c r]; [by left|]. right. eauto.
Qed.

Lemma matches_prefix a b k :
  matches a b (0, 0, k) -> length a <= k -> length b <= k -> a = b.
Proof.
  intros Hm Ha Hb. apply list_eq. intros t.
  destruct (decide (t < k)) as [Hlt|Hge].
  - specialize (Hm t Hlt). simpl in Hm. unfold difflib.same_at in Hm.
    destruct (a !! t) as [u|], (b !! t) as [v|]; try done.
    apply String.eqb_eq in Hm. by subst.
  - rewrite (proj2 (lookup_ge_None a t)), (proj2 (lookup_ge_None b t)) by lia. done.
Qed.

Lemma opcodes_equal_only a b real :
  Forall (fun blk => matches a b blk /\ blk.2 <> 0) real ->
  (difflib.opcodes_from (real ++ [(length a, length b, 0)]) 0 0 = [] \/
   exists i1 i2 j1 j2,
     difflib.opcodes_from (real ++ [(length a, length b, 0)]) 0 0 =
       [(difflib.Equal, i1, i2, j1, j2)]) ->
  a = b.
Proof.
  intros Hreal Hcodes. destruct real as [|[[i1 j1] k1] rest]; simpl in Hcodes.
  - (* no matching block at all: both sequences are empty *)
    destruct a as [|x a], b as [|y b]; simpl in Hcodes; try done;
      destruct Hcodes as [?|(? & ? & ? & ? & ?)]; done.
  - inversion Hreal as [|? ? [Hm Hk] Hrest]; subst. simpl in Hk.
    destruct k1 as [|k1]; [done|].
    destruct (0 <? i1) eqn:Hi; simpl in Hcodes.
    { destruct (0 <? j1); simpl in Hcodes;
        destruct Hcodes as [?|(? & ? & ? & ? & ?)]; done. }
    destruct (0 <? j1) eqn:Hj; simpl in Hcodes.
    { destruct Hcodes as [?|(? & ? & ? & ? & ?)]; done. }
    apply Nat.ltb_ge in Hi, Hj. assert (i1 = 0) as -> by lia. assert (j1 = 0) as -> by lia.
    destruct Hcodes as [?|(? & ? & ? & ? & Hcodes)]; [done|].
    injection Hcodes as _ _ _ _ Htail. simpl in Htail.
    destruct rest as [|[[i2 j2] k2] rest']; simpl in Htail.
    + destruct (S k1 <? length a) eqn:Ha; simpl in Htail.
      { by destruct (S k1 <? length b). }
      destruct (S k1 <? length b) eqn:Hb; simpl in Htail; [done|].
      apply Nat.ltb_ge in Ha, Hb. by eapply matches_prefix.
    + inversion Hrest as [|? ? [_ Hk2] _]; subst. simpl in Hk2.
      destruct k2; [done|]. by repeat (case_match; simpl in Htail).
Qed.

(** An empty unified diff is only produced for equal sequences. *)
Lemma unified_diff_nil a b fromfile tofile lineterm :
  difflib.unified_diff a b fromfile tofile lineterm = [] -> a = b.
Proof.
  unfold difflib.unified_diff. intros Hnil.
  destruct (difflib.get_grouped_opcodes a b 3) as [|g gs] eqn:Hg; [|done].
  apply grouped_nil in Hg. unfold difflib.get_opcodes in Hg.
  destruct (matching_blocks_sound a b) as (real & Hblocks & Hreal).
  rewrite Hblocks in Hg. by eapply opcodes_equal_only.
Qed.

(** ** Completeness of the index: equal sequences give an empty diff *)

Lemma chain_fold_indexed b :
  indexed b
    (foldl (fun (m : gmap string (list nat)) (ie : nat * string) =>
              <[ie.2 := default [] (m !! ie.2) ++ [ie.1]]> m) ∅ (imap pair b)).
Proof.
  induction b as [|x b IH] using rev_ind.
  - intros e. simpl. rewrite lookup_empty. intros j. by rewrite lookup_nil.
  - rewrite imap_app, foldl_app. simpl. rewrite Nat.add_0_r.
    set (m := foldl _ ∅ (imap pair b)) in *.
    intros e. destruct (decide (x = e)) as [<-|Hne].
    + rewrite lookup_insert_eq. specialize (IH x).
      assert (Hold : StronglySorted lt (default [] (m !! x)) /\
                     forall j, j ∈ default [] (m !! x) <-> b !! j = Some x).
      { destruct (m !! x) as [js|]; simpl; [done|]. split; [constructor|].
        intros j. rewrite elem_of_nil. split; [done|]. apply IH. }
      destruct Hold as [Hsort Hmem]. split.
      * apply StronglySorted_app_2; [|done|repeat constructor].
        intros j y Hj Hy. apply list_elem_of_singleton in Hy as ->.
        apply Hmem in Hj. by apply lookup_lt_Some in Hj.
      * intros j. rewrite elem_of_app, list_elem_of_singleton, Hmem.
        rewrite lookup_snoc_Some. split.
        -- intros [H| ->]; [left|by right]. split; [by apply lookup_lt_Some in H|done].
        -- intros [[_ H]|[-> _]]; [by left | by right].
    + rewrite lookup_insert_ne by done. specialize (IH e).
      assert (Hsame : forall j, (b ++ [x]) !! j = Some e <-> b !! j = Some e).
      { intros j. rewrite lookup_snoc_Some. split.
        - intros [[_ H]|[_ H]]; [done | by destruct Hne].
        - intros H. left. split; [by apply lookup_lt_Some in H | done]. }
      destruct (m !! e) as [js|].
      * destruct IH as [Hsort Hmem]. split; [done|]. intros j. by rewrite Hmem, Hsame.
      * intros j. rewrite Hsame. apply IH.
Qed.

Lemma chain_b_complete b e js :
  difflib.chain_b b !! e = Some js ->
  StronglySorted lt js /\ forall j, j ∈ js <-> b !! j = Some e.
Proof.
  unfold difflib.chain_b. pose proof (chain_fold_indexed b e) as H.
  case_bool_decide.
  - intros Hl. apply map_lookup_filter_Some in Hl as [Hl _]. by rewrite Hl in H.
  - intros Hl. by rewrite Hl in H.
Qed.

Lemma keys_inv a i j :
  j ∈ keys a i ->
  exists e js, a !! i = Some e /\ difflib.chain_b a !! e = Some js /\ keys a i = js /\
               a !! j = Some e.
Proof.
  unfold keys. destruct (a !! i) as [e|] eqn:Hi; simpl; [|by rewrite elem_of_nil].
  destruct (difflib.chain_b a !! e) as [js|] eqn:Hjs; simpl; [|by rewrite elem_of_nil].
  intros Hj. exists e, js. repeat split; try done.
  by apply (chain_b_complete a e js Hjs).
Qed.

Lemma keys_same a i j : j ∈ keys a i -> keys a j = keys a i.
Proof.
  intros Hj. destruct (keys_inv a i j Hj) as (e & js & Hi & Hjs & Hk & Hje).
  unfold keys. by rewrite Hi, Hje.
Qed.

Lemma keys_sorted a i : StronglySorted lt (keys a i).
Proof.
  unfold keys. destruct (a !! i) as [e|]; simpl; [|constructor].
  destruct (difflib.chain_b a !! e) as [js|] eqn:Hjs; simpl; [|constructor].
  by apply (chain_b_complete a e js Hjs).
Qed.

Lemma keys_self a i : keys a i <> [] -> i ∈ keys a i.
Proof.
  unfold keys. destruct (a !! i) as [e|] eqn:Hi; simpl; [|done].
  destruct (difflib.chain_b a !! e) as [js|] eqn:Hjs; simpl; [|done].
  intros _. by apply (chain_b_complete a e js Hjs).
Qed.

Lemma keys_lt a i j : j ∈ keys a i -> j < length a.
Proof.
  intros Hj. destruct (keys_inv a i j Hj) as (e & js & _ & _ & _ & Hje).
  by apply lookup_lt_Some in Hje.
Qed.

Lemma run_kept a i : keys a i <> [] -> run a i = S (prev_run a i).
Proof. destruct i; simpl; by destruct (keys a _). Qed.

Lemma run_purged a i : keys a i = [] -> run a i = 0.
Proof. destruct i; simpl; by intros ->. Qed.

Lemma run_le a i : run a i <= S i.
Proof.
  induction i as [|i IH]; simpl.
  - destruct (keys a 0); lia.
  - destruct (keys a (S i)); simpl in *; lia.
Qed.

Lemma scan_js_diag a i m :
  row_diag a i m -> keys a i <> [] ->
  forall rem newm best,
  StronglySorted lt rem -> (forall j, j ∈ rem -> j ∈ keys a i) ->
  (forall j v, newm !! j = Some v -> v <= run a i /\ v <= run a j) ->
  (if decide (i ∈ rem) then newm !! i = None else newm !! i = Some (run a i)) ->
  (exists x s, best = (x, x, s) /\ x + s <= S i /\ (forall j, j < i -> run a j <= s) /\
               (i ∉ rem -> run a i <= s)) ->
  let r := difflib.scan_js rem 0 (length a) i m newm best in
  (forall j v, r.1 !! j = Some v -> v <= run a i /\ v <= run a j) /\
  r.1 !! i = Some (run a i) /\
  best_diag a (S i) r.2.
Proof.
  intros [Hrow Hdiag] Hkept. unfold best_diag. induction rem as [|j rem IH];
    intros newm best Hsort Hrem Hnew Hi (x & s & -> & Hxs & Hbefore & Hafter); simpl.
  - rewrite decide_False in Hi by apply not_elem_of_nil.
    split; [exact Hnew|]. split; [done|].
    exists x, s. split; [done|]. split; [done|]. intros j Hj.
    destruct (decide (j = i)) as [->|]; [apply Hafter, not_elem_of_nil | apply Hbefore; lia].
  - apply StronglySorted_cons in Hsort as [Hhead Hsort].
    assert (Hj : j ∈ keys a i) by (apply Hrem; by left).
    pose proof (keys_lt a i j Hj) as Hjlt.
    rewrite (proj2 (Nat.leb_gt (length a) j)) by done.
    fold (prevlen m j). set (k := prevlen m j + 1).
    assert (Hrunj : run a j = S (prev_run a j)).
    { apply run_kept. rewrite (keys_same a i j Hj). done. }
    pose proof (run_kept a i Hkept) as Hruni.
    destruct (Hrow j) as [Hk1 Hk2].
    assert (Hi_tail : i ∉ rem -> j <> i -> i ∉ j :: rem).
    { intros H1 H2 Hin. apply elem_of_cons in Hin as [?|?]; by subst. }
    apply IH; clear IH.
    + done.
    + intros j' Hj'. apply Hrem. by right.
    + intros j' v Hl. apply lookup_insert_Some in Hl as [[<- <-]|[_ Hl]]; [|by apply Hnew].
      subst k. lia.
    + destruct (decide (j = i)) as [->|Hne].
      * rewrite decide_False.
        { rewrite lookup_insert_eq. subst k. rewrite Hdiag. f_equal. lia. }
        intros Hin. rewrite Forall_forall in Hhead. specialize (Hhead i Hin). lia.
      * rewrite lookup_insert_ne by done.
        destruct (decide (i ∈ rem)) as [Hin|Hnin].
        -- rewrite decide_True in Hi by (by right). done.
        -- destruct (decide (i ∈ j :: rem)) as [Hin'|Hnin'].
           ++ apply elem_of_cons in Hin' as [?|?]; by subst.
           ++ done.
    + simpl. destruct (decide (j = i)) as [->|Hne].
      * (* the diagonal entry *)
        assert (Hk : k = run a i) by (subst k; lia).
        assert (Hnin : i ∉ rem).
        { intros Hin. rewrite Forall_forall in Hhead. specialize (Hhead i Hin). lia. }
        destruct (s <? k) eqn:Hlt.
        -- apply Nat.ltb_lt in Hlt. exists (i + 1 - k), k. pose proof (run_le a i).
           repeat split; try lia. intros j Hj'. specialize (Hbefore j Hj'). lia.
        -- apply Nat.ltb_ge in Hlt. exists x, s. repeat split; try done. intros _. lia.
      * (* off the diagonal: never longer than the best so far *)
        assert (Hks : k <= s).
        { destruct (decide (j < i)) as [Hlt|Hge].
          - specialize (Hbefore j Hlt). subst k. lia.
          - assert (Hnin : i ∉ j :: rem).
            { intros Hin. apply elem_of_cons in Hin as [?|Hin]; [by subst|].
              rewrite Forall_forall in Hhead. specialize (Hhead i Hin). lia. }
            specialize (Hafter Hnin). subst k. lia. }
        rewrite (proj2 (Nat.ltb_ge s k)) by done.
        exists x, s. repeat split; try done. intros Hnin.
        destruct (decide (i ∈ j :: rem)) as [Hin|Hnin'].
        -- apply elem_of_cons in Hin as [?|?]; by subst.
        -- by apply Hafter.
Qed.

Lemma rows_diag a : forall n i st,
  row_diag a i st.1 -> best_diag a i st.2 ->
  best_diag a (i + n)
    (foldl (fun (st : gmap nat nat * difflib.block) (i : nat) =>
              let js := default [] (a !! i ≫= fun e => difflib.chain_b a !! e) in
              difflib.scan_js js 0 (length a) i st.1 ∅ st.2)
           st (seq i n)).2.
Proof.
  induction n as [|n IH]; intros i st Hrow Hbest; simpl.
  - by rewrite Nat.add_0_r.
  - replace (i + S n) with (S i + n) by lia. fold (keys a i).
    destruct (decide (keys a i = [])) as [Hnil|Hkept].
    + rewrite Hnil. simpl. apply IH; simpl.
      * split; [intros j; destruct j; simpl; rewrite ?lookup_empty; simpl; lia|].
        simpl. rewrite lookup_empty. simpl. by rewrite run_purged.
      * destruct Hbest as (x & s & -> & Hxs & Hb). exists x, s.
        repeat split; try lia. intros j Hj.
        destruct (decide (j = i)) as [->|]; [rewrite run_purged by done; lia | apply Hb; lia].
    + destruct Hbest as (x & s & Hbest & Hxs & Hb).
      destruct (scan_js_diag a i st.1 Hrow Hkept (keys a i) ∅ st.2) as (Hnew & Hdiag & Hbest').
      * apply keys_sorted.
      * done.
      * intros j v Hl. by rewrite lookup_empty in Hl.
      * rewrite decide_True by (by apply keys_self). apply lookup_empty.
      * exists x, s. repeat split; try done; [lia|]. intros Hnin.
        destruct Hnin. by apply keys_self.
      * apply IH; [|done]. split.
        -- intros [|j]; simpl; [lia|].
           destruct (_ !! j) as [v|] eqn:Hv; simpl; [|lia]. by apply Hnew.
        -- simpl. by rewrite Hdiag.
Qed.

Lemma same_at_diag a x : x < length a -> difflib.same_at a a x x = true.
Proof.
  intros Hx. apply lookup_lt_is_Some_2 in Hx as [e He].
  unfold difflib.same_at. rewrite He. apply String.eqb_refl.
Qed.

Lemma extend_back_diag a : forall x s,
  x <= length a -> difflib.extend_back a a 0 0 x x s = (0, 0, x + s).
Proof.
  induction x as [|x IH]; intros s Hx; simpl; [done|].
  rewrite same_at_diag by lia. simpl. rewrite IH by lia. do 2 f_equal. lia.
Qed.

Lemma extend_forward_diag a : forall room s,
  s + room = length a -> difflib.extend_forward a a (length a) 0 0 s room = length a.
Proof.
  induction room as [|room IH]; intros s Hs; simpl; [lia|].
  rewrite same_at_diag by lia. rewrite (proj2 (Nat.ltb_lt s (length a))) by lia.
  simpl. apply IH. lia.
Qed.

Lemma find_longest_match_same a :
  difflib.find_longest_match a a (difflib.chain_b a) 0 (length a) 0 (length a) =
    (0, 0, length a).
Proof.
  unfold difflib.find_longest_match.
  pose proof (rows_diag a (length a) 0 (∅, (0, 0, 0))) as Hrows.
  rewrite Nat.sub_0_r.
  destruct (foldl _ _ _) as [m best]. simpl in Hrows.
  destruct Hrows as (x & s & -> & Hxs & _).
  - split; [intros j; destruct j; simpl; rewrite ?lookup_empty; simpl; lia | done].
  - exists 0, 0. split; [done|]. split; [lia|]. intros j Hj. lia.
  - rewrite extend_back_diag by lia. rewrite extend_forward_diag by lia. done.
Qed.

Lemma match_loop_done turns a b b2j found :
  difflib.match_loop turns a b b2j [] found = found.
Proof. by destruct turns. Qed.

Lemma matching_blocks_same a :
  difflib.get_matching_blocks a a =
    match a with
    | [] => [(0, 0, 0)]
    | _ => [(0, 0, length a); (length a, length a, 0)]
    end.
Proof.
  unfold difflib.get_matching_blocks.
  replace (2 * length a + 1) with (S (2 * length a)) by lia.
  cbn [difflib.match_loop]. rewrite find_longest_match_same.
  destruct a as [|x a]; [by rewrite match_loop_done|].
  cbn [length]. rewrite Nat.ltb_irrefl. cbn [andb].
  replace (0 + S (length a) <? S (length a)) with false
    by (symmetry; apply Nat.ltb_ge; lia).
  cbn [andb app]. rewrite match_loop_done. reflexivity.
Qed.

(** Equal sequences give an empty unified diff. *)
Lemma unified_diff_same a fromfile tofile lineterm :
  difflib.unified_diff a a fromfile tofile lineterm = [].
Proof.
  unfold difflib.unified_diff, difflib.get_grouped_opcodes, difflib.get_opcodes.
  rewrite matching_blocks_same. destruct a as [|x a]; [reflexivity|].
  cbn [difflib.opcodes_from length]. rewrite !Nat.ltb_irrefl. cbn [andb app].
  cbn [difflib.trim_first difflib.trim_last difflib.group_loop difflib.is_equal andb].
  replace (3 + 3 <? _) with false by (symmetry; apply Nat.ltb_ge; lia).
  reflexivity.
Qed.

(** The unified diff is empty exactly when the sequences are equal. *)
Lemma unified_diff_nil_iff a b fromfile tofile lineterm :
  difflib.unified_diff a b fromfile tofile lineterm = [] <-> a = b.
Proof.
  split; [apply unified_diff_nil | intros ->; apply unified_diff_same].
Qed.

(** ** Termination of the work-list loop *)

Lemma scan_js_inside js alo ahi blo bhi i :
  alo <= i -> i < ahi ->
  forall j2len newj2len best,
  row_inside alo blo bhi i j2len -> row_inside alo blo bhi (S i) newj2len ->
  inside alo ahi blo bhi best ->
  row_inside alo blo bhi (S i) (difflib.scan_js js blo bhi i j2len newj2len best).1 /\
  inside alo ahi blo bhi (difflib.scan_js js blo bhi i j2len newj2len best).2.
Proof.
  intros Hlo Hhi. induction js as [|j r IH]; intros j2len newj2len best Hprev Hnew Hbest;
    simpl; [done|].
  destruct (j <? blo) eqn:Hjlo; [by apply IH|].
  destruct (bhi <=? j) eqn:Hjhi; [done|].
  apply Nat.ltb_ge in Hjlo. apply Nat.leb_gt in Hjhi.
  set (k := match j with O => 0 | S j' => default 0 (j2len !! j') end + 1).
  assert (Hk : 1 <= k /\ k + alo <= S i /\ k + blo <= j + 1).
  { subst k. destruct j as [|j']; [lia|].
    destruct (j2len !! j') as [v|] eqn:Hv; simpl; [|lia].
    destruct (Hprev j' v Hv) as (H1 & H2 & H3 & H4). lia. }
  apply IH; [done| |].
  - intros j0 v Hl. apply lookup_insert_Some in Hl as [[<- <-]|[_ Hl]]; [lia|by apply Hnew].
  - destruct (best.2 <? k); [|done]. unfold inside. simpl. lia.
Qed.

Lemma rows_inside (a : list string) (b2j : gmap string (list nat)) ahi blo bhi :
  forall n alo i st,
  alo <= i -> i + n <= ahi ->
  row_inside alo blo bhi i st.1 -> inside alo ahi blo bhi st.2 ->
  inside alo ahi blo bhi
    (foldl (fun (st : gmap nat nat * difflib.block) (i : nat) =>
              let js := default [] (a !! i ≫= fun e => b2j !! e) in
              difflib.scan_js js blo bhi i st.1 ∅ st.2)
           st (seq i n)).2.
Proof.
  induction n as [|n IH]; intros alo i st Hlo Hhi Hrow Hbest; simpl; [done|].
  destruct (scan_js_inside (default [] (a !! i ≫= fun e => b2j !! e)) alo ahi blo bhi i
              Hlo ltac:(lia) st.1 ∅ st.2) as [H1 H2]; try done.
  apply IH; [lia|lia|done|done].
Qed.

Lemma extend_back_inside a b alo ahi blo bhi : forall besti bestj bestsize,
  inside alo ahi blo bhi (besti, bestj, bestsize) ->
  inside alo ahi blo bhi (difflib.extend_back a b alo blo besti bestj bestsize).
Proof.
  induction besti as [|i' IH]; intros bestj bestsize Hin; simpl; [done|].
  destruct bestj as [|j']; [done|].
  destruct (alo <? S i') eqn:H1; simpl; [|done].
  destruct (blo <? S j') eqn:H2; simpl; [|done].
  destruct (difflib.same_at a b i' j'); [|done].
  apply Nat.ltb_lt in H1, H2. apply IH. unfold inside in *. simpl in *. lia.
Qed.

Lemma extend_forward_inside a b ahi bhi besti bestj : forall room bestsize,
  besti + bestsize + room <= ahi -> bestj + bestsize <= bhi ->
  besti + difflib.extend_forward a b bhi besti bestj bestsize room <= ahi /\
  bestj + difflib.extend_forward a b bhi besti bestj bestsize room <= bhi /\
  bestsize <= difflib.extend_forward a b bhi besti bestj bestsize room.
Proof.
  induction room as [|room IH]; intros bestsize Ha Hb; simpl; [lia|].
  destruct (bestj + bestsize <? bhi) eqn:H1; simpl; [|lia].
  destruct (difflib.same_at a b _ _); [|lia].
  apply Nat.ltb_lt in H1. destruct (IH (S bestsize)) as (? & ? & ?); lia.
Qed.

Lemma find_longest_match_inside a b b2j alo ahi blo bhi :
  alo <= ahi -> blo <= bhi ->
  inside alo ahi blo bhi (difflib.find_longest_match a b b2j alo ahi blo bhi).
Proof.
  intros Ha Hb. unfold difflib.find_longest_match.
  pose proof (rows_inside a b2j ahi blo bhi (ahi - alo) alo alo (∅, (alo, blo, 0))) as Hrows.
  destruct (foldl _ _ _) as [m [[bi bj] bs]]. simpl in Hrows.
  assert (Hin : inside alo ahi blo bhi (bi, bj, bs)).
  { apply Hrows; [lia|lia| |unfold inside; simpl; lia].
    intros j v Hl. by rewrite lookup_empty in Hl. }
  apply (extend_back_inside a b) in Hin.
  destruct (difflib.extend_back a b alo blo bi bj bs) as [[bi' bj'] bs'].
  unfold inside in *. simpl in *.
  destruct (extend_forward_inside a b ahi bhi bi' bj' (ahi - (bi' + bs')) bs') as (?&?&?); lia.
Qed.

Lemma weight_app q1 q2 : weight (q1 ++ q2) = weight q1 + weight q2.
Proof. unfold weight. by rewrite sum_list_with_app. Qed.

Lemma weight_cons alo ahi blo bhi q :
  weight ((alo, ahi, blo, bhi) :: q) = 2 * (ahi - alo) + 1 + weight q.
Proof. reflexivity. Qed.

(** More turns than the weight of the work list change nothing: the loop
    has stopped on an empty list. *)
Lemma match_loop_enough a b b2j : forall turns extra queue found,
  Forall region_ok queue -> weight queue <= turns ->
  difflib.match_loop (turns + extra) a b b2j queue found =
  difflib.match_loop turns a b b2j queue found.
Proof.
  induction turns as [|turns IH]; intros extra queue found Hok Hw.
  - destruct queue as [|[[[alo ahi] blo] bhi] q]; [by rewrite !match_loop_done|].
    rewrite weight_cons in Hw. lia.
  - destruct queue as [|[[[alo ahi] blo] bhi] queue']; [by rewrite !match_loop_done|].
    inversion Hok as [|? ? [Hr1 Hr2] Hok']; subst. simpl in Hr1, Hr2.
    rewrite weight_cons in Hw.
    change (S turns + extra) with (S (turns + extra)). cbn [difflib.match_loop].
    pose proof (find_longest_match_inside a b b2j alo ahi blo bhi Hr1 Hr2) as Hin.
    destruct (difflib.find_longest_match a b b2j alo ahi blo bhi) as [[i j] k].
    unfold inside in Hin. simpl in Hin.
    destruct k as [|k]; [apply IH; [done|lia]|].
    apply IH.
    + apply Forall_app. split; [|apply Forall_app; split; [|done]].
      * destruct ((i + S k <? ahi) && (j + S k <? bhi)); repeat constructor; simpl; lia.
      * destruct ((alo <? i) && (blo <? j)); repeat constructor; simpl; lia.
    + rewrite !weight_app.
      assert (H1 : weight (if (alo <? i) && (blo <? j) then [(alo, i, blo, j)] else [])
                   <= 2 * (i - alo) + 1).
      { destruct ((alo <? i) && (blo <? j)); [rewrite weight_cons|];
          unfold weight; simpl; lia. }
      assert (H2 : weight (if (i + S k <? ahi) && (j + S k <? bhi)
                           then [(i + S k, ahi, j + S k, bhi)] else [])
                   <= 2 * (ahi - (i + S k)) + 1).
      { destruct ((i + S k <? ahi) && (j + S k <? bhi)); [rewrite weight_cons|];
          unfold weight; simpl; lia. }
      lia.
Qed.

(** [get_matching_blocks] gives its loop enough turns. *)
Lemma matching_blocks_turns a b extra :
  difflib.match_loop (2 * length a + 1 + extra) a b (difflib.chain_b b)
    [(0, length a, 0, length b)] [] =
  difflib.match_loop (2 * length a + 1) a b (difflib.chain_b b)
    [(0, length a, 0, length b)] [].
Proof.
  apply match_loop_enough.
  - repeat constructor; simpl; lia.
  - rewrite weight_cons. unfold weight. simpl. lia.
Qed.

(** ** The claims *)

Lemma compare_result_cases n s d :
  compare_result n s d = "new" \/ compare_result n s d = "identical" \/
  compare_result n s d = "modified".
Proof.
  unfold compare_result. destruct (resolve n d); [|by left].
  destruct (bool_decide _); auto.
Qed.

(** Whenever the target exists and a hash fails, the verdict is still
    "identical" (both fail) or "modified" (one fails). *)
Lemma hash_failure_is_masked n s d :
  is_Some (resolve n d) ->
  (hash_of n s = None /\ hash_of n d = None -> compare_result n s d = "identical") /\
  (hash_of n s = None /\ hash_of n d <> None -> compare_result n s d = "modified") /\
  (hash_of n s <> None /\ hash_of n d = None -> compare_result n s d = "modified").
Proof.
  intros [x Hx]. unfold compare_result. rewrite Hx. repeat split.
  - intros [-> ->]. by rewrite bool_decide_eq_true_2.
  - intros [-> Hd]. by rewrite bool_decide_eq_false_2.
  - intros [Hs ->]. by rewrite bool_decide_eq_false_2.
Qed.

(** C1 (the code departs from it): hashing the unreadable target
    [/etc/secret] fails, and [compare_files] classifies the pair as
    "modified"; hashing fails on both sides of [etc/locked], whose
    contents differ, and the pair is classified as "identical". No
    error status is produced. *)
Theorem compare_masks_hash_failure :
  let secret := ["etc"; "secret"] in
  let locked := ["etc"; "locked"] in
  read_of Sample.tree secret = Raise (PermissionError secret) /\
  (file_hash secret Sample.w0).1 = Ok None /\
  (compare_files (Sample.over secret) secret Sample.w0).1 = Ok "modified" /\
  (file_hash (Sample.over locked) Sample.w0).1 = Ok None /\
  (file_hash locked Sample.w0).1 = Ok None /\
  (compare_files (Sample.over locked) locked Sample.w0).1 = Ok "identical".
Proof. vm_compute. repeat split. Qed.

(** C10: [file_hash] never raises: it answers the digest of a readable
    file and [None] when opening fails. Hence the body of the [try] in
    [compare_files] never raises either, [compare_files] only answers
    "new", "identical" or "modified", and after any scan no candidate
    carries an error status. *)
Theorem file_hash_total_no_error_status :
  (forall p w,
     (file_hash p w).1 =
       Ok (match read_of (fs w) p with
           | Ok data => Some (MD5.hexdigest_of data)
           | Raise _ => None
           end)) /\
  (forall s d w, exists st, (compare_hashes s d w).1 = Ok st) /\
  (forall s d w,
     (compare_files s d w).1 = Ok "new" \/ (compare_files s d w).1 = Ok "identical" \/
     (compare_files s d w).1 = Ok "modified") /\
  (forall w, exists b,
     (check_system_folder w).1 = Ok b /\
     Forall (fun fi => (status fi = "new" \/ status fi = "modified") /\
                       String.prefix "error" (status fi) = false)
            (if b then files_to_sync (self (check_system_folder w).2) else [])).
Proof.
  repeat split.
  - intros p w. by rewrite file_hash_run.
  - intros s d w. rewrite compare_hashes_run. eauto.
  - intros s d w. rewrite compare_files_run. simpl.
    destruct (compare_result_cases (fs w) s d) as [->|[->| ->]]; auto.
  - intros w. destruct (resolve (fs w) (system_path (self w))) as [x|] eqn:Hx.
    + destruct (check_system_folder_found w x Hx) as (w' & -> & _ & _ & _ & Hall).
      exists true. split; [done|]. simpl.
      eapply Forall_impl; [apply Hall|]. intros fi [Hst Hne].
      destruct (compare_result_cases (fs w) (src fi) (dest fi)) as [E|[E|E]];
        rewrite <- Hst in E; [|done|]; rewrite E; auto.
    + rewrite check_system_folder_missing by done. exists false. by split.
Qed.

(** C3: two readable files with the same bytes compare as "identical",
    and a scan records no candidate for such a pair. *)
Theorem identical_files_are_not_candidates w s d ms md data :
  resolve (fs w) s = Some (File ms data) -> readable ms = true ->
  resolve (fs w) d = Some (File md data) -> readable md = true ->
  (compare_files s d w).1 = Ok "identical" /\
  exists b, (check_system_folder w).1 = Ok b /\
    forall fi, fi ∈ (if b then files_to_sync (self (check_system_folder w).2) else []) ->
      ~ (src fi = s /\ dest fi = d).
Proof.
  intros Hs Hrs Hd Hrd.
  assert (Hid : compare_result (fs w) s d = "identical").
  { unfold compare_result, hash_of, read_of. rewrite Hs, Hd, Hrs, Hrd.
    by rewrite bool_decide_eq_true_2. }
  split; [by rewrite compare_files_run, Hid|].
  destruct (resolve (fs w) (system_path (self w))) as [x|] eqn:Hx.
  - destruct (check_system_folder_found w x Hx) as (w' & -> & _ & _ & _ & Hall).
    exists true. split; [done|]. simpl. intros fi Hfi [Es Ed].
    rewrite Forall_forall in Hall. destruct (Hall fi Hfi) as [Hst Hne].
    apply Hne. by rewrite Hst, Es, Ed.
  - rewrite check_system_folder_missing by done. exists false. split; [done|].
    simpl. intros fi Hfi. by apply elem_of_nil in Hfi.
Qed.

Lemma identical_files_are_not_candidates_witness :
  let s := Sample.over ["etc"; "same.conf"] in
  let d := ["etc"; "same.conf"] in
  (compare_files s d Sample.w0).1 = Ok "identical" /\
  exists b, (check_system_folder Sample.w0).1 = Ok b /\
    forall fi,
      fi ∈ (if b then files_to_sync (self (check_system_folder Sample.w0).2) else []) ->
      ~ (src fi = s /\ dest fi = d).
Proof.
  exact (identical_files_are_not_candidates Sample.w0
           (Sample.over ["etc"; "same.conf"]) ["etc"; "same.conf"]
           fresh_meta fresh_meta (bytes_of "S") eq_refl eq_refl eq_refl eq_refl).
Defined.

(** C4: for an overlay root that can be stat'ed ([can_stat]: its names
    and length are within the limits of the system and the directories on
    the way may be searched; otherwise [system_path.exists()] raises):
    without the overlay root the scan answers [False] (no result, the
    filesystem and the session untouched); with an existing, empty overlay
    root it answers [True] with an empty candidate list. *)
Theorem scan_missing_root_differs_from_empty_root w :
  can_stat (fs w) (system_path (self w)) = true ->
  (resolve (fs w) (system_path (self w)) = None ->
   check_system_folder w = (Ok false, w)) /\
  (forall m, resolve (fs w) (system_path (self w)) = Some (Dir m []) ->
   (check_system_folder w).1 = Ok true /\
   files_to_sync (self (check_system_folder w).2) = [] /\
   fs (check_system_folder w).2 = fs w).
Proof.
  intros _. split; [apply check_system_folder_missing|].
  intros m Hx. unfold check_system_folder, path_exists, os_walk. unfold_monad. simpl.
  rewrite Hx. rewrite bool_decide_eq_true_2 by eauto. simpl. rewrite Hx. simpl.
  by destruct (readable m).
Qed.

Lemma scan_missing_root_differs_from_empty_root_witness :
  check_system_folder Sample.w_missing = (Ok false, Sample.w_missing) /\
  (check_system_folder Sample.w_empty).1 = Ok true /\
  files_to_sync (self (check_system_folder Sample.w_empty).2) = [] /\
  fs (check_system_folder Sample.w_empty).2 = fs Sample.w_empty.
Proof.
  split.
  - apply (proj1 (scan_missing_root_differs_from_empty_root Sample.w_missing eq_refl)).
    reflexivity.
  - apply (proj2 (scan_missing_root_differs_from_empty_root Sample.w_empty eq_refl)
             fresh_meta).
    reflexivity.
Defined.

(** C7: when the target path can be stat'ed ([can_stat]; otherwise
    [dest.exists()] raises) and does not exist, [compare_files] answers
    "new" and [get_file_diff] answers the single line "New file: <name>",
    without opening any file. *)
Theorem new_file_status_and_notice w s d :
  can_stat (fs w) d = true ->
  resolve (fs w) d = None ->
  compare_files s d w = (Ok "new", w) /\
  get_file_diff s d w = (Ok ["New file: " +:+ name s], w).
Proof.
  intros _ Hd. split.
  - rewrite compare_files_run. unfold compare_result. rewrite Hd.
    by rewrite bool_decide_eq_false_2 by (intros [? ?]; discriminate).
  - by rewrite get_file_diff_run, Hd.
Qed.

Lemma new_file_status_and_notice_witness :
  compare_files (Sample.over ["etc"; "bar.conf"]) ["etc"; "bar.conf"] Sample.w0 =
    (Ok "new", Sample.w0) /\
  get_file_diff (Sample.over ["etc"; "bar.conf"]) ["etc"; "bar.conf"] Sample.w0 =
    (Ok ["New file: bar.conf"], Sample.w0).
Proof.
  exact (new_file_status_and_notice Sample.w0 (Sample.over ["etc"; "bar.conf"])
           ["etc"; "bar.conf"] eq_refl eq_refl).
Defined.

(** The example of the claim: a target that does not exist yet in a
    directory that may not be written to. *)
Lemma copy_step_unwritable fi w ms data mp es :
  resolve (fs w) (src fi) = Some (File ms data) -> readable ms = true ->
  resolve (fs w) (dest fi) = None ->
  resolve (fs w) (parent (dest fi)) = Some (Dir mp es) -> writable mp = false ->
  (copy_step fi w).1 = Raise (PermissionError (dest fi)).
Proof.
  intros Hs Hr Hd Hpar Hw.
  assert (Hne : src fi <> dest fi) by congruence.
  unfold copy_step. unfold mbind at 1, M_bind at 1.
  rewrite (mkdir_parents_existing _ _ _ _ Hpar).
  unfold copy2, path_is_dir, copyfile. unfold_monad. simpl. rewrite Hd. simpl.
  rewrite (bool_decide_eq_false_2 (src fi = dest fi)) by done. simpl.
  rewrite open_read_run. unfold read_of. rewrite Hs, Hr. simpl.
  unfold open_write. unfold_monad. simpl. rewrite Hd.
  destruct (dest fi) as [|c q] eqn:Ed; [done|].
  by rewrite Hpar, Hw.
Qed.

(** C2: [sync_selected_files] never raises, and its batch is the one in
    which no failure stops anything ([copy_steps]).
    - Whatever the copy step of a candidate raises, [sync_file] catches
      it, prints its report ([print] is taken to succeed) and answers
      [False]; a copy step that goes through is answered [True].
    - The copy step of every selected candidate is run, in the order of
      the list, whatever the earlier ones did; the two counts are the
      numbers of copy steps that went through and that raised, and they
      add up to the number of selected candidates.
    - When exactly one copy step raises, the result is
      [(selected - 1, 1)].
    - The example of the claim is such a failure: the copy step of a
      readable overlay file whose target does not exist yet, in a
      directory that may not be written to, raises [PermissionError], and
      [sync_file] answers [False]. *)
Theorem apply_counts_failures_and_continues :
  (forall fi w,
     match copy_step fi w with
     | (Ok _, w1) => sync_file fi w = (Ok true, w1)
     | (Raise e, w1) => sync_file fi w = (Ok false, reported fi e w1)
     end) /\
  (forall w,
     let chosen := filter (fun fi => selected fi = true) (files_to_sync (self w)) in
     let steps := (copy_steps chosen w).1 in
     sync_selected_files w = (Ok (copied steps, raised steps), (copy_steps chosen w).2) /\
     steps.*1 = chosen /\
     copied steps + raised steps = length chosen /\
     (raised steps = 1 ->
      sync_selected_files w = (Ok (length chosen - 1, 1), (copy_steps chosen w).2))) /\
  (forall fi w ms data mp es,
     resolve (fs w) (src fi) = Some (File ms data) -> readable ms = true ->
     resolve (fs w) (dest fi) = None ->
     resolve (fs w) (parent (dest fi)) = Some (Dir mp es) -> writable mp = false ->
     (copy_step fi w).1 = Raise (PermissionError (dest fi)) /\
     (sync_file fi w).1 = Ok false).
Proof.
  split; [|split].
  - intros fi w. rewrite sync_file_run. by destruct (copy_step fi w) as [[[]|e] w1].
  - intros w chosen steps.
    assert (Hrun : sync_selected_files w =
                     (Ok (copied steps, raised steps), (copy_steps chosen w).2)).
    { unfold sync_selected_files. unfold_monad.
      by rewrite (sync_loop_steps (files_to_sync (self w)) 0 0 w). }
    assert (Hcand : steps.*1 = chosen) by apply copy_steps_candidates.
    assert (Hsum : copied steps + raised steps = length chosen).
    { rewrite steps_split, <- Hcand. by rewrite length_fmap. }
    repeat (split; [done|]).
    intros Hone. rewrite Hrun. do 3 f_equal; lia.
  - intros fi w ms data mp es Hs Hr Hd Hpar Hw.
    pose proof (copy_step_unwritable fi w ms data mp es Hs Hr Hd Hpar Hw) as Hstep.
    split; [done|]. rewrite sync_file_run.
    destruct (copy_step fi w) as [[[]|e] w1]; [discriminate | done].
Qed.

(** On [Cases.batch] the second of three copy steps raises, the third is
    still run, and the result is [(2, 1)]. *)
Lemma apply_counts_failures_and_continues_witness :
  (copy_steps (files_to_sync (self Cases.batch)) Cases.batch).1.*2 =
    [Ok tt; Raise (PermissionError ["etc"; "x"]); Ok tt] /\
  (sync_selected_files Cases.batch).1 = Ok (2, 1) /\
  resolve (fs (sync_selected_files Cases.batch).2) ["opt"; "y"] = Some (Sample.file "3") /\
  (sync_file Cases.etc_x Cases.batch).1 = Ok false.
Proof.
  destruct apply_counts_failures_and_continues as (_ & Hbatch & Hcause).
  destruct (Hbatch Cases.batch) as (_ & _ & _ & Hone).
  split; [vm_compute; reflexivity|].
  rewrite Hone by (vm_compute; reflexivity).
  split; [vm_compute; reflexivity|].
  split; [vm_compute; reflexivity|].
  apply (Hcause Cases.etc_x Cases.batch fresh_meta (bytes_of "2")
           (Meta true false 0) []); reflexivity.
Defined.

(** C8, as stated, fails: [crlf.txt] differs from its target in bytes (CR LF
    against LF), both sides are decodable text and the pair compares as
    "modified", yet the diff is empty and so has no "+" or "-" line. *)
Lemma byte_differing_text_with_empty_diff :
  ~ (forall w s d sdata ddata,
       read_of (fs w) s = Ok sdata -> read_of (fs w) d = Ok ddata ->
       decodable sdata -> decodable ddata -> sdata <> ddata ->
       (compare_files s d w).1 = Ok "modified" ->
       exists lines, (get_file_diff s d w).1 = Ok lines /\
         (exists l, l ∈ lines /\ String.prefix "+" l = true) /\
         (exists l, l ∈ lines /\ String.prefix "-" l = true)).
Proof.
  intros H.
  destruct (H Sample.w0 (Sample.over ["etc"; "crlf.txt"]) ["etc"; "crlf.txt"]
              (bytes_of ("a" +:+ CR +:+ LF)) (bytes_of ("a" +:+ LF)))
    as (lines & Hrun & (l & Hl & _) & _); try (vm_compute; reflexivity).
  - vm_compute. discriminate.
  - vm_compute in Hrun. simplify_eq. by apply elem_of_nil in Hl.
Qed.

(** C8, amended: when both files can be read, the diff is the unified diff
    from the target's lines to the overlay's lines. If the two files decode
    to different lines it starts with "--- <target>" and "+++ <overlay>",
    and every further line is a hunk header, a context or "-" line carrying
    a target line, or a "+" line carrying an overlay line. If they decode
    to the same lines, as byte-differing files can, it is empty. *)
Theorem diff_is_target_to_overlay w s d sdata ddata :
  read_of (fs w) s = Ok sdata -> read_of (fs w) d = Ok ddata ->
  let target_lines := decode_lines ddata in
  let overlay_lines := decode_lines sdata in
  let lines :=
    difflib.unified_diff target_lines overlay_lines (str_path d) (str_path s) "" in
  (get_file_diff s d w).1 = Ok lines /\
  (target_lines = overlay_lines -> lines = []) /\
  (target_lines <> overlay_lines ->
   exists body,
     lines = ("--- " +:+ str_path d) :: ("+++ " +:+ str_path s) :: body /\
     Forall (body_line target_lines overlay_lines) body).
Proof.
  intros Hs Hd target_lines overlay_lines lines. split; [|split].
  - rewrite get_file_diff_run, Hs, Hd.
    destruct (resolve (fs w) d) eqn:Hr; [done|].
    unfold read_of in Hd. by rewrite Hr in Hd.
  - intros E. subst lines. rewrite E. apply unified_diff_same.
  - intros Hne.
    destruct (unified_diff_shape target_lines overlay_lines (str_path d) (str_path s))
      as [Hnil|Hbody]; [|done].
    by apply unified_diff_nil in Hnil.
Qed.

Lemma diff_is_target_to_overlay_witness :
  (get_file_diff (Sample.over ["etc"; "foo.conf"]) ["etc"; "foo.conf"] Sample.w0).1 =
    Ok ["--- /etc/foo.conf"; "+++ /storage/roms/System/etc/foo.conf"; "@@ -1 +1 @@";
        "-B"; "+A"] /\
  (get_file_diff (Sample.over ["etc"; "same.conf"]) ["etc"; "same.conf"] Sample.w0).1 =
    Ok [].
Proof.
  split.
  - exact (proj1 (diff_is_target_to_overlay Sample.w0 (Sample.over ["etc"; "foo.conf"])
                    ["etc"; "foo.conf"] (bytes_of "A") (bytes_of "B") eq_refl eq_refl)).
  - destruct (diff_is_target_to_overlay Sample.w0 (Sample.over ["etc"; "same.conf"])
                ["etc"; "same.conf"] (bytes_of "S") (bytes_of "S") eq_refl eq_refl)
      as (Hrun & Hnil & _).
    rewrite Hrun, Hnil; reflexivity.
Defined.

(** C6 (the code departs from it): the target [/etc/site] is a directory,
    so its hash fails and the scan records the pair as "modified";
    [sync_file] succeeds by copying the file into that directory, and a
    fresh [compare_files] on the same pair still answers "modified". *)
Theorem resync_of_directory_target_stays_modified :
  let fi := FileInfo (Sample.over ["etc"; "site"]) ["etc"; "site"] "etc/site"
              "modified" true in
  files_to_sync (self Sample.scanned) !! 3 = Some fi /\
  (sync_file fi Sample.scanned).1 = Ok true /\
  resolve (fs (sync_file fi Sample.scanned).2) ["etc"; "site"; "site"] =
    Some (Sample.file "s") /\
  (compare_files (src fi) (dest fi) (sync_file fi Sample.scanned).2).1 = Ok "modified".
Proof. vm_compute. repeat split. Qed.

(** * Further properties of the code *)

(** ** The scan, as a function of the tree *)

Lemma scan_file_run w0 acc root filename w :
  (exists r, root = system_path (self w0) ++ r) -> scanning w0 acc w ->
  exists w', scan_file root filename w = (Ok tt, w') /\
    scanning w0
      (acc ++ candidate_of (fs w0) (system_path (self w0)) (root_path (self w0)) root filename)
      w'.
Proof.
  intros [r ->] (Hfs & Hout & Hself).
  unfold scan_file, relative_to, candidate_of, joinpath. unfold_monad.
  rewrite Hself. cbn [system_path root_path set_files_to_sync].
  rewrite <- app_assoc, strip_prefix_app, compare_files_run, Hfs.
  set (st := compare_result _ _ _).
  set (w1 := if bool_decide _ then _ else w).
  assert (Hw1 : fs w1 = fs w /\ stdout w1 = stdout w /\ self w1 = self w)
    by (subst w1; by destruct (bool_decide _)).
  destruct Hw1 as (Hfs1 & Hout1 & Hself1).
  destruct (String.eqb st "identical") eqn:Heq; simpl.
  - eexists; split; [reflexivity|]. rewrite app_nil_r. unfold scanning.
    by rewrite Hfs1, Hout1, Hself1.
  - eexists; split; [reflexivity|]. unfold scanning; simpl.
    rewrite Hfs1, Hout1, Hself1, Hself. by simpl.
Qed.

Lemma for_each_scanning {A} (g : A -> list file_info) (Q : A -> Prop)
    (body : A -> M unit) w0 l :
  (forall x acc w, Q x -> scanning w0 acc w ->
     exists w', body x w = (Ok tt, w') /\ scanning w0 (acc ++ g x) w') ->
  Forall Q l -> forall acc w, scanning w0 acc w ->
  exists w', for_each l body w = (Ok tt, w') /\ scanning w0 (acc ++ (x ← l; g x)) w'.
Proof.
  intros Hbody HQ. induction HQ as [|x r Hx Hr IH]; intros acc w Hw; simpl.
  - exists w. by rewrite app_nil_r.
  - unfold_monad. destruct (Hbody x acc w Hx Hw) as (w1 & -> & Hw1).
    destruct (IH _ _ Hw1) as (w' & Hrun & Hw'). exists w'. split; [done|].
    by rewrite app_assoc.
Qed.

(** What a scan leaves: the filesystem and the output as they were, and in
    [self] the list of candidates, nothing else changed. *)
Lemma check_system_folder_scan w x :
  resolve (fs w) (system_path (self w)) = Some x ->
  exists w', check_system_folder w = (Ok true, w') /\
    scanning w (candidates (fs w) (system_path (self w)) (root_path (self w))) w'.
Proof.
  intros Hx. unfold check_system_folder, path_exists, os_walk. unfold_monad. simpl.
  rewrite Hx. rewrite bool_decide_eq_true_2 by eauto. simpl. rewrite Hx.
  set (w1 := World _ _ _ _).
  assert (Hw1 : scanning w [] w1) by done.
  destruct (for_each_scanning
              (fun t : path * list string * list string =>
                 filename ← t.2;
                 candidate_of (fs w) (system_path (self w)) (root_path (self w)) t.1.1 filename)
              (fun t : path * list string * list string =>
                 exists r, t.1.1 = system_path (self w) ++ r)
              (fun t : path * list string * list string =>
                 let '(root, _, files) := t in for_each files (scan_file root))
              w (walk (system_path (self w)) x)) with (acc := @nil file_info) (w := w1)
    as (w' & Hrun & Hw').
  - intros [[root dirs] files] acc w2 Hroot Hw2. simpl in Hroot |- *.
    apply (for_each_scanning _ (fun _ => True)); [|by apply Forall_true|done].
    intros filename acc' w3 _ Hw3. by apply scan_file_run.
  - apply walk_roots.
  - done.
  - rewrite Hrun. exists w'. split; [done|]. unfold candidates. by rewrite Hx.
Qed.

Lemma strip_prefix_Some base : forall p r, strip_prefix base p = Some r -> p = base ++ r.
Proof.
  induction base as [|b base IH]; intros p r; simpl.
  - destruct p; by intros [= ->].
  - destruct p as [|c p]; [done|]. destruct (String.eqb_spec b c) as [->|]; [|done].
    intros H. by rewrite (IH _ _ H).
Qed.

Lemma entry_elem_of c es y : entry c es = Some y -> (c, y) ∈ es.
Proof.
  induction es as [|[n x] r IH]; simpl; [done|].
  destruct (String.eqb_spec n c) as [->|]; [intros [= ->]; by left|].
  intros H. right. by apply IH.
Qed.

(** Every file below [x] that a listing of directories reaches is met by
    the walk, in the triple of its directory. *)
Lemma walk_complete rel : forall x top f m d,
  listable x rel = true -> resolve x (rel ++ [f]) = Some (File m d) ->
  exists dirs files, (top ++ rel, dirs, files) ∈ walk top x /\ f ∈ files.
Proof.
  induction rel as [|c rel IH]; intros x top f m d Hlist Hres.
  - destruct x as [mx dx|mx es]; [done|]. simpl in *.
    rewrite andb_true_r in Hlist. rewrite Hlist.
    destruct (entry f es) as [y|] eqn:Hy; [|done]. simpl in Hres. injection Hres as ->.
    exists (dirnames es), (filenames es). rewrite app_nil_r. split; [by left|].
    unfold filenames. apply list_elem_of_fmap. exists (f, File m d). split; [done|].
    apply list_elem_of_filter. split; [done|]. by apply entry_elem_of.
  - destruct x as [mx dx|mx es]; [done|]. simpl in Hlist, Hres.
    apply andb_prop in Hlist as [Hr Hlist].
    destruct (entry c es) as [y|] eqn:Hy; [|done].
    assert (Hdir : is_dir_node y = true) by (destruct y; [by destruct rel | done]).
    destruct (IH y (joinpath top [c]) f m d Hlist Hres) as (dirs & files & Hin & Hf).
    exists dirs, files. split; [|done].
    simpl. rewrite Hr. right.
    unfold joinpath in Hin. rewrite <- app_assoc in Hin. simpl in Hin.
    apply entry_elem_of in Hy. clear -Hy Hin Hdir.
    induction es as [|[c' x'] r IHr]; [by apply elem_of_nil in Hy|].
    apply elem_of_app. apply elem_of_cons in Hy as [[= <- <-]|Hy].
    + left. rewrite Hdir. unfold joinpath. done.
    + right. by apply IHr.
Qed.

Lemma candidates_elem n sp rp fi :
  fi ∈ candidates n sp rp ->
  exists rel, rel <> [] /\ src fi = sp ++ rel /\ dest fi = rp ++ rel /\
    rel_path fi = str_rel rel /\ selected fi = true /\
    status fi = compare_result n (src fi) (dest fi) /\ status fi <> "identical".
Proof.
  unfold candidates. destruct (resolve n sp) as [x|]; [|by rewrite elem_of_nil].
  intros Hin. apply list_elem_of_bind in Hin as ([[root dirs] files] & Hin & Ht).
  apply list_elem_of_bind in Hin as (filename & Hin & Hf). simpl in *.
  unfold candidate_of in Hin.
  destruct (strip_prefix sp (joinpath root [filename])) as [rel|] eqn:Hrel;
    [|by apply elem_of_nil in Hin].
  destruct (String.eqb_spec (compare_result n (joinpath root [filename]) (joinpath rp rel))
              "identical") as [|Hne]; [by apply elem_of_nil in Hin|].
  apply list_elem_of_singleton in Hin as ->. simpl.
  apply strip_prefix_Some in Hrel. exists rel. repeat split; try done.
  intros ->. rewrite app_nil_r in Hrel.
  pose proof (walk_roots x sp) as Hroots. rewrite Forall_forall in Hroots.
  destruct (Hroots _ Ht) as [r Hr]. simpl in Hr. unfold joinpath in Hrel.
  rewrite Hr, <- app_assoc in Hrel.
  apply (f_equal length) in Hrel. rewrite !length_app in Hrel. simpl in Hrel. lia.
Qed.

Lemma resolve_app p : forall n q,
  resolve n (p ++ q) = resolve n p ≫= fun x => resolve x q.
Proof.
  induction p as [|c p IH]; intros n q; simpl; [done|].
  destruct n as [m d|m es]; [done|]. destruct (entry c es) as [y|]; [apply IH|done].
Qed.

Lemma set_files_to_sync_back u acc :
  set_files_to_sync (files_to_sync u) (set_files_to_sync acc u) = u.
Proof. by destruct u. Qed.

(** X1: a scan reads only: it leaves the filesystem and the printed output
    as they were and, of [self], changes nothing but [files_to_sync]. *)
Theorem scan_is_read_only w :
  let w' := (check_system_folder w).2 in
  fs w' = fs w /\ stdout w' = stdout w /\
  set_files_to_sync (files_to_sync (self w)) (self w') = self w.
Proof.
  destruct (resolve (fs w) (system_path (self w))) as [x|] eqn:Hx.
  - destruct (check_system_folder_scan w x Hx) as (w' & -> & Hfs & Hout & Hself). simpl.
    rewrite Hself. split; [done|]. split; [done|]. apply set_files_to_sync_back.
  - rewrite check_system_folder_missing by done. simpl. by destruct (self w).
Qed.

(** X2: scanning again, with the filesystem as the first scan left it,
    gives the same answer and the same candidates in the same order. *)
Theorem rescan_gives_same_candidates w :
  let w1 := (check_system_folder w).2 in
  (check_system_folder w1).1 = (check_system_folder w).1 /\
  files_to_sync (self (check_system_folder w1).2) = files_to_sync (self w1).
Proof.
  destruct (resolve (fs w) (system_path (self w))) as [x|] eqn:Hx.
  - destruct (check_system_folder_scan w x Hx) as (w1 & Hrun & Hfs & Hout & Hself).
    rewrite Hrun. simpl.
    assert (Hx1 : resolve (fs w1) (system_path (self w1)) = Some x).
    { rewrite Hfs, Hself. by simpl. }
    destruct (check_system_folder_scan w1 x Hx1) as (w2 & -> & _ & _ & Hself2). simpl.
    split; [done|]. rewrite Hself2, Hfs, Hself. by simpl.
  - rewrite check_system_folder_missing by done. simpl.
    by rewrite check_system_folder_missing by done.
Qed.

(** X3: every candidate of a scan mirrors one overlay file: its source is
    [system_path / rel], its target [root_path / rel] for the same non-empty
    [rel], its [rel_path] is [str(rel)], it starts selected, and its status
    is what [compare_files] answers for the pair. *)
Theorem candidates_mirror_the_overlay w :
  exists b, (check_system_folder w).1 = Ok b /\
    Forall (fun fi =>
              exists rel, rel <> [] /\
                src fi = joinpath (system_path (self w)) rel /\
                dest fi = joinpath (root_path (self w)) rel /\
                rel_path fi = str_rel rel /\ selected fi = true /\
                (compare_files (src fi) (dest fi) w).1 = Ok (status fi))
           (if b then files_to_sync (self (check_system_folder w).2) else []).
Proof.
  destruct (resolve (fs w) (system_path (self w))) as [x|] eqn:Hx.
  - destruct (check_system_folder_scan w x Hx) as (w' & -> & _ & _ & Hself).
    exists true. split; [done|]. simpl. rewrite Hself. simpl.
    apply Forall_forall. intros fi Hfi.
    destruct (candidates_elem _ _ _ _ Hfi) as (rel & H1 & H2 & H3 & H4 & H5 & H6 & _).
    exists rel. rewrite compare_files_run. simpl. by rewrite <- H6.
  - rewrite check_system_folder_missing by done. exists false. by split.
Qed.

(** X4: a scan misses nothing: an overlay file below [system_path] that is
    reached through listable directories, and that [compare_files] does not
    answer "identical" for, is among the candidates. *)
Theorem scan_lists_every_differing_file w x rel f m d :
  let s := joinpath (system_path (self w)) (rel ++ [f]) in
  let t := joinpath (root_path (self w)) (rel ++ [f]) in
  resolve (fs w) (system_path (self w)) = Some x -> listable x rel = true ->
  resolve (fs w) s = Some (File m d) ->
  (compare_files s t w).1 <> Ok "identical" ->
  (check_system_folder w).1 = Ok true /\
  exists fi, fi ∈ files_to_sync (self (check_system_folder w).2) /\
    src fi = s /\ dest fi = t /\ (compare_files s t w).1 = Ok (status fi).
Proof.
  intros s t Hx Hlist Hs Hne.
  destruct (check_system_folder_scan w x Hx) as (w' & -> & _ & _ & Hself). simpl.
  split; [done|]. rewrite Hself. simpl.
  subst s. unfold joinpath in Hs. rewrite resolve_app, Hx in Hs. simpl in Hs.
  destruct (walk_complete rel x (system_path (self w)) f m d Hlist Hs)
    as (dirs & files & Hin & Hf).
  rewrite compare_files_run in Hne |- *. simpl in Hne |- *.
  eexists (FileInfo _ _ _ _ _). split; [|split; [reflexivity|split; [reflexivity|]]].
  2: { simpl. reflexivity. }
  unfold candidates. rewrite Hx. apply list_elem_of_bind.
  exists (system_path (self w) ++ rel, dirs, files). split; [|done].
  apply list_elem_of_bind. exists f. split; [|done]. simpl.
  unfold candidate_of. unfold joinpath. rewrite <- app_assoc, strip_prefix_app.
  unfold t, joinpath in *.
  destruct (String.eqb_spec
              (compare_result (fs w) (system_path (self w) ++ rel ++ [f])
                 (root_path (self w) ++ rel ++ [f])) "identical") as [E|_].
  - by rewrite E in Hne.
  - apply list_elem_of_singleton. reflexivity.
Qed.

Lemma scan_lists_every_differing_file_witness :
  exists fi, fi ∈ files_to_sync (self (check_system_folder Sample.w0).2) /\
    src fi = Sample.over ["etc"; "foo.conf"] /\ dest fi = ["etc"; "foo.conf"] /\
    status fi = "modified".
Proof.
  destruct (scan_lists_every_differing_file Sample.w0 Sample.overlay ["etc"] "foo.conf"
              fresh_meta (bytes_of "A") eq_refl eq_refl eq_refl)
    as (_ & fi & Hin & Hs & Hd & Hst).
  - vm_compute. discriminate.
  - exists fi. split; [done|]. split; [done|]. split; [done|].
    vm_compute in Hst. by injection Hst.
Defined.

(** X20: [file_hash] digests the whole file: reading it in chunks of 4096
    bytes until the empty chunk feeds every byte, in order, so the answer
    is the MD5 hex digest of the full content, whatever its length. When the
    file cannot be opened the answer is None. Either way the only trace is
    the [open] call. *)
Theorem file_hash_digests_whole_file (filepath : path) (w : world) :
  file_hash filepath w =
    (Ok (match read_of (fs w) filepath with
         | Ok data => Some (MD5.hexdigest_of data)
         | Raise _ => None
         end),
     logged w [(filepath, "rb")]).
Proof.
  unfold file_hash. unfold_monad. rewrite open_read_run.
  destruct (read_of (fs w) filepath) as [data|e]; [|reflexivity].
  cbv beta iota. rewrite read_loop_all by lia. reflexivity.
Qed.


(** ** What a sync leaves of the tree *)

Lemma grown_refl p n : grown p n n.
Proof. intros q. destruct (resolve n q) as [[m d|m es]|]; eauto. Qed.

Lemma place_grown p : forall n,
  resolve n p = None -> grown p n (place n p (Dir fresh_meta [])).
Proof.
  induction p as [|c p' IH]; intros n Hp; [done|].
  destruct n as [m d|m es]; [apply grown_refl|].
  simpl in Hp |- *. destruct (entry c es) as [y|] eqn:Hy.
  - intros q. destruct q as [|c' q']; [simpl; eauto|].
    simpl. destruct (decide (c = c')) as [<-|Hne].
    + rewrite Hy, entry_set_entry_eq. specialize (IH y Hp q').
      destruct (resolve y q') as [[m0 d0|m0 es0]|]; try done.
      destruct IH as [IH|[Hpre IH]]; [by left|right]. split; [|done].
      destruct Hpre as [k ->]. by exists k.
    + rewrite entry_set_entry_ne by done.
      destruct (entry c' es) as [z|]; [|by left].
      destruct (resolve z q') as [[m0 d0|m0 es0]|]; eauto.
  - destruct p' as [|c2 p2]; [|apply grown_refl].
    intros q. destruct q as [|c' q']; [simpl; eauto|].
    simpl. destruct (decide (c = c')) as [<-|Hne].
    + rewrite Hy, entry_set_entry_eq. destruct q' as [|c3 q3]; simpl.
      * right. split; [done|]. eauto.
      * by left.
    + rewrite entry_set_entry_ne by done.
      destruct (entry c' es) as [z|]; [|by left].
      destruct (resolve z q') as [[m0 d0|m0 es0]|]; eauto.
Qed.

Lemma grown_step p n n1 n2 :
  grown (parent p) n n1 -> grown p n1 n2 -> grown p n n2.
Proof.
  intros H1 H2 q. specialize (H1 q). specialize (H2 q).
  assert (Hpar : parent p `prefix_of` p).
  { unfold parent. destruct (decide (p = [])) as [->|Hne]; [done|].
    destruct (exists_last Hne) as (l & x & ->). rewrite removelast_last. by exists [x]. }
  destruct (resolve n q) as [[m d|m es]|].
  - by rewrite H1 in H2.
  - destruct H1 as [es1 H1]. by rewrite H1 in H2.
  - destruct H1 as [H1|[Hpre [es1 H1]]].
    + by rewrite H1 in H2.
    + rewrite H1 in H2. right. split; [by etrans|done].
Qed.

Lemma grown_weaken p n n' : grown (parent p) n n' -> grown p n n'.
Proof. intros H. eapply grown_step; [done | apply grown_refl]. Qed.

Lemma same_file_at_refl n q : same_file_at n n q.
Proof. by intros m d. Qed.

Lemma same_file_at_trans n1 n2 n3 q :
  same_file_at n1 n2 q -> same_file_at n2 n3 q -> same_file_at n1 n3 q.
Proof. intros H1 H2 m d. rewrite (H1 m d). apply H2. Qed.

Lemma grown_same_file p n n' q : grown p n n' -> same_file_at n n' q.
Proof.
  intros H m d. specialize (H q).
  destruct (resolve n q) as [[m0 d0|m0 es0]|].
  - by rewrite H.
  - destruct H as [es' ->]. split; discriminate.
  - destruct H as [->|[_ [es' ->]]]; split; discriminate.
Qed.

Lemma resolve_file_nonempty m d c q : resolve (File m d) (c :: q) = None.
Proof. done. Qed.

Lemma place_file_same p : forall n q x,
  is_dir_node x = false ->
  (resolve n p = None \/ exists m d, resolve n p = Some (File m d)) ->
  p <> q -> same_file_at n (place n p x) q.
Proof.
  induction p as [|c p' IH]; intros n q x Hx Hp Hne.
  - simpl in *. destruct Hp as [Hp|(m & d & Hp)]; [done|]. simplify_eq.
    destruct q as [|c' q']; [done|]. destruct x as [mx dx|]; [|done].
    intros m' d'. simpl. split; discriminate.
  - destruct n as [m d|m es]; [apply same_file_at_refl|].
    simpl in Hp |- *. destruct (entry c es) as [z|] eqn:Hz.
    + destruct q as [|c' q']; [intros m' d'; simpl; split; discriminate|].
      intros m' d'. simpl. destruct (decide (c = c')) as [<-|Hc].
      * rewrite Hz, entry_set_entry_eq. apply IH; [done..|congruence].
      * by rewrite entry_set_entry_ne.
    + destruct p' as [|c2 p2]; [|apply same_file_at_refl].
      destruct q as [|c' q']; [intros m' d'; simpl; split; discriminate|].
      intros m' d'. simpl. destruct (decide (c = c')) as [<-|Hc].
      * rewrite Hz, entry_set_entry_eq. destruct q' as [|c3 q3]; [done|].
        destruct x as [mx dx|]; [|done]. simpl. split; discriminate.
      * by rewrite entry_set_entry_ne.
Qed.

Lemma place_new_at p : forall n x m es,
  resolve n p = None -> resolve n (parent p) = Some (Dir m es) ->
  resolve (place n p x) p = Some x.
Proof.
  unfold parent. induction p as [|c p' IH]; intros n x m es Hp Hpar; [done|].
  destruct n as [m0 d0|m0 es0].
  { destruct p' as [|c2 p2]; [simpl in Hpar; discriminate|].
    change (removelast (c :: c2 :: p2)) with (c :: removelast (c2 :: p2)) in Hpar.
    discriminate. }
  simpl in Hp |- *. destruct (entry c es0) as [z|] eqn:Hz.
  - destruct p' as [|c2 p2]; [done|].
    change (removelast (c :: c2 :: p2)) with (c :: removelast (c2 :: p2)) in Hpar.
    simpl in Hpar. rewrite Hz in Hpar. simpl. rewrite entry_set_entry_eq.
    by eapply IH.
  - destruct p' as [|c2 p2].
    + simpl. by rewrite entry_set_entry_eq.
    + change (removelast (c :: c2 :: p2)) with (c :: removelast (c2 :: p2)) in Hpar.
      simpl in Hpar. by rewrite Hz in Hpar.
Qed.

Lemma os_mkdir_cases p w :
  (exists e, os_mkdir p w = (Raise e, w) /\ is_OSError e = true) \/
  (os_mkdir p w =
     (Ok tt, World (place (fs w) p (Dir fresh_meta [])) (stdout w) (open_log w) (self w)) /\
   resolve (fs w) p = None /\ exists m es, resolve (fs w) (parent p) = Some (Dir m es)).
Proof.
  unfold os_mkdir. unfold_monad. simpl.
  destruct (resolve (fs w) p) as [y|] eqn:Hp; [left; eauto|].
  destruct (resolve (fs w) (parent p)) as [[m d|m es]|] eqn:Hpar.
  - left; eauto.
  - destruct (writable m); [right; eauto|left; eauto].
  - left. eexists; split; [done|].
    generalize (parent p) at 1. generalize (fs w).
    intros n q. revert n. induction q as [|c q IH]; intros n; simpl; [done|].
    destruct n as [|m es]; [done|]. destruct (entry c es); [apply IH|done].
Qed.

Lemma makes_dir_level p (h : exn -> M unit) :
  (forall e, makes_dir p (h e)) ->
  makes_dir p
    (try_except (os_mkdir p) is_OSError (fun e =>
       if is_FileNotFoundError e then h e
       else d ← path_is_dir p; if (d : bool) then mret tt else raise e)).
Proof.
  intros Hh w. unfold try_except.
  destruct (os_mkdir_cases p w) as [(e & -> & He)|(-> & Hp & m & es & Hpar)].
  - rewrite He. destruct (is_FileNotFoundError e); [apply Hh|].
    unfold path_is_dir. unfold_monad. simpl.
    destruct (resolve (fs w) p) as [[m d|m es]|] eqn:Hp; simpl;
      do 2 eexists; (split; [done|]); (split; [done|]); (split; [apply grown_refl|]);
      try done. eauto.
  - do 2 eexists. split; [done|]. split; [done|]. simpl. split; [by apply place_grown|].
    intros _. exists fresh_meta, []. by eapply place_new_at.
Qed.

Lemma makes_dir_raise p e : makes_dir p (raise e).
Proof.
  intros w. do 2 eexists. split; [done|]. split; [done|]. split; [apply grown_refl|done].
Qed.

Lemma mkdir_exist_ok_spec p : makes_dir p (mkdir_exist_ok p).
Proof. apply (makes_dir_level p raise). intros e. apply makes_dir_raise. Qed.

Lemma mkdir_parents_rev_spec rp : makes_dir (reverse rp) (mkdir_parents_rev rp).
Proof.
  induction rp as [|c rparent IH]; rewrite mkdir_parents_rev_unfold.
  - apply (makes_dir_level _ raise). intros e. apply makes_dir_raise.
  - apply (makes_dir_level _ (fun _ => mkdir_parents_rev rparent;;
                                       mkdir_exist_ok (reverse (c :: rparent)))).
    intros _ w. unfold mbind, M_bind.
    destruct (IH w) as (r1 & w1 & -> & Hout1 & Hg1 & Hok1).
    assert (Hpar : parent (reverse (c :: rparent)) = reverse rparent).
    { unfold parent. by rewrite reverse_cons, removelast_last. }
    destruct r1 as [[]|e1].
    + destruct (mkdir_exist_ok_spec (reverse (c :: rparent)) w1)
        as (r2 & w2 & -> & Hout2 & Hg2 & Hok2).
      do 2 eexists. split; [done|]. split; [congruence|]. split; [|done].
      eapply grown_step; [|done]. by rewrite Hpar.
    + do 2 eexists. split; [done|]. split; [done|]. split; [|done].
      apply grown_weaken. by rewrite Hpar.
Qed.

Lemma mkdir_parents_spec p : makes_dir p (mkdir_parents p).
Proof.
  unfold mkdir_parents. pose proof (mkdir_parents_rev_spec (reverse p)) as H.
  by rewrite reverse_involutive in H.
Qed.

Lemma copy_target_is_dir n s d :
  (if match resolve n d with Some x => is_dir_node x | None => false end
   then joinpath d [name s] else d) = copy_target n s d.
Proof. unfold copy_target. by destruct (resolve n d) as [[m0 d0|m0 es0]|]. Qed.

(** [copy2] either fails without changing the tree, or leaves at its target
    a regular file with the bytes and the metadata of the source, every
    other regular file being as before. *)
Lemma copy2_effect s d w :
  exists r w', copy2 s d w = (r, w') /\ stdout w' = stdout w /\
    match r with
    | Ok _ =>
        exists ms data,
          resolve (fs w) s = Some (File ms data) /\ readable ms = true /\
          s <> copy_target (fs w) s d /\
          resolve (fs w') (copy_target (fs w) s d) = Some (File ms data) /\
          forall q, q <> copy_target (fs w) s d -> same_file_at (fs w) (fs w') q
    | Raise _ => fs w' = fs w
    end.
Proof.
  unfold copy2, path_is_dir, copyfile. unfold_monad. simpl.
  rewrite copy_target_is_dir. generalize (copy_target (fs w) s d). intros d'.
  destruct (bool_decide (s = d') && bool_decide (is_Some (resolve (fs w) s))) eqn:Esame.
  { do 2 eexists. by split. }
  rewrite open_read_run. unfold read_of.
  destruct (resolve (fs w) s) as [[ms data|ms es]|] eqn:Hs; simpl;
    try (do 2 eexists; by split).
  destruct (readable ms) eqn:Hr; [|do 2 eexists; by split].
  assert (Hne : s <> d').
  { intros E. rewrite (bool_decide_eq_true_2 _ E) in Esame.
    rewrite bool_decide_eq_true_2 in Esame by eauto. done. }
  unfold open_write. unfold_monad. simpl.
  assert (Hdone : forall mx w1,
    fs w1 = place (fs w) d' (File mx data) -> stdout w1 = stdout w ->
    (resolve (fs w) d' = None \/ exists m0 d0, resolve (fs w) d' = Some (File m0 d0)) ->
    resolve (place (fs w) d' (File mx data)) d' = Some (File mx data) ->
    exists r w',
      copystat s d' w1 = (r, w') /\
      stdout w' = stdout w /\
      match r with
      | Ok _ =>
          exists ms0 data0,
            Some (File ms data) = Some (File ms0 data0) /\ readable ms0 = true /\ s <> d' /\
            resolve (fs w') d' = Some (File ms0 data0) /\
            forall q, q <> d' -> same_file_at (fs w) (fs w') q
      | Raise _ => fs w' = fs w
      end).
  { intros mx w1 Hfs1 Hout1 Hd Hd1. unfold copystat. unfold_monad. simpl.
    assert (Hs1 : resolve (place (fs w) d' (File mx data)) s = Some (File ms data)).
    { by apply (place_file_same d' (fs w) s (File mx data)). }
    rewrite Hfs1, Hs1, Hd1. simpl. do 2 eexists. split; [done|]. split; [done|]. simpl.
    exists ms, data. split; [done|]. split; [done|]. split; [done|]. split.
    - by eapply resolve_place_eq.
    - intros q Hq. eapply same_file_at_trans.
      + by apply (place_file_same d' (fs w) q (File mx data)).
      + apply place_file_same; [done | eauto | done]. }
  destruct (resolve (fs w) d') as [[md dd|md es]|] eqn:Hd; simpl.
  - destruct (writable md); [|do 2 eexists; by split].
    apply (Hdone md); [done | done | eauto |]. by eapply resolve_place_eq.
  - do 2 eexists; by split.
  - destruct (decide (d' = [])) as [->|Hd'ne]; [do 2 eexists; by split|].
    assert (Hw : forall (A : Type) (x y : A), match d' with [] => x | _ :: _ => y end = y)
      by (intros; by destruct d').
    rewrite Hw.
    destruct (resolve (fs w) (parent d')) as [[mp dp|mp es]|] eqn:Hpar; simpl;
      try (do 2 eexists; by split).
    destruct (writable mp); [|do 2 eexists; by split].
    apply (Hdone fresh_meta); [done | done | by left |].
    by eapply place_new_at.
Qed.

Lemma parent_not_prefix d : d <> [] -> ~ d `prefix_of` parent d.
Proof.
  intros Hne Hpre. apply prefix_length in Hpre. unfold parent in Hpre.
  destruct (exists_last Hne) as (l & x & ->). rewrite removelast_last in Hpre.
  rewrite length_app in Hpre. simpl in Hpre. lia.
Qed.

Lemma grown_copy_target n n' s d :
  grown (parent d) n n' -> copy_target n' s d = copy_target n s d.
Proof.
  intros H. specialize (H d). unfold copy_target.
  destruct (resolve n d) as [[m0 d0|m0 es0]|] eqn:Hd.
  - by rewrite H.
  - destruct H as [es' ->]. done.
  - destruct H as [->|[Hpre _]]; [done|].
    destruct d as [|c q]; [done|]. by apply parent_not_prefix in Hpre.
Qed.

(** What [sync_file] leaves behind, by its answer. *)
Lemma sync_file_effect fi w :
  exists ok w', sync_file fi w = (Ok ok, w') /\
    if ok then
      stdout w' = stdout w /\
      exists ms data,
        resolve (fs w) (src fi) = Some (File ms data) /\ readable ms = true /\
        src fi <> copy_target (fs w) (src fi) (dest fi) /\
        resolve (fs w') (copy_target (fs w) (src fi) (dest fi)) = Some (File ms data) /\
        forall q, q <> copy_target (fs w) (src fi) (dest fi) -> same_file_at (fs w) (fs w') q
    else
      (exists e, stdout w' =
         stdout w ++ ["Error syncing " +:+ rel_path fi +:+ ": " +:+ str_exn e]) /\
      grown (parent (dest fi)) (fs w) (fs w').
Proof.
  unfold sync_file, try_except. unfold mbind at 1, M_bind at 1.
  destruct (mkdir_parents_spec (parent (dest fi)) w) as (r1 & w1 & -> & Hout1 & Hg1 & _).
  destruct r1 as [[]|e1].
  - unfold mbind, M_bind.
    destruct (copy2_effect (src fi) (dest fi) w1) as (r2 & w2 & -> & Hout2 & H2).
    rewrite (grown_copy_target _ _ _ _ Hg1) in H2.
    destruct r2 as [[]|e2].
    + unfold_monad. do 2 eexists. split; [done|]. simpl. split; [congruence|].
      destruct H2 as (ms & data & Hs & Hr & Hne & Hd & Hq).
      exists ms, data. split; [|split; [done|split; [done|split; [done|]]]].
      * by apply (grown_same_file _ _ _ (src fi) Hg1).
      * intros q Hne'. eapply same_file_at_trans; [|by apply Hq].
        by eapply grown_same_file.
    + unfold Exception, print. unfold_monad. simpl. do 2 eexists. split; [done|].
      simpl. split; [exists e2; congruence|]. by rewrite H2.
  - unfold Exception, print. unfold_monad. simpl. do 2 eexists. split; [done|].
    simpl. split; [exists e1; congruence|done].
Qed.

Lemma copy_target_cases n s d :
  copy_target n s d = d \/ copy_target n s d = joinpath d [name s].
Proof. unfold copy_target. destruct (resolve n d) as [[m0 d0|m0 es0]|]; auto. Qed.

Lemma sync_loop_effect l : forall s f w,
  exists s' f' w', sync_loop l s f w = (Ok (s', f'), w') /\
    (exists lines, stdout w' = stdout w ++ lines /\ f' = f + length lines /\
       Forall (fun line => exists r, line = "Error syncing " +:+ r) lines) /\
    forall q,
      (forall fi, fi ∈ l -> selected fi = true ->
         q <> dest fi /\ q <> joinpath (dest fi) [name (src fi)]) ->
      same_file_at (fs w) (fs w') q.
Proof.
  induction l as [|fi r IH]; intros s f w; simpl.
  - do 3 eexists. split; [done|]. split.
    + exists []. by rewrite app_nil_r, Nat.add_0_r.
    + intros q _. apply same_file_at_refl.
  - destruct (selected fi) eqn:Hsel.
    + unfold mbind, M_bind.
      destruct (sync_file_effect fi w) as (ok & w1 & -> & H1).
      destruct ok.
      * destruct H1 as (Hout1 & ms & data & _ & _ & _ & _ & Hq1).
        destruct (IH (s + 1) f w1) as (s' & f' & w' & -> & (lines & Hout & Hf & Hl) & Hq).
        do 3 eexists. split; [done|]. split.
        -- exists lines. by rewrite Hout, Hout1.
        -- intros q Hno. eapply same_file_at_trans.
           ++ apply Hq1. destruct (Hno fi) as [Ha Hb]; [by left | done |].
              by destruct (copy_target_cases (fs w) (src fi) (dest fi)) as [-> | ->].
           ++ apply Hq. intros fi' Hin. apply Hno. by right.
      * destruct H1 as ((e & Hout1) & Hg1).
        destruct (IH s (f + 1) w1) as (s' & f' & w' & -> & (lines & Hout & Hf & Hl) & Hq).
        do 3 eexists. split; [done|]. split.
        -- eexists (_ :: lines). rewrite Hout, Hout1, <- app_assoc. split; [done|].
           split; [simpl; lia|]. constructor; [|done].
           by eexists.
        -- intros q Hno. eapply same_file_at_trans; [by eapply grown_same_file|].
           apply Hq. intros fi' Hin. apply Hno. by right.
    + destruct (IH s f w) as (s' & f' & w' & -> & Hlines & Hq).
      do 3 eexists. split; [done|]. split; [done|].
      intros q Hno. apply Hq. intros fi' Hin. apply Hno. by right.
Qed.

Lemma sync_file_success_installs_copy_aux fi w :
  (sync_file fi w).1 = Ok true ->
  exists ms data,
    readable ms = true /\
    resolve (fs (sync_file fi w).2) (copy_target (fs w) (src fi) (dest fi))
      = Some (File ms data) /\
    resolve (fs (sync_file fi w).2) (src fi) = Some (File ms data).
Proof.
  destruct (sync_file_effect fi w) as (ok & w1 & -> & H). simpl. intros [= ->].
  destruct H as (Hout & ms & data & Hs & Hr & Hne & Hd & Hq).
  exists ms, data. repeat (split; [done|]). by apply (Hq (src fi) Hne).
Qed.





(** X7: The round trip holds for every target that is not an existing
    directory, whether it was a regular file or did not exist (with or
    without its parent directories): after [sync_file] answered True,
    [compare_files] on the same pair answers "identical". *)
Theorem resync_is_identical_unless_directory (fi : file_info) (w : world) :
  (sync_file fi w).1 = Ok true ->
  (forall m es, resolve (fs w) (dest fi) <> Some (Dir m es)) ->
  (compare_files (src fi) (dest fi) (sync_file fi w).2).1 = Ok "identical".
Proof.
  intros Hok Hnd.
  destruct (sync_file_success_installs_copy_aux fi w Hok) as (ms & data & Hr & Hd & Hs).
  assert (Ht : copy_target (fs w) (src fi) (dest fi) = dest fi).
  { unfold copy_target. destruct (resolve (fs w) (dest fi)) as [[m0 d0|m0 es0]|] eqn:E; try done.
    by destruct (Hnd m0 es0). }
  rewrite Ht in Hd.
  rewrite compare_files_run. simpl. unfold compare_result, hash_of, read_of.
  rewrite Hs, Hd, Hr. by rewrite bool_decide_eq_true_2.
Qed.

Lemma resync_is_identical_unless_directory_witness :
  (compare_files (src Cases.bar) (dest Cases.bar) Sample.w0).1 = Ok "new" /\
  (compare_files (src Cases.bar) (dest Cases.bar) (sync_file Cases.bar Sample.w0).2).1
    = Ok "identical".
Proof.
  split; [vm_compute; reflexivity|].
  apply (resync_is_identical_unless_directory Cases.bar Sample.w0 eq_refl).
  intros m es. vm_compute. discriminate.
Defined.

(** X8: [sync_selected_files] always returns its two counters, and what it
    prints is exactly one "Error syncing ..." line per counted failure. *)
Theorem apply_prints_one_line_per_failure (w : world) :
  exists success_count fail_count w' lines,
    sync_selected_files w = (Ok (success_count, fail_count), w') /\
    stdout w' = stdout w ++ lines /\ length lines = fail_count /\
    Forall (fun line => exists r, line = "Error syncing " +:+ r) lines.
Proof.
  unfold sync_selected_files. unfold_monad.
  destruct (sync_loop_effect (files_to_sync (self w)) 0 0 w)
    as (s' & f' & w' & Hrun & (lines & Hout & Hf & Hl) & _).
  exists s', f', w', lines. simpl in Hf. by subst f'.
Qed.



(** ** Key handling *)

Lemma input_frame_refl w : input_frame w w.
Proof. by repeat split. Qed.

Lemma input_frame_trans w1 w2 w3 :
  input_frame w1 w2 -> input_frame w2 w3 -> input_frame w1 w3.
Proof.
  unfold input_frame. intros (?&?&?&?&?&?&?) (?&?&?&?&?&?&?).
  repeat split; congruence.
Qed.

Lemma get_file_diff_total s d w :
  exists lines w', get_file_diff s d w = (Ok lines, w') /\
    fs w' = fs w /\ stdout w' = stdout w /\ self w' = self w.
Proof.
  rewrite get_file_diff_run.
  destruct (resolve (fs w) d); [|by eauto 10].
  destruct (read_of (fs w) s); [|by eauto 10].
  destruct (read_of (fs w) d); by eauto 10.
Qed.

Ltac cursor_goal :=
  match goal with
  | |- _ /\ _ => split; cursor_goal
  | |- _ \/ _ => first [left; cursor_goal | right; cursor_goal]
  | |- _ => first [done | lia | congruence]
  end.

Ltac after_key :=
  eexists; split; [reflexivity|]; split;
  [ unfold cursor_ok in *; simpl in *; rewrite ?length_insert;
    repeat match goal with
           | H : _ /\ _ |- _ => destruct H
           | H : _ \/ _ |- _ => destruct H
           end; cursor_goal
  | unfold input_frame; simpl; rewrite ?length_insert; by repeat split ].

Lemma handle_event_ok ev w :
  cursor_ok (self w) ->
  exists w', handle_event ev w = (Ok tt, w') /\ cursor_ok (self w') /\ input_frame w w'.
Proof.
  intros Hok.
  destruct ev as [|k|]; simpl; [unfold_monad; after_key| |unfold_monad; after_key].
  unfold_monad.
  destruct (state (self w)) eqn:Hst, k; simpl; try after_key.
  - (* list, UP *)
    destruct (Nat.ltb_spec 0 (selected_index (self w))); simpl; [|after_key].
    destruct (Nat.ltb_spec (selected_index (self w) - 1) (scroll_offset (self w))); simpl;
      after_key.
  - (* list, DOWN *)
    destruct (Nat.ltb_spec (selected_index (self w) + 1) (length (files_to_sync (self w))));
      simpl; [|after_key].
    destruct (Nat.leb_spec (scroll_offset (self w) + max_visible_items (self w))
                (selected_index (self w) + 1)); simpl; after_key.
  - (* list, SPACE *)
    unfold file_at. unfold_monad.
    destruct (files_to_sync (self w) !! selected_index (self w)) as [fi|] eqn:Hfi.
    + simpl. after_key.
    + apply lookup_ge_None in Hfi. destruct Hok as ([?|[?|?]] & _); [congruence..|lia].
  - (* list, d *)
    unfold file_at. unfold_monad.
    destruct (files_to_sync (self w) !! selected_index (self w)) as [fi|] eqn:Hfi.
    + destruct (get_file_diff_total (src fi) (dest fi) w)
        as (lines & w1 & -> & Hfs & Hout & Hself).
      simpl. rewrite <- Hself in Hok, Hst. apply lookup_lt_Some in Hfi.
      rewrite <- Hself in Hfi.
      eexists; split; [reflexivity|]. split.
      * unfold cursor_ok in *; simpl in *. destruct Hok as (_ & ? & ? & ? & _).
        repeat split; try done; try lia.
      * unfold input_frame; simpl. rewrite Hself. by repeat split.
    + apply lookup_ge_None in Hfi. destruct Hok as ([?|[?|?]] & _); [congruence..|lia].
  - (* list, RETURN *)
    destruct (existsb selected (files_to_sync (self w))); simpl; after_key.
  - (* diff, UP *)
    destruct (Nat.ltb_spec 0 (diff_scroll (self w))); simpl; after_key.
  - (* diff, DOWN *)
    destruct (Nat.ltb_spec (diff_scroll (self w)) (length (diff_lines (self w)) - 16)); simpl;
      after_key.
Qed.

(** The loop of [handle_input] keeps what one event keeps. *)
Lemma handle_input_ok events : forall w,
  cursor_ok (self w) ->
  exists w', handle_input events w = (Ok tt, w') /\ cursor_ok (self w') /\ input_frame w w'.
Proof.
  unfold handle_input. induction events as [|ev r IH]; intros w Hok; simpl.
  - exists w. split; [done|]. split; [done | apply input_frame_refl].
  - unfold mbind, M_bind.
    destruct (handle_event_ok ev w Hok) as (w1 & -> & Hok1 & Hf1).
    destruct (IH w1 Hok1) as (w2 & -> & Hok2 & Hf2).
    exists w2. split; [done|]. split; [done|]. by eapply input_frame_trans.
Qed.

(** X11: With the cursor invariant ([cursor_ok]: outside the scan and
    done states the cursor is on a candidate, inside the window of visible
    rows), [handle_input] raises nothing for any events, in particular no
    IndexError on SPACE or D. It keeps the invariant, the number of
    candidates, the tree and the output. *)
Theorem handle_input_never_fails (events : list event) (w : world) :
  cursor_ok (self w) ->
  exists w', handle_input events w = (Ok tt, w') /\ cursor_ok (self w') /\
    fs w' = fs w /\ stdout w' = stdout w /\
    length (files_to_sync (self w')) = length (files_to_sync (self w)).
Proof.
  intros Hok. destruct (handle_input_ok events w Hok) as (w' & Hrun & Hok' & Hf).
  exists w'. destruct Hf as (? & ? & _ & _ & _ & ? & _). auto.
Qed.

Lemma toggle_twice (l : list file_info) i fi :
  l !! i = Some fi ->
  <[i := set_selected (negb (selected (set_selected (negb (selected fi)) fi)))
           (set_selected (negb (selected fi)) fi)]>
    (<[i := set_selected (negb (selected fi)) fi]> l) = l.
Proof.
  intros Hfi. rewrite list_insert_insert_eq. apply list_insert_id.
  rewrite Hfi. f_equal. destruct fi as [s d r st b]. unfold set_selected; simpl.
  by rewrite negb_involutive.
Qed.

(** X12: On the list screen with the cursor on a candidate, pressing
    SPACE twice leaves the world exactly as it was: the second press undoes
    the first, and no other candidate or field is touched. *)
Theorem toggle_twice_restores (w : world) :
  state (self w) = St_list ->
  selected_index (self w) < length (files_to_sync (self w)) ->
  handle_input [KEYDOWN K_SPACE; KEYDOWN K_SPACE] w = (Ok tt, w).
Proof.
  intros Hst Hlt. apply lookup_lt_is_Some in Hlt. destruct Hlt as [fi Hfi].
  unfold handle_input. simpl. unfold file_at. unfold_monad. rewrite Hst, Hfi. simpl.
  rewrite Hst. simpl. rewrite list_lookup_insert_eq by (by apply lookup_lt_Some in Hfi).
  simpl. pose proof (toggle_twice _ _ _ Hfi) as Ht. simpl in Ht. rewrite Ht.
  destruct w as [n out log u]. destruct u. reflexivity.
Qed.


(** ** The screens and the application loop *)

Lemma width_le bs : Str.width bs <= length bs.
Proof.
  destruct bs as [|b0 [|b1 [|b2 [|b3 t]]]]; unfold Str.width; simpl;
    repeat case_match; simpl; lia.
Qed.

Lemma width_pos b0 t0 : 1 <= Str.width (b0 :: t0).
Proof.
  destruct t0 as [|b1 [|b2 [|b3 t]]]; unfold Str.width; repeat case_match; lia.
Qed.

Lemma split_turns t1 : forall t2 bs,
  length bs <= t1 -> length bs <= t2 -> Str.split t1 bs = Str.split t2 bs.
Proof.
  induction t1 as [|t1 IH]; intros t2 bs H1 H2.
  - destruct bs; [by destruct t2 | simpl in H1; lia].
  - destruct bs as [|b0 t0]; [by destruct t2|].
    destruct t2 as [|t2]; [simpl in H2; lia|].
    pose proof (width_pos b0 t0) as Hpos.
    cbn [Str.split]. f_equal. apply IH; rewrite length_drop; simpl in *; lia.
Qed.

Lemma split_enough turns bs :
  length bs <= turns -> Str.split turns bs = Str.split (length bs) bs.
Proof. intros H. by apply split_turns. Qed.

Lemma split_cons b0 t0 :
  Str.split (length (b0 :: t0)) (b0 :: t0) =
    take (Str.width (b0 :: t0)) (b0 :: t0) ::
    Str.split (length (drop (Str.width (b0 :: t0)) (b0 :: t0))) (drop (Str.width (b0 :: t0)) (b0 :: t0)).
Proof.
  pose proof (width_pos b0 t0) as Hpos.
  change (length (b0 :: t0)) with (S (length t0)) at 1. cbn [Str.split]. f_equal.
  apply split_enough. rewrite length_drop. cbn [length]. lia.
Qed.

Lemma concat_split bs : concat (Str.split (length bs) bs) = bs.
Proof.
  remember (length bs) as n eqn:Hn. revert bs Hn.
  induction n as [n IH] using lt_wf_ind. intros bs ->.
  destruct bs as [|b0 t0]; [done|].
  rewrite split_cons. cbn [concat].
  pose proof (width_pos b0 t0) as Hpos.
  rewrite (IH (length (drop (Str.width (b0 :: t0)) (b0 :: t0))));
    [|rewrite length_drop; cbn [length]; lia|done].
  apply take_drop.
Qed.

(** The first character stays the first character when what follows it is
    cut short. *)
Lemma width_stable bs y :
  bs <> [] -> y `prefix_of` drop (Str.width bs) bs ->
  Str.width (take (Str.width bs) bs ++ y) = Str.width bs.
Proof.
  intros Hne [z Hz].
  destruct bs as [|b0 t0]; [done|]. clear Hne.
  unfold Str.width in *.
  destruct (byte_in 194 223 b0) eqn:E2.
  { destruct t0 as [|b1 t1]; simpl in *.
    - destruct y; [|done]. simpl. by rewrite E2.
    - destruct (is_cont b1) eqn:C1; simpl in *.
      + by rewrite E2, C1.
      + rewrite E2. destruct y as [|y1 y']; [done|]. simpl in Hz. simplify_eq. by rewrite C1. }
  destruct (byte_in 224 239 b0) eqn:E3.
  { destruct t0 as [|b1 [|b2 t2]]; simpl in *.
    - destruct y; [|done]. simpl. by rewrite E2, E3.
    - rewrite E2, E3. destruct y as [|y1 [|y2 y']]; simpl in *; simplify_eq; try done; try (by destruct y').
    - destruct (second_of3 b0 b1 && is_cont b2) eqn:C; simpl in *.
      + by rewrite E2, E3, C.
      + rewrite E2, E3. destruct y as [|y1 [|y2 y']]; simpl in *; simplify_eq; try done; try (by rewrite C). }
  destruct (byte_in 240 244 b0) eqn:E4.
  { destruct t0 as [|b1 [|b2 [|b3 t3]]]; simpl in *.
    - destruct y; [|done]. simpl. by rewrite E2, E3, E4.
    - rewrite E2, E3, E4. destruct y as [|y1 [|y2 y']]; simpl in *; simplify_eq; try done; try (by destruct y').
    - rewrite E2, E3, E4.
      destruct y as [|y1 [|y2 [|y3 y']]]; simpl in *; simplify_eq; try done; try (by destruct y').
    - destruct (second_of4 b0 b1 && is_cont b2 && is_cont b3) eqn:C; simpl in *.
      + by rewrite E2, E3, E4, C.
      + rewrite E2, E3, E4.
        destruct y as [|y1 [|y2 [|y3 y']]]; simpl in *; simplify_eq; try done; try (by rewrite C). }
  simpl. by rewrite E2, E3, E4.
Qed.

Lemma split_take n : forall bs,
  let cs := take n (Str.split (length bs) bs) in
  Str.split (length (concat cs)) (concat cs) = cs.
Proof.
  induction n as [|n IH]; intros bs; [done|].
  destruct bs as [|b0 t0]; [done|].
  cbn zeta. rewrite split_cons. cbn [take concat].
  set (bs := b0 :: t0). set (rest := drop (Str.width bs) bs).
  set (y := concat (take n (Str.split (length rest) rest))).
  assert (Hy : y `prefix_of` rest).
  { exists (concat (drop n (Str.split (length rest) rest))). subst y.
    by rewrite <- concat_app, take_drop, concat_split. }
  pose proof (width_pos b0 t0) as Hpos. pose proof (width_le bs) as Hle.
  assert (Hc : take (Str.width bs) bs <> []).
  { subst bs. destruct (Str.width (b0 :: t0)); [lia | done]. }
  destruct (take (Str.width bs) bs ++ y) as [|c0 ct] eqn:Hcy.
  { by destruct (take (Str.width bs) bs). }
  rewrite split_cons. rewrite <- Hcy.
  rewrite (width_stable bs y) by done.
  rewrite take_app_length', drop_app_length' by (rewrite length_take; lia).
  f_equal. apply IH.
Qed.

Lemma list_byte_of_string_app a b :
  list_byte_of_string (a +:+ b) = list_byte_of_string a ++ list_byte_of_string b.
Proof.
  induction a as [|c a IH]; [done|].
  change (String c a +:+ b) with (String c (a +:+ b)).
  unfold list_byte_of_string in *. simpl. by rewrite IH.
Qed.

Lemma length_list_byte_of_string s : length (list_byte_of_string s) = String.length s.
Proof.
  unfold list_byte_of_string. rewrite length_map.
  induction s as [|c s IH]; simpl; [done | by rewrite IH].
Qed.

Lemma chars_bytes bs :
  Str.chars (string_of_list_byte bs) = Str.split (length bs) bs.
Proof.
  unfold Str.chars. rewrite list_byte_of_string_of_list_byte.
  rewrite <- length_list_byte_of_string, list_byte_of_string_of_list_byte. done.
Qed.

Lemma len_upto n s : Str.len (Str.upto n s) <= n.
Proof.
  unfold Str.len, Str.upto. rewrite chars_bytes. unfold Str.chars.
  rewrite <- length_list_byte_of_string.
  rewrite (split_take n (list_byte_of_string s)). rewrite length_take. lia.
Qed.

Lemma ascii_follows x :
  byte_in 0 127 x = true ->
  is_cont x = false /\ (forall b0, second_of3 b0 x = false) /\
  (forall b0, second_of4 b0 x = false).
Proof.
  unfold second_of3, second_of4, is_cont, byte_in. intros H.
  apply andb_true_iff in H as [_ H]. apply N.leb_le in H.
  assert (Hany : forall lo hi, (128 <= lo)%N ->
            (lo <=? Byte.to_N x)%N && (Byte.to_N x <=? hi)%N = false).
  { intros lo hi Hlo. apply andb_false_iff. left. apply N.leb_gt. lia. }
  split; [by apply Hany|]. split; intros b0; repeat case_match; by apply Hany.
Qed.

Lemma width_snoc bs x :
  bs <> [] -> byte_in 0 127 x = true -> Str.width (bs ++ [x]) = Str.width bs.
Proof.
  intros Hne Hx. destruct (ascii_follows x Hx) as (Hc & H3 & H4).
  destruct bs as [|b0 [|b1 [|b2 [|b3 t]]]]; [done|..]; unfold Str.width; simpl;
    rewrite ?Hc, ?H3, ?H4, ?andb_false_r; simpl; repeat case_match; done.
Qed.

Lemma width_ascii x t : byte_in 0 127 x = true -> Str.width (x :: t) = 1.
Proof.
  intros Hx. unfold Str.width, byte_in in *.
  apply andb_true_iff in Hx as [_ Hx]. apply N.leb_le in Hx.
  assert (Hany : forall lo hi, (128 <= lo)%N ->
            (lo <=? Byte.to_N x)%N && (Byte.to_N x <=? hi)%N = false).
  { intros lo hi Hlo. apply andb_false_iff. left. apply N.leb_gt. lia. }
  by rewrite !Hany by lia.
Qed.

Lemma split_snoc x : byte_in 0 127 x = true -> forall bs,
  Str.split (length (bs ++ [x])) (bs ++ [x]) = Str.split (length bs) bs ++ [[x]].
Proof.
  intros Hx bs. remember (length bs) as n eqn:Hn. revert bs Hn.
  induction n as [n IH] using lt_wf_ind. intros bs ->.
  destruct bs as [|b0 t0].
  - cbn [app length Str.split]. by rewrite width_ascii.
  - change ((b0 :: t0) ++ [x]) with (b0 :: (t0 ++ [x])). rewrite !split_cons.
    change (b0 :: (t0 ++ [x])) with ((b0 :: t0) ++ [x]).
    rewrite width_snoc by done.
    pose proof (width_pos b0 t0) as Hpos. pose proof (width_le (b0 :: t0)) as Hle.
    rewrite take_app_le, drop_app_le by done. cbn [app]. f_equal.
    eapply IH; [|done]. rewrite length_drop. cbn [length] in *. lia.
Qed.

Lemma len_dots s : Str.len (s +:+ "...") = Str.len s + 3.
Proof.
  unfold Str.len, Str.chars. rewrite <- !length_list_byte_of_string, list_byte_of_string_app.
  change (list_byte_of_string "...") with ([x2e] ++ [x2e] ++ [x2e]).
  rewrite !app_assoc. rewrite !split_snoc by done. rewrite !length_app. simpl. lia.
Qed.

Lemma painted_nil d : painted d [] = d.
Proof. unfold painted. rewrite app_nil_r. by destruct d. Qed.

Lemma painted_app d a b : painted (painted d a) b = painted d (a ++ b).
Proof. unfold painted; simpl. by rewrite app_assoc. Qed.

Lemma paint_painted c d : paint c d = painted d [c].
Proof. done. Qed.

(** A loop whose turns only paint: what all its turns paint. *)
Lemma for_range_paints (P : draw_cmd -> Prop) (Q mark : nat -> Prop) (hl : draw_cmd)
    (k : nat) (body : nat -> display -> M display) (w : world) l :
  (forall i d, Q i ->
     exists cmds, body i d w = (Ok (painted d cmds), w) /\ Forall P cmds /\
       length cmds <= k /\ (mark i -> hl ∈ cmds)) ->
  Forall Q l ->
  forall d, exists cmds,
    for_range l body d w = (Ok (painted d cmds), w) /\ Forall P cmds /\
    length cmds <= k * length l /\
    (forall i, i ∈ l -> mark i -> hl ∈ cmds).
Proof.
  intros Hbody HQ. induction HQ as [|i r Hi Hr IH]; intros d; simpl.
  - exists []. rewrite painted_nil. split; [done|]. split; [done|]. split; [simpl; lia|].
    intros i Hin. by apply elem_of_nil in Hin.
  - unfold mbind, M_bind.
    destruct (Hbody i d Hi) as (c1 & -> & HP1 & Hk1 & Hm1).
    destruct (IH (painted d c1)) as (c2 & -> & HP2 & Hk2 & Hm2).
    exists (c1 ++ c2). rewrite painted_app. split; [done|].
    split; [by apply Forall_app|]. split; [rewrite length_app; lia|].
    intros j Hin Hmark. apply elem_of_app. apply elem_of_cons in Hin.
    destruct Hin as [->|Hin]; [left; by apply Hm1 | right; by eapply Hm2].
Qed.

Ltac painted_eq :=
  unfold draw_text, draw_rect, draw_line, screen_fill;
  rewrite ?paint_painted, ?painted_app; reflexivity.

Ltac each_cmd :=
  repeat first [apply Forall_nil | apply Forall_cons; split].

Ltac cmds_ok :=
  unfold list_cmd_ok, on_screen, name_fits, thumb_in_track;
  each_cmd; cbv beta iota; repeat split; try done; try lia.

Lemma draw_list_row_paints w start i d :
  i < length (files_to_sync (self w)) -> start <= i < start + 12 ->
  exists cmds,
    draw_list_row start i d w = (Ok (painted d cmds), w) /\ Forall list_cmd_ok cmds /\
    length cmds <= 6 /\
    (i = selected_index (self w) -> start = scroll_offset (self w) ->
     highlight (self w) ∈ cmds).
Proof.
  intros Hi Hwin. apply lookup_lt_is_Some in Hi. destruct Hi as [fi Hfi].
  unfold draw_list_row, file_at. unfold_monad. rewrite Hfi. simpl.
  assert (Hname : Str.len (if 60 <? Str.len (rel_path fi)
                           then Str.upto 57 (rel_path fi) +:+ "..." else rel_path fi) <= 60).
  { destruct (Nat.ltb_spec 60 (Str.len (rel_path fi))); [|lia].
    rewrite len_dots. pose proof (len_upto 57 (rel_path fi)). lia. }
  set (filename := if 60 <? Str.len (rel_path fi) then _ else _) in *.
  set (status_text := if String.eqb (status fi) "new" then "NEW" else "MOD").
  set (status_color := if String.eqb (status fi) "new" then Color.YELLOW else Color.BLUE).
  destruct (Nat.eqb_spec i (selected_index (self w))) as [Hsel|Hsel];
    destruct (selected fi);
    (eexists; split; [painted_eq|]); (split; [|split; [simpl; lia|intros E1 E2]]).
  all: try (unfold list_cmd_ok, on_screen, name_fits, thumb_in_track; each_cmd; simpl;
            try done; try lia).
  all: unfold highlight; rewrite <- E1, <- E2; by left.
Qed.

Lemma elem_of_range i lo hi : i ∈ range lo hi <-> lo <= i < hi.
Proof. unfold range. rewrite elem_of_seq. lia. Qed.

Lemma thumb_geometry (mv len so : nat) :
  mv < len -> so = 0 \/ so + mv <= len ->
  let thumb_height := Z.max 20 (300 * Z.of_nat mv / Z.of_nat len) in
  let thumb_y :=
    (100 + (300 - thumb_height) * Z.of_nat so / (Z.of_nat len - Z.of_nat mv))%Z in
  (20 <= thumb_height <= 300 /\ 100 <= thumb_y /\ thumb_y + thumb_height <= 400)%Z.
Proof.
  intros Hlt Hso th ty.
  assert (Hth : (20 <= th <= 300)%Z).
  { subst th. split; [lia|]. apply Z.max_lub; [lia|].
    apply Z.div_le_upper_bound; [lia|]. nia. }
  split; [done|]. subst ty.
  assert (Hpos : (0 <= (300 - th) * Z.of_nat so / (Z.of_nat len - Z.of_nat mv))%Z).
  { apply Z.div_pos; [nia | lia]. }
  assert (Hup : ((300 - th) * Z.of_nat so / (Z.of_nat len - Z.of_nat mv) <= 300 - th)%Z).
  { apply Z.div_le_upper_bound; [lia|]. nia. }
  lia.
Qed.

Lemma draw_list_screen_paints w d :
  max_visible_items (self w) <= 12 ->
  scroll_offset (self w) = 0 \/
  scroll_offset (self w) + max_visible_items (self w) <= length (files_to_sync (self w)) ->
  exists cmds,
    draw_list_screen d w = (Ok (Display (Fill Color.BLACK :: cmds) (flipped d)), w) /\
    Forall list_cmd_ok cmds /\
    (scroll_offset (self w) <= selected_index (self w)
       < scroll_offset (self w) + max_visible_items (self w) ->
     selected_index (self w) < length (files_to_sync (self w)) ->
     highlight (self w) ∈ cmds).
Proof.
  intros Hmv Hso. unfold draw_list_screen. unfold_monad.
  set (visible_start := scroll_offset (self w)).
  set (visible_end := Nat.min _ _).
  set (d0 := draw_text _ 20 60 _ _ _ _).
  destruct (for_range_paints list_cmd_ok
              (fun i => i < length (files_to_sync (self w)) /\
                        visible_start <= i < visible_start + 12)
              (fun i => i = selected_index (self w)) (highlight (self w)) 6
              (draw_list_row visible_start) w (range visible_start visible_end))
    with (d := d0) as (rows & -> & Hrows & _ & Hhl).
  { intros i d1 [Hi Hwin].
    destruct (draw_list_row_paints w visible_start i d1 Hi Hwin)
      as (cmds & Hrun & Hok & Hk & Hm).
    exists cmds. split; [done|]. split; [done|]. split; [done|]. intros E. by apply Hm. }
  { apply Forall_forall. intros i Hin. apply elem_of_range in Hin.
    subst visible_end visible_start. lia. }
  assert (Hmem : scroll_offset (self w) <= selected_index (self w)
                   < scroll_offset (self w) + max_visible_items (self w) ->
                 selected_index (self w) < length (files_to_sync (self w)) ->
                 highlight (self w) ∈ rows).
  { intros Hwin Hlt. apply (Hhl (selected_index (self w))); [|done].
    apply elem_of_range. subst visible_end visible_start. lia. }
  assert (Hhead : exists head, d0 = Display (Fill Color.BLACK :: head) (flipped d) /\
                    Forall list_cmd_ok head).
  { eexists. split; [subst d0; reflexivity|]. cmds_ok. }
  destruct Hhead as (head & Hd0 & Hhead). rewrite Hd0. clearbody d0. subst d0.
  destruct (Nat.ltb_spec (max_visible_items (self w)) (length (files_to_sync (self w))))
    as [Hlt|Hge].
  - pose proof (thumb_geometry _ _ _ Hlt Hso) as Hthumb. simpl in Hthumb.
    clear Hhl. subst visible_end visible_start.
    set (th := Z.max 20 _) in *. set (ty := (100 + _ / _)%Z) in *. clearbody th ty.
    eexists. split; [unfold draw_rect, painted, paint; simpl; reflexivity|]. split.
    + rewrite <- !app_assoc. apply Forall_app; split; [done|].
      apply Forall_app; split; [done|].
      cmds_ok.
    + intros Hwin Hsel. rewrite <- !app_assoc. apply elem_of_app. right.
      apply elem_of_app. left. by apply Hmem.
  - eexists. split; [unfold painted; simpl; reflexivity|]. split.
    + by apply Forall_app.
    + intros Hwin Hsel. apply elem_of_app. right. by apply Hmem.
Qed.

Ltac diff_cmds_ok :=
  unfold diff_cmd_ok, on_screen, line_fits;
  each_cmd; cbv beta iota; repeat split; try done; try lia.

Lemma draw_diff_row_paints w start i d :
  i < length (diff_lines (self w)) -> start <= i < start + 16 ->
  exists cmds,
    draw_diff_row start i d w = (Ok (painted d cmds), w) /\ Forall diff_cmd_ok cmds /\
    length cmds <= 1.
Proof.
  intros Hi Hwin. apply lookup_lt_is_Some in Hi. destruct Hi as [line Hline].
  unfold draw_diff_row, diff_line_at. unfold_monad. rewrite Hline. simpl.
  assert (Hlen : Str.len (if 80 <? Str.len line then Str.upto 80 line else line) <= 80).
  { destruct (Nat.ltb_spec 80 (Str.len line)); [apply len_upto | lia]. }
  set (display_line := if 80 <? Str.len line then _ else _) in *.
  set (color := if Str.startswith line "+" then _ else _).
  eexists. split; [painted_eq|]. split; [diff_cmds_ok | simpl; lia].
Qed.

Lemma draw_diff_screen_paints w d :
  selected_index (self w) < length (files_to_sync (self w)) ->
  exists cmds,
    draw_diff_screen d w = (Ok (Display (Fill Color.BLACK :: cmds) (flipped d)), w) /\
    Forall diff_cmd_ok cmds /\ length cmds <= 3 + 16.
Proof.
  intros Hsel. apply lookup_lt_is_Some in Hsel. destruct Hsel as [fi Hfi].
  unfold draw_diff_screen, file_at. unfold_monad. rewrite Hfi.
  set (visible_start := diff_scroll (self w)).
  set (visible_end := Nat.min _ _).
  set (d0 := draw_text _ 20 85 _ _ _ _).
  destruct (for_range_paints diff_cmd_ok
              (fun i => i < length (diff_lines (self w)) /\
                        visible_start <= i < visible_start + 16)
              (fun _ => False) (Fill Color.BLACK) 1
              (draw_diff_row visible_start) w (range visible_start visible_end))
    with (d := d0) as (rows & -> & Hrows & Hlen & _).
  { intros i d1 [Hi Hwin].
    destruct (draw_diff_row_paints w visible_start i d1 Hi Hwin) as (cmds & Hrun & Hok & Hk).
    exists cmds. by split. }
  { apply Forall_forall. intros i Hin. apply elem_of_range in Hin.
    subst visible_end visible_start. lia. }
  eexists. split; [subst d0; unfold painted; simpl; reflexivity|]. split.
  - repeat (apply Forall_cons; split; [diff_cmds_ok|]). done.
  - unfold range in Hlen. rewrite length_seq in Hlen. simpl.
    subst visible_end visible_start. lia.
Qed.

Lemma display_flip_ok d : shown_ok d -> shown_ok (display_flip d).
Proof.
  intros [Hs Hf]. split; [done|]. simpl. apply Forall_app. split; [done|].
  by constructor.
Qed.

Ltac screen_ok :=
  unfold on_screen; each_cmd; cbv beta iota; repeat split; try done; try lia.

Lemma draw_scan_screen_ok d w :
  shown_ok d -> exists d', draw_scan_screen d w = (Ok d', w) /\ shown_ok d'.
Proof.
  intros [Hs Hf]. unfold draw_scan_screen, path_exists. unfold_monad. simpl.
  destruct (bool_decide _); simpl; eexists; (split; [reflexivity|]);
    (split; [|done]); simpl; screen_ok.
Qed.

Lemma draw_list_screen_ok d w :
  cursor_ok (self w) -> max_visible_items (self w) <= 12 -> shown_ok d ->
  exists d', draw_list_screen d w = (Ok d', w) /\ shown_ok d'.
Proof.
  intros (_ & _ & _ & Hso & _) Hmv [Hs Hf].
  destruct (draw_list_screen_paints w d Hmv Hso) as (cmds & -> & Hok & _).
  eexists. split; [done|]. split; [|done]. simpl. constructor; [done|].
  eapply Forall_impl; [done|]. by intros c [? _].
Qed.

Lemma draw_diff_screen_ok d w :
  selected_index (self w) < length (files_to_sync (self w)) -> shown_ok d ->
  exists d', draw_diff_screen d w = (Ok d', w) /\ shown_ok d'.
Proof.
  intros Hsel [Hs Hf].
  destruct (draw_diff_screen_paints w d Hsel) as (cmds & -> & Hok & _).
  eexists. split; [done|]. split; [|done]. simpl. constructor; [done|].
  eapply Forall_impl; [done|]. by intros c [? _].
Qed.

Lemma draw_confirm_screen_ok d w :
  shown_ok d -> exists d', draw_confirm_screen d w = (Ok d', w) /\ shown_ok d'.
Proof.
  intros [Hs Hf]. unfold draw_confirm_screen. unfold_monad. simpl.
  eexists. split; [reflexivity|]. split; [|done]. simpl. screen_ok.
Qed.

Lemma draw_syncing_screen_ok success fail d w :
  shown_ok d -> exists d', draw_syncing_screen success fail d w = (Ok d', w) /\ shown_ok d'.
Proof.
  intros [Hs Hf]. unfold draw_syncing_screen. unfold_monad. simpl.
  eexists. split; [reflexivity|]. split; [|done]. simpl. screen_ok.
Qed.

Lemma draw_done_screen_ok success fail d w :
  shown_ok d -> exists d', draw_done_screen success fail d w = (Ok d', w) /\ shown_ok d'.
Proof.
  intros [Hs Hf]. unfold draw_done_screen. unfold_monad. simpl.
  destruct (0 <? fail); eexists; (split; [reflexivity|]); (split; [|done]); simpl; screen_ok.
Qed.

Ltac state_goal :=
  simpl in *;
  match goal with
  | |- _ /\ _ => split; state_goal
  | |- _ <-> _ => split; state_goal
  | |- _ -> _ => intros; state_goal
  | |- _ => first [done | congruence | lia]
  end.

Ltac key_done Hst := intros [= <-]; simpl; rewrite ?Hst; state_goal.

Lemma handle_event_steps ev w w' :
  handle_event ev w = (Ok tt, w') ->
  (state (self w) = St_done <-> state (self w') = St_done) /\
  steps_to_sync (state (self w)) <=
    steps_to_sync (state (self w')) + (if is_return ev then 1 else 0).
Proof.
  destruct ev as [|k|]; simpl; unfold_monad; try (intros [= <-]; state_goal).
  destruct (state (self w)) eqn:Hst, k; simpl; try key_done Hst.
  - destruct (0 <? selected_index (self w)); simpl; [|key_done Hst].
    destruct (selected_index (self w) - 1 <? scroll_offset (self w)); simpl; key_done Hst.
  - destruct (selected_index (self w) + 1 <? length (files_to_sync (self w))); simpl;
      [|key_done Hst].
    destruct (scroll_offset (self w) + max_visible_items (self w) <=?
              selected_index (self w) + 1); simpl; key_done Hst.
  - unfold file_at. unfold_monad.
    destruct (files_to_sync (self w) !! selected_index (self w)); [|discriminate].
    key_done Hst.
  - unfold file_at. unfold_monad.
    destruct (files_to_sync (self w) !! selected_index (self w)) as [fi|]; [|discriminate].
    destruct (get_file_diff_total (src fi) (dest fi) w) as (lines & w1 & -> & _ & _ & _).
    key_done Hst.
  - destruct (existsb selected (files_to_sync (self w))); simpl; key_done Hst.
  - destruct (0 <? diff_scroll (self w)); simpl; key_done Hst.
  - destruct (diff_scroll (self w) <? length (diff_lines (self w)) - 16); simpl; key_done Hst.
Qed.

Lemma confirmations_cons ev events :
  confirmations (ev :: events) = (if is_return ev then 1 else 0) + confirmations events.
Proof.
  unfold confirmations. destruct (is_return ev) eqn:E.
  - by rewrite filter_cons_True.
  - rewrite filter_cons_False; [done|]. by rewrite E.
Qed.

Lemma confirmations_app a b :
  confirmations (a ++ b) = confirmations a + confirmations b.
Proof. unfold confirmations. by rewrite filter_app, length_app. Qed.

Lemma handle_input_steps events : forall w w',
  handle_input events w = (Ok tt, w') ->
  (state (self w) = St_done <-> state (self w') = St_done) /\
  steps_to_sync (state (self w)) <= steps_to_sync (state (self w')) + confirmations events.
Proof.
  unfold handle_input. induction events as [|ev r IH]; intros w w'; simpl.
  - unfold_monad. intros [= <-]. split; [done|]. lia.
  - unfold mbind, M_bind. destruct (handle_event ev w) as [[[]|e] w1] eqn:Hev; [|discriminate].
    intros Hrest. destruct (handle_event_steps _ _ _ Hev) as [Hd1 Hs1].
    destruct (IH _ _ Hrest) as [Hd2 Hs2]. rewrite confirmations_cons.
    split; [by rewrite Hd1|]. lia.
Qed.

Lemma sync_selected_files_total w :
  exists counts w', sync_selected_files w = (Ok counts, w') /\ self w' = self w.
Proof.
  pose proof (keeps_sync_loop (files_to_sync (self w)) 0 0 w) as Hself.
  unfold sync_selected_files. unfold_monad.
  destruct (sync_loop_effect (files_to_sync (self w)) 0 0 w) as (s & f & w' & Hrun & _).
  rewrite Hrun in Hself |- *. eauto.
Qed.

Lemma ui_ok_set_state st u :
  ui_ok u -> (st = St_scan \/ st = St_done \/ selected_index u < length (files_to_sync u)) ->
  ui_ok (set_state st u).
Proof. intros [(H1 & H2 & H3 & H4 & H5) Hmv] Hst. by repeat split. Qed.

Lemma main_loop_ok frames : forall success fail d w,
  ui_ok (self w) -> shown_ok d ->
  exists d' w',
    App.main_loop frames success fail d w = (Ok d', w') /\ ui_ok (self w') /\ shown_ok d' /\
    (state (self w) = St_done \/
     confirmations (concat frames) < steps_to_sync (state (self w)) ->
     fs w' = fs w /\ stdout w' = stdout w).
Proof.
  induction frames as [|events rest IH]; intros success fail d w Hui Hd; simpl.
  { exists d, w. split; [done|]. split; [done|]. split; [done|]. by intros. }
  unfold mbind at 1, M_bind at 1. unfold get_self at 1.
  destruct (running (self w));
    [|exists d, w; split; [done|]; split; [done|]; split; [done|]; by intros].
  unfold mbind at 1, M_bind at 1.
  destruct Hui as [Hcur Hmv].
  destruct (handle_input_ok events w Hcur) as (w1 & Hin & Hcur1 & Hframe).
  rewrite Hin. destruct (handle_input_steps _ _ _ Hin) as [Hdone Hsteps].
  destruct Hframe as (Hfs1 & Hout1 & _ & _ & _ & _ & Hmv1).
  assert (Hui1 : ui_ok (self w1)) by (split; [done | lia]).
  rewrite confirmations_app.
  unfold mbind at 1, M_bind at 1. unfold get_self at 1.
  assert (Hquiet : forall d1 s f,
    shown_ok d1 -> state (self w1) <> St_syncing ->
    exists d' w',
      App.main_loop rest s f (display_flip d1) w1 = (Ok d', w') /\ ui_ok (self w') /\
      shown_ok d' /\
      (state (self w) = St_done \/
       confirmations events + confirmations (concat rest) < steps_to_sync (state (self w)) ->
       fs w' = fs w /\ stdout w' = stdout w)).
  { intros d1 s f Hd1 Hns.
    destruct (IH s f (display_flip d1) w1 Hui1 (display_flip_ok _ Hd1))
      as (d' & w' & -> & Hui' & Hd' & Hq).
    exists d', w'. split; [done|]. split; [done|]. split; [done|].
    intros Hpre. rewrite <- Hfs1, <- Hout1. apply Hq.
    destruct Hpre as [Hpre|Hpre]; [left; by apply Hdone | right; lia]. }
  destruct (state (self w1)) eqn:Hst1; unfold mbind at 1, M_bind at 1.
  - destruct (draw_scan_screen_ok d w1 Hd) as (d1 & -> & Hd1). by apply Hquiet.
  - destruct (draw_list_screen_ok d w1 Hcur1 ltac:(lia) Hd) as (d1 & -> & Hd1).
    by apply Hquiet.
  - destruct (draw_confirm_screen_ok d w1 Hd) as (d1 & -> & Hd1). by apply Hquiet.
  - assert (Hsel : selected_index (self w1) < length (files_to_sync (self w1))).
    { destruct Hcur1 as ([?|[?|?]] & _); congruence. }
    destruct (draw_diff_screen_ok d w1 Hsel Hd) as (d1 & -> & Hd1). by apply Hquiet.
  - destruct (draw_syncing_screen_ok success fail d w1 Hd) as (d1 & -> & Hd1).
    unfold mbind at 1, M_bind at 1.
    destruct (sync_selected_files_total w1) as (counts & w2 & -> & Hself2).
    unfold mbind at 1, M_bind at 1. unfold modify_self. unfold_monad. simpl.
    set (w3 := World _ _ _ _).
    assert (Hui3 : ui_ok (self w3)).
    { subst w3; simpl. rewrite Hself2. apply ui_ok_set_state; auto. }
    destruct (IH counts.1 counts.2 (display_flip (display_flip d1)) w3 Hui3
                (display_flip_ok _ (display_flip_ok _ Hd1)))
      as (d' & w' & -> & Hui' & Hd' & _).
    exists d', w'. split; [done|]. split; [done|]. split; [done|].
    intros [Hpre|Hpre].
    + apply Hdone in Hpre. congruence.
    + simpl in Hsteps. lia.
  - destruct (draw_done_screen_ok success fail d w1 Hd) as (d1 & -> & Hd1). by apply Hquiet.
Qed.

Lemma scan_loop_ok frames : forall d w,
  ui_ok (self w) -> shown_ok d ->
  exists d' w',
    App.scan_loop frames d w = (Ok d', w') /\ shown_ok d' /\
    fs w' = fs w /\ stdout w' = stdout w.
Proof.
  induction frames as [|events rest IH]; intros d w Hui Hd; simpl.
  { exists d, w. by split. }
  unfold mbind at 1, M_bind at 1. unfold get_self at 1.
  destruct (running (self w)); [|exists d, w; by split].
  unfold mbind at 1, M_bind at 1.
  destruct Hui as [Hcur Hmv].
  destruct (handle_input_ok events w Hcur) as (w1 & -> & Hcur1 & Hframe).
  destruct Hframe as (Hfs1 & Hout1 & _ & _ & _ & _ & Hmv1).
  unfold mbind at 1, M_bind at 1.
  destruct (draw_scan_screen_ok d w1 Hd) as (d1 & -> & Hd1).
  destruct (IH (display_flip d1) w1) as (d' & w' & -> & Hd' & Hfs' & Hout').
  - split; [done | lia].
  - by apply display_flip_ok.
  - exists d', w'. split; [done|]. split; [done|]. split; congruence.
Qed.

Lemma ui_ok_after_scan roms root cands :
  ui_ok (set_state (match cands with [] => St_done | _ :: _ => St_list end)
           (set_files_to_sync cands (init roms root))).
Proof.
  split; [|simpl; lia]. unfold cursor_ok; simpl.
  destruct cands as [|fi r]; simpl; repeat split; auto; lia.
Qed.

(** A run of the application from a freshly constructed object. *)
Lemma run_ok frames n out log roms root :
  exists d' w',
    App.run frames App.blank (World n out log (init roms root)) = (Ok d', w') /\
    shown_ok d' /\
    (confirmations (concat frames) < 2 -> fs w' = n /\ stdout w' = out).
Proof.
  set (w := World n out log (init roms root)).
  assert (Hblank : shown_ok App.blank) by (split; constructor).
  unfold App.run. unfold mbind at 1, M_bind at 1.
  destruct (resolve (fs w) (system_path (self w))) as [x|] eqn:Hx.
  - destruct (check_system_folder_scan w x Hx) as (w1 & -> & Hfs1 & Hout1 & Hself1).
    simpl. unfold mbind at 1, M_bind at 1. unfold get_self at 1.
    unfold mbind at 1, M_bind at 1.
    set (cands := candidates _ _ _) in *.
    assert (Hstep : exists w2,
      (match files_to_sync (self w1) with
       | [] => modify_self (set_state St_done)
       | _ :: _ => modify_self (set_state St_list)
       end) w1 = (Ok tt, w2) /\ fs w2 = n /\ stdout w2 = out /\
      self w2 = set_state (match cands with [] => St_done | _ :: _ => St_list end)
                  (set_files_to_sync cands (init roms root))).
    { rewrite Hself1. simpl. destruct cands; unfold_monad; simpl;
        (eexists; split; [reflexivity|]); rewrite Hself1; by repeat split. }
    destruct Hstep as (w2 & -> & Hfs2 & Hout2 & Hself2).
    destruct (main_loop_ok frames 0 0 App.blank w2) as (d' & w' & -> & _ & Hd' & Hq).
    + rewrite Hself2. apply ui_ok_after_scan.
    + done.
    + exists d', w'. split; [done|]. split; [done|]. intros Hlt.
      rewrite <- Hfs2, <- Hout2. apply Hq. rewrite Hself2.
      destruct cands; simpl; [by left | right; lia].
  - rewrite (check_system_folder_missing w Hx). simpl.
    destruct (scan_loop_ok frames App.blank w) as (d' & w' & -> & Hd' & Hfs' & Hout').
    + split; [|simpl; lia]. unfold cursor_ok; simpl. repeat split; auto; lia.
    + done.
    + exists d', w'. split; [done|]. split; [done|]. intros _.
      split; [exact Hfs' | exact Hout'].
Qed.

Lemma handle_event_in_scan ev w w' :
  state (self w) = St_scan -> handle_event ev w = (Ok tt, w') ->
  state (self w') = St_scan.
Proof.
  intros Hst. destruct ev as [|k|]; simpl; unfold_monad; rewrite ?Hst;
    [|destruct k|]; intros [= <-]; done.
Qed.

Lemma handle_input_in_scan events : forall w w',
  state (self w) = St_scan -> handle_input events w = (Ok tt, w') ->
  state (self w') = St_scan.
Proof.
  unfold handle_input. induction events as [|ev r IH]; intros w w' Hst; simpl.
  - unfold_monad. by intros [= <-].
  - unfold mbind, M_bind. destruct (handle_event ev w) as [[[]|e] w1] eqn:Hev; [|discriminate].
    apply IH. by eapply handle_event_in_scan.
Qed.

Lemma scan_loop_missing frames : forall d w,
  ui_ok (self w) -> state (self w) = St_scan ->
  resolve (fs w) (system_path (self w)) = None ->
  Forall (fun s => not_found_notice ∈ s) (flipped d) ->
  exists d' w',
    App.scan_loop frames d w = (Ok d', w') /\ state (self w') = St_scan /\
    Forall (fun s => not_found_notice ∈ s) (flipped d').
Proof.
  induction frames as [|events rest IH]; intros d w Hui Hst Hx Hd; simpl.
  { exists d, w. by split. }
  unfold mbind at 1, M_bind at 1. unfold get_self at 1.
  destruct (running (self w)); [|exists d, w; by split].
  unfold mbind at 1, M_bind at 1.
  destruct Hui as [Hcur Hmv].
  destruct (handle_input_ok events w Hcur) as (w1 & Hin & Hcur1 & Hframe).
  rewrite Hin. pose proof (handle_input_in_scan _ _ _ Hst Hin) as Hst1.
  destruct Hframe as (Hfs1 & Hout1 & _ & Hsp1 & _ & _ & Hmv1).
  unfold mbind at 1, M_bind at 1.
  assert (Hdraw : exists s, draw_scan_screen d w1 = (Ok (Display s (flipped d)), w1) /\
                    not_found_notice ∈ s).
  { unfold draw_scan_screen, path_exists. unfold_monad. simpl.
    rewrite Hfs1, Hsp1, Hx. rewrite bool_decide_eq_false_2 by (intros [? ?]; discriminate).
    simpl. eexists. split; [reflexivity|]. unfold not_found_notice. set_solver. }
  destruct Hdraw as (s & -> & Hs).
  apply IH.
  - split; [done | lia].
  - done.
  - by rewrite Hfs1, Hsp1.
  - simpl. apply Forall_app. split; [done|]. by constructor.
Qed.


(** ** The screens and the application loop: what a user sees *)

Lemma handle_input_never_fails_witness :
  exists w',
    handle_input [KEYDOWN K_DOWN; KEYDOWN K_SPACE; KEYDOWN K_d; KEYDOWN K_DOWN]
      Screens.listing = (Ok tt, w') /\
    fs w' = Sample.tree.
Proof.
  destruct (handle_input_never_fails
              [KEYDOWN K_DOWN; KEYDOWN K_SPACE; KEYDOWN K_d; KEYDOWN K_DOWN] Screens.listing)
    as (w' & Hrun & _ & Hfs & _).
  - unfold cursor_ok. vm_compute. repeat split; auto; lia.
  - exists w'. split; [done|]. rewrite Hfs. reflexivity.
Defined.

Lemma toggle_twice_restores_witness :
  handle_input [KEYDOWN K_SPACE; KEYDOWN K_SPACE] Screens.listing = (Ok tt, Screens.listing).
Proof.
  apply toggle_twice_restores; [reflexivity|]. vm_compute. lia.
Defined.


(** X21: [get_file_diff] reports the error it meets itself: whatever the
    stored status of the candidate, when the target exists and opening the
    overlay file, or else the target file, raises [e] at the time of the
    request, it answers the single line "Cannot generate diff: <str(e)>";
    the overlay file has been opened. *)
Theorem diff_surfaces_fresh_error fi w e :
  is_Some (resolve (fs w) (dest fi)) ->
  (read_of (fs w) (src fi) = Raise e \/
   (exists data, read_of (fs w) (src fi) = Ok data) /\ read_of (fs w) (dest fi) = Raise e) ->
  (get_file_diff (src fi) (dest fi) w).1 = Ok ["Cannot generate diff: " +:+ str_exn e] /\
  (src fi, "r") ∈ open_log (get_file_diff (src fi) (dest fi) w).2.
Proof.
  intros [x Hx] Hfail. rewrite get_file_diff_run, Hx.
  destruct Hfail as [-> | [[data ->] ->]]; simpl; (split; [done|]);
    rewrite elem_of_app; right; by left.
Qed.

Lemma diff_surfaces_fresh_error_witness :
  let fi := FileInfo (Sample.over ["etc"; "secret"]) ["etc"; "secret"] "etc/secret"
              "modified" true in
  (get_file_diff (src fi) (dest fi) Sample.w0).1 =
    Ok ["Cannot generate diff: [Errno 13] Permission denied: '/etc/secret'"] /\
  (src fi, "r") ∈ open_log (get_file_diff (src fi) (dest fi) Sample.w0).2.
Proof.
  apply (diff_surfaces_fresh_error
           (FileInfo (Sample.over ["etc"; "secret"]) ["etc"; "secret"] "etc/secret"
              "modified" true)
           Sample.w0 (PermissionError ["etc"; "secret"])).
  - vm_compute. eauto.
  - right. split; [eexists|]; vm_compute; reflexivity.
Defined.

(** X14: On the list screen, with the cursor on a candidate and inside
    the window of at most 12 rows, [draw_list_screen] indexes nothing out
    of range (pygame's own calls are taken to succeed), changes nothing
    but the surface, and draws the highlight of the row of the cursor.
    Every call is inside the 640 x 480 surface, every file name drawn
    holds at most 60 characters as Python's [len] counts them (one for
    each byte of a name that is not UTF-8), and the thumb of the
    scrollbar lies in its track. *)
Theorem list_screen_layout (w : world) (d : display) :
  cursor_ok (self w) ->
  selected_index (self w) < length (files_to_sync (self w)) ->
  max_visible_items (self w) <= 12 ->
  exists cmds,
    draw_list_screen d w = (Ok (Display (Fill Color.BLACK :: cmds) (flipped d)), w) /\
    highlight (self w) ∈ cmds /\
    Forall on_screen cmds /\ Forall name_fits cmds /\ Forall thumb_in_track cmds.
Proof.
  intros (_ & Hlo & Hhi & Hso & _) Hsel Hmv.
  destruct (draw_list_screen_paints w d Hmv Hso) as (cmds & Hrun & Hok & Hhl).
  exists cmds. split; [done|]. split; [by apply Hhl|].
  repeat split; (eapply Forall_impl; [exact Hok|]); by intros c (? & ? & ?).
Qed.

Lemma list_screen_layout_witness :
  exists cmds,
    draw_list_screen App.blank Screens.listing
      = (Ok (Display (Fill Color.BLACK :: cmds) []), Screens.listing) /\
    Rect Color.DARK_GRAY 10 98 620 28 0 ∈ cmds.
Proof.
  destruct (list_screen_layout Screens.listing App.blank) as (cmds & Hrun & Hhl & _).
  - unfold cursor_ok. vm_compute. repeat split; auto; lia.
  - vm_compute. lia.
  - vm_compute. lia.
  - exists cmds. split; [exact Hrun | exact Hhl].
Defined.



(** X16: A run of the application from a freshly constructed object
    never raises [IndexError], on any tree and for any sequence of events:
    no indexing of [files_to_sync] or [diff_lines], in [handle_input] or in
    a draw method, is out of range. (Errors of the operating system and of
    pygame are another matter: [system_path.exists()] and [dest.exists()]
    are called outside any [try] during the scan, and [font.render]
    refuses some texts.) *)
Theorem run_never_raises_IndexError (frames : list (list event)) (n : node)
    (out : list string) (log : list (path * string)) (roms root : path) (msg : string) :
  (App.run frames App.blank (World n out log (init roms root))).1 <> Raise (IndexError msg).
Proof.
  destruct (run_ok frames n out log roms root) as (d' & w' & -> & _). discriminate.
Qed.

(** X17: Every screen such a run shows, at each [pygame.display.flip()],
    was drawn inside the 640 x 480 surface: each text is anchored in it,
    each rectangle and line lies in it. *)
Theorem run_draws_inside_the_window (frames : list (list event)) (n : node)
    (out : list string) (log : list (path * string)) (roms root : path) :
  exists d' w',
    App.run frames App.blank (World n out log (init roms root)) = (Ok d', w') /\
    Forall (Forall on_screen) (flipped d').
Proof.
  destruct (run_ok frames n out log roms root) as (d' & w' & Hrun & [_ Hd] & _). eauto.
Qed.

(** X18: Without two presses of RETURN (one on the list, one on the
    confirmation screen) a run copies nothing: the tree and the output are
    as they were when it started. *)
Theorem run_writes_nothing_without_confirmation (frames : list (list event)) (n : node)
    (out : list string) (log : list (path * string)) (roms root : path) :
  confirmations (concat frames) < 2 ->
  exists d' w',
    App.run frames App.blank (World n out log (init roms root)) = (Ok d', w') /\
    fs w' = n /\ stdout w' = out.
Proof.
  intros Hlt. destruct (run_ok frames n out log roms root) as (d' & w' & Hrun & _ & Hq).
  exists d', w'. split; [done|]. by apply Hq.
Qed.

Lemma run_writes_nothing_without_confirmation_witness :
  exists d' w',
    App.run [[KEYDOWN K_SPACE]; [KEYDOWN K_RETURN]; [KEYDOWN K_ESCAPE; KEYDOWN K_d]; []]
      App.blank Sample.w0 = (Ok d', w') /\
    fs w' = Sample.tree /\ stdout w' = [].
Proof.
  apply (run_writes_nothing_without_confirmation
           [[KEYDOWN K_SPACE]; [KEYDOWN K_RETURN]; [KEYDOWN K_ESCAPE; KEYDOWN K_d]; []]
           Sample.tree [] [] Sample.roms []).
  vm_compute. lia.
Defined.

(** X19: When the System folder can be stat'ed ([can_stat]; otherwise
    [system_path.exists()] raises before anything is drawn) and does not
    exist, a run stays on the scan screen: every screen it shows carries
    the notice "System folder not found!", the state is still "scan" at
    the end, and nothing is copied or printed. *)
Theorem run_reports_missing_folder (frames : list (list event)) (n : node)
    (out : list string) (log : list (path * string)) (roms root : path) :
  can_stat n (joinpath roms ["System"]) = true ->
  resolve n (joinpath roms ["System"]) = None ->
  exists d' w',
    App.run frames App.blank (World n out log (init roms root)) = (Ok d', w') /\
    Forall (fun s => not_found_notice ∈ s) (flipped d') /\
    state (self w') = St_scan /\ fs w' = n /\ stdout w' = out.
Proof.
  intros _ Hx. set (w := World n out log (init roms root)).
  assert (Hui : ui_ok (self w)).
  { split; [|simpl; lia]. unfold cursor_ok; simpl. repeat split; auto; lia. }
  destruct (scan_loop_missing frames App.blank w Hui eq_refl Hx ltac:(constructor))
    as (d' & w' & Hrun & Hst & Hd).
  destruct (scan_loop_ok frames App.blank w Hui ltac:(split; constructor))
    as (d2 & w2 & Hrun2 & _ & Hfs & Hout).
  rewrite Hrun in Hrun2. injection Hrun2 as <- <-.
  exists d', w'. unfold App.run. unfold mbind at 1, M_bind at 1.
  rewrite (check_system_folder_missing w Hx). simpl. by repeat split.
Qed.

Lemma run_reports_missing_folder_witness :
  exists d' w',
    App.run [[KEYDOWN K_RETURN]; [KEYDOWN K_ESCAPE]; [KEYDOWN K_d]] App.blank Sample.w_missing
      = (Ok d', w') /\
    length (flipped d') = 2 /\ Forall (fun s => not_found_notice ∈ s) (flipped d').
Proof.
  destruct (run_reports_missing_folder [[KEYDOWN K_RETURN]; [KEYDOWN K_ESCAPE]; [KEYDOWN K_d]]
              (fs Sample.w_missing) [] [] Sample.roms [] eq_refl eq_refl)
    as (d' & w' & Hrun & Hd & _).
  exists d', w'. split; [exact Hrun|]. split; [|exact Hd].
  vm_compute in Hrun. injection Hrun as <- _. reflexivity.
Defined.
